(** * Intrinsic bonding orbitals: a model of [libdmet/lo/ibo.py]

    The development follows the Python module:
    - Python values the module manipulates (exceptions, numbers, slices);
    - [get_offset], the label-driven atom-slice builder;
    - [MakeAtomInfos] / [MakeAtomIbOffsets], the static minimal-basis table;
    - the Jacobi sweep of [ibo_loc] over an abstract scalar type, written as
      code that updates the projection matrix in place, and compared with
      the sweep as the specification words it;
    - [ibo_loc] on a store of arrays addressed by location, with the pyscf
      and numpy functions it calls as parameters;
    - [ibo], the dispatch entry point.

    Floating-point arithmetic is abstracted by a class of operations, so
    that every statement about control flow, ordering and data flow holds
    for whatever the arithmetic computes; binary64 ([PrimFloat]) and exact
    rationals are used to evaluate concrete inputs. *)

From Stdlib Require Import ZArith Lia Ascii String List Bool QArith Qcanon Floats Ring.
From stdpp Require Import base option list strings gmap pretty.

Local Open Scope Z_scope.

(** ** Exceptions and the error monad *)

(** The two reasons for which this module's code ends in a [ValueError]. *)
Inductive value_error : Type :=
| LabelsNotOrdered (last_id cur_id : string)
| InvalidIntLiteral (s : string)
| ShapesNotAligned.

(** The exception classes that the module can raise, by itself or through
    the interpreter.  [UnboundLocalError] is the subclass of [NameError]
    raised when a local name is read before any assignment. *)
Inductive pyerr : Type :=
| AssertionError
| KeyError (key : string)
| IndexError
| TypeError
| ValueError (why : value_error)
| UnboundLocalError (name : string)
| NotImplementedError (msg : string)
| CollaboratorError (who : string).

Inductive result (A : Type) : Type :=
| Ok (a : A)
| Raise (e : pyerr).
Arguments Ok {A} a.
Arguments Raise {A} e.

#[global] Instance result_ret : MRet result := fun A a => Ok a.
#[global] Instance result_bind : MBind result :=
  fun A B f m => match m with Ok a => f a | Raise e => Raise e end.
#[global] Instance result_fmap : FMap result :=
  fun A B f m => match m with Ok a => Ok (f a) | Raise e => Raise e end.

Definition is_ok {A} (r : result A) : bool :=
  match r with Ok _ => true | Raise _ => false end.

(** A [for] loop over a list whose body may raise: the state is threaded
    from one iteration to the next, the first exception ends the loop. *)
Fixpoint for_each {A S : Type} (body : A -> S -> result S) (l : list A) (st : S)
  : result S :=
  match l with
  | [] => Ok st
  | x :: l' => st' ← body x st; for_each body l' st'
  end.

(** [enumerate(l)], counting from [i]. *)
Fixpoint enumerate_from {A : Type} (i : nat) (l : list A) : list (nat * A) :=
  match l with
  | [] => []
  | x :: l' => (i, x) :: enumerate_from (S i) l'
  end.
Definition enumerate {A : Type} (l : list A) : list (nat * A) := enumerate_from 0 l.

(** ** Numbers and slices *)

(** A Python number as this module produces them: an [int], or a [float]
    that came out of a true division such as [18/2].  Every float that the
    module builds this way is integer valued (and far below 2^53), so it is
    represented by its value. *)
Inductive pynum : Type :=
| PyInt (n : Z)
| PyFloat (x : Z).

Definition num_val (a : pynum) : Z :=
  match a with PyInt n => n | PyFloat x => x end.

Definition is_int (a : pynum) : bool :=
  match a with PyInt _ => true | PyFloat _ => false end.

(** [a + b]: an [int] only when both operands are. *)
Definition py_add (a b : pynum) : pynum :=
  match a, b with
  | PyInt m, PyInt n => PyInt (m + n)
  | _, _ => PyFloat (num_val a + num_val b)
  end.

(** [a == b] compares values: [10 == 10.0] holds. *)
Definition py_eqb (a b : pynum) : bool := num_val a =? num_val b.

(** [slice(start, stop)]; the constructor accepts any object as a bound. *)
Record pyslice : Type := Slice { sl_start : pynum; sl_stop : pynum }.

(** ** Strings *)

Module PyStr.

(** [str.isspace] on the code points below 256. *)
Definition isspace (c : ascii) : bool :=
  let n := N_of_ascii c in
  ((9 <=? n) && (n <=? 13) || (28 <=? n) && (n <=? 32)
   || (n =? 133) || (n =? 160))%N.

(** [str.isalpha] on the code points below 256: the ASCII letters, the
    ordinal indicators and the micro sign (170, 186, 181), and the accented
    Latin-1 letters (192 to 255 except the multiplication and division signs,
    215 and 247). *)
Definition isalpha (c : ascii) : bool :=
  let n := N_of_ascii c in
  ((65 <=? n) && (n <=? 90) || (97 <=? n) && (n <=? 122)
   || (n =? 170) || (n =? 181) || (n =? 186)
   || (192 <=? n) && (n <=? 214) || (216 <=? n) && (n <=? 246)
   || (248 <=? n))%N.

Definition isdigit (c : ascii) : bool :=
  let n := N_of_ascii c in ((48 <=? n) && (n <=? 57))%N.

Definition digit_val (c : ascii) : Z := Z.of_N (N_of_ascii c) - 48.

(** [s.split()]: the maximal runs of non-blank characters, in order.  [cur]
    is the word being read, reversed. *)
Fixpoint split_go (cur : list ascii) (s : string) : list string :=
  match s with
  | EmptyString =>
      match cur with [] => [] | _ => [string_of_list_ascii (rev cur)] end
  | String c s' =>
      if isspace c then
        match cur with
        | [] => split_go [] s'
        | _ => string_of_list_ascii (rev cur) :: split_go [] s'
        end
      else split_go (c :: cur) s'
  end.
Definition split (s : string) : list string := split_go [] s.

(** [''.join(ch for ch in s if ch.isalpha())]. *)
Fixpoint filter_alpha (s : string) : string :=
  match s with
  | EmptyString => EmptyString
  | String c s' => if isalpha c then String c (filter_alpha s') else filter_alpha s'
  end.

(** The digits of an [int] literal after its sign: decimal digits, single
    underscores allowed between two digits.  [acc] is the value read so far,
    [prev_digit] tells whether the previous character was a digit. *)
Fixpoint int_digits (acc : Z) (prev_digit : bool) (s : string) : option Z :=
  match s with
  | EmptyString => if prev_digit then Some acc else None
  | String c s' =>
      if isdigit c then int_digits (10 * acc + digit_val c) true s'
      else if (Ascii.eqb c "_") && prev_digit then int_digits acc false s'
      else None
  end.

(** [int(s)] for a token without surrounding blanks. *)
Definition int (s : string) : result Z :=
  let r :=
    match s with
    | String "-" s' => Z.opp <$> int_digits 0 false s'
    | String "+" s' => int_digits 0 false s'
    | _ => int_digits 0 false s
    end in
  match r with
  | Some z => Ok z
  | None => Raise (ValueError (InvalidIntLiteral s))
  end.

End PyStr.

(** ** [get_offset]: atom slices from basis-function labels *)

(** The locals of [get_offset] that live across iterations. *)
Record offset_state : Type := OffsetState {
  offset : list pyslice;
  last_id : string;
  last_i : Z
}.

Definition int_slice (a b : Z) : pyslice := Slice (PyInt a) (PyInt b).

(** One iteration of the loop body, for the pair [(i, lab)]. *)
Definition get_offset_body (il : nat * string) (st : offset_state)
  : result offset_state :=
  let '(i, lab) := il in
  let lab_sp := PyStr.split lab in
  match lab_sp with
  | [] => Raise IndexError
  | cur_id :: _ =>
      c ← PyStr.int cur_id;
      l ← PyStr.int (last_id st);
      if c <? l then Raise (ValueError (LabelsNotOrdered (last_id st) cur_id))
      else if bool_decide (cur_id ≠ last_id st) then
        Ok {| offset := if 0 <=? last_i st
                        then offset st ++ [int_slice (last_i st) (Z.of_nat i)]
                        else offset st;
              last_id := cur_id;
              last_i := Z.of_nat i |}
      else Ok st
  end.

(** The value of the loop variable [i] once the loop is over: the last
    index, or nothing when the loop body never ran. *)
Definition last_index {A : Type} (l : list A) : option nat :=
  match l with [] => None | _ => Some (length l - 1)%nat end.

Definition get_offset (labels : list string) : result (list pyslice) :=
  st ← for_each get_offset_body (enumerate labels)
        {| offset := []; last_id := "-1"; last_i := -1 |};
  match last_index labels with
  | None => Raise (UnboundLocalError "i")
  | Some i => Ok (offset st ++ [int_slice (last_i st) (Z.of_nat i + 1)])
  end.

(** *** What the labels carry *)

(** The leading token of a label, [lab.split()[0]]. *)
Definition atom_token (lab : string) : option string := head (PyStr.split lab).

(** [has_atom lab (tok, a)]: the label starts with the token [tok], which
    reads as the atom index [a >= 0]. *)
Definition has_atom (lab : string) (ta : string * Z) : Prop :=
  atom_token lab = Some ta.1 ∧ PyStr.int ta.1 = Ok ta.2 ∧ 0 <= ta.2.

(** Atom indices never decrease along the sequence. *)
Definition nondecreasing (idxs : list Z) : Prop :=
  ∀ (i j : nat) (a b : Z),
    (i < j)%nat → idxs !! i = Some a → idxs !! j = Some b → a <= b.

(** Some label's atom index is strictly smaller than an earlier label's. *)
Definition has_descent (idxs : list Z) : Prop :=
  ∃ (i j : nat) (a b : Z),
    (i < j)%nat ∧ idxs !! i = Some a ∧ idxs !! j = Some b ∧ b < a.

(** The slices [offs] cut the positions [b .. e) of [toks] into maximal runs
    of equal elements: each slice is a non-empty range [b, c) of equal
    elements, the element at [c] (if any) differs, and the next slice starts
    at [c]. *)
Fixpoint is_run_partition {A : Type} (toks : list A) (b : nat) (offs : list pyslice)
  (e : nat) : Prop :=
  match offs with
  | [] => b = e
  | sl :: offs' =>
      ∃ c : nat,
        sl = int_slice (Z.of_nat b) (Z.of_nat c) ∧ (b < c)%nat ∧
        (∀ j : nat, (b <= j < c)%nat → toks !! j = toks !! b) ∧
        toks !! c ≠ toks !! b ∧
        is_run_partition toks c offs' e
  end.

(** The same check on indices, as the loop performs it: every index is at
    least its predecessor, starting from [l]. *)
Fixpoint ascending_from (l : Z) (idxs : list Z) : bool :=
  match idxs with
  | [] => true
  | a :: r => (l <=? a) && ascending_from a r
  end.

(** *** The loop of [get_offset] *)

Lemma ascending_from_nondecreasing (l : Z) (idxs : list Z) :
  ascending_from l idxs = true ↔ nondecreasing (l :: idxs).
Proof.
  revert l. induction idxs as [|a r IH]; intros l; simpl.
  - split; [|done]. intros _ i j x y Hij Hi Hj.
    destruct j as [|j]; [lia|]. by destruct j.
  - rewrite andb_true_iff, IH, Z.leb_le. split.
    + intros [Hla Hr] i j x y Hij Hi Hj.
      destruct i as [|i].
      * simpl in Hi. simplify_eq. destruct j as [|j]; [lia|].
        destruct j as [|j]; simpl in Hj; [by simplify_eq|].
        etrans; [exact Hla|]. eapply (Hr 0%nat (S j)); [lia|done|done].
      * destruct j as [|j]; [lia|]. eapply (Hr i j); [lia|done..].
    + intros H. split.
      * by eapply (H 0%nat 1%nat); [lia|..].
      * intros i j x y Hij Hi Hj. eapply (H (S i) (S j)); [lia|done..].
Qed.

Lemma ascending_from_descent (l : Z) (idxs : list Z) :
  ascending_from l idxs = false ↔ has_descent (l :: idxs).
Proof.
  rewrite <- not_true_iff_false, ascending_from_nondecreasing. split.
  - intros Hn. revert l Hn. induction idxs as [|a r IH]; intros l Hn.
    + destruct Hn. intros i j x y Hij Hi Hj.
      destruct j as [|j]; [lia|]. by destruct j.
    + destruct (decide (a < l)) as [Hal|Hal].
      { exists 0%nat, 1%nat, l, a. by repeat split; [lia|..]. }
      destruct (IH a) as (i & j & x & y & Hij & Hi & Hj & Hlt).
      { intros Hr. apply Hn. apply ascending_from_nondecreasing. simpl.
        apply andb_true_iff. split; [apply Z.leb_le; lia|].
        by apply ascending_from_nondecreasing. }
      exists (S i), (S j), x, y. by repeat split; [lia|..].
  - intros (i & j & x & y & Hij & Hi & Hj & Hlt) Hn.
    specialize (Hn i j x y Hij Hi Hj). lia.
Qed.

Lemma get_offset_body_atom (i : nat) (lab tok : string) (a l : Z) (st : offset_state) :
  has_atom lab (tok, a) → PyStr.int (last_id st) = Ok l →
  get_offset_body (i, lab) st =
    if a <? l then Raise (ValueError (LabelsNotOrdered (last_id st) tok))
    else if bool_decide (tok ≠ last_id st) then
      Ok {| offset := if 0 <=? last_i st
                      then offset st ++ [int_slice (last_i st) (Z.of_nat i)]
                      else offset st;
            last_id := tok; last_i := Z.of_nat i |}
    else Ok st.
Proof.
  intros (Htok & Hint & _) Hl. unfold get_offset_body, atom_token in *.
  simpl in *. destruct (PyStr.split lab) as [|t ts]; simplify_eq/=.
  by rewrite Hint, Hl.
Qed.

Lemma is_run_partition_snoc {A : Type} (toks : list A) (b s k : nat)
    (offs : list pyslice) :
  is_run_partition toks b offs s → (s < k)%nat →
  (∀ j : nat, (s <= j < k)%nat → toks !! j = toks !! s) →
  toks !! k ≠ toks !! s →
  is_run_partition toks b (offs ++ [int_slice (Z.of_nat s) (Z.of_nat k)]) k.
Proof.
  revert b. induction offs as [|sl offs IH]; intros b Hp Hsk Hrun Hmax; simpl in *.
  - subst b. by exists k.
  - destruct Hp as (c & -> & Hbc & Hh & Hm & Hp). exists c. eauto 10.
Qed.

(** The state of the loop once the labels at positions [0 .. k) are read:
    the open run started at [s], every token since equals [last_id], the
    token before [s] (if any) differs, and the closed slices cut [0 .. s)
    into maximal runs. *)
Definition offset_inv (toks : list string) (k : nat) (st : offset_state) : Prop :=
  ∃ s : nat,
    last_i st = Z.of_nat s ∧ (s < k)%nat ∧
    (∀ j : nat, (s <= j < k)%nat → toks !! j = Some (last_id st)) ∧
    is_run_partition toks 0 (offset st) s.

Lemma get_offset_loop (pre rest : list (string * Z)) (labels : list string)
    (st : offset_state) (l : Z) :
  Forall2 has_atom labels rest →
  PyStr.int (last_id st) = Ok l →
  offset_inv ((pre ++ rest).*1) (length pre) st →
  if ascending_from l (rest.*2) then
    ∃ st', for_each get_offset_body (enumerate_from (length pre) labels) st = Ok st'
           ∧ offset_inv ((pre ++ rest).*1) (length pre + length rest) st'
  else
    ∃ lid cid, for_each get_offset_body (enumerate_from (length pre) labels) st
               = Raise (ValueError (LabelsNotOrdered lid cid)).
Proof.
  intros Hall. revert pre st l.
  induction Hall as [|lab [tok a] labels rest Hat Hall IH]; intros pre st l Hl Hinv.
  - simpl. exists st. split; [done|]. by rewrite Nat.add_0_r.
  - cbn [fmap list_fmap ascending_from enumerate_from for_each snd].
    rewrite (get_offset_body_atom _ _ tok a l) by done.
    destruct (Z.leb_spec l a) as [Hla|Hla]; cycle 1.
    { cbn [andb]. assert ((a <? l) = true) as -> by lia. simpl. eauto. }
    assert ((a <? l) = false) as -> by lia. cbn [andb].
    destruct Hinv as (s & Hs & Hsk & Hrun & Hpart).
    assert (Htk : ((pre ++ (tok, a) :: rest).*1) !! length pre = Some tok).
    { rewrite fmap_app, lookup_app_r by (rewrite length_fmap; lia).
      by rewrite length_fmap, Nat.sub_diag. }
    specialize (IH (pre ++ [(tok, a)])).
    rewrite <- !(assoc_L (++)), length_app in IH. simpl in IH.
    replace (length pre + 1)%nat with (S (length pre)) in IH by lia.
    destruct Hat as (_ & Hint & _). simpl in Hint.
    assert (∀ st', offset_inv ((pre ++ (tok, a) :: rest).*1)
                     (S (length pre + length rest)) st' →
                   offset_inv ((pre ++ (tok, a) :: rest).*1)
                     (length pre + length ((tok, a) :: rest)) st') as Hlen.
    { intros st'. cbn [length]. by rewrite Nat.add_succ_r. }
    case_bool_decide as Hne.
    + specialize (IH {| offset := if 0 <=? last_i st
                        then offset st ++ [int_slice (last_i st) (Z.of_nat (length pre))]
                        else offset st;
                        last_id := tok; last_i := Z.of_nat (length pre) |} a Hint).
      simpl in IH.
      assert (offset_inv ((pre ++ (tok, a) :: rest).*1) (S (length pre))
                {| offset := if 0 <=? last_i st
                        then offset st ++ [int_slice (last_i st) (Z.of_nat (length pre))]
                        else offset st;
                   last_id := tok; last_i := Z.of_nat (length pre) |}) as Hinv1.
      { exists (length pre). simpl. split; [done|]. split; [lia|].
        split. { intros j Hj. by replace j with (length pre) by lia. }
        rewrite Hs. assert ((0 <=? Z.of_nat s) = true) as -> by lia.
        apply is_run_partition_snoc; [done..| |].
        - intros j Hj. rewrite !Hrun by lia. done.
        - rewrite Htk, Hrun by lia. congruence. }
      specialize (IH Hinv1). destruct (ascending_from a (rest.*2)); [|done].
      destruct IH as (st' & Hrun' & Hinv'). eauto.
    + subst tok.
      specialize (IH st a Hint).
      assert (offset_inv ((pre ++ (last_id st, a) :: rest).*1) (S (length pre)) st)
        as Hinv2.
      { exists s. split; [done|]. split; [lia|]. split; [|done].
        intros j Hj. destruct (decide (j = length pre)) as [->|]; [done|].
        apply Hrun. lia. }
      specialize (IH Hinv2). destruct (ascending_from a (rest.*2)); [|done].
      destruct IH as (st' & Hrun' & Hinv'). eauto.
Qed.

(** The check that the loop performs on a whole label sequence. *)
Definition ascending (idxs : list Z) : bool :=
  match idxs with [] => true | a :: r => ascending_from a r end.

Lemma ascending_nondecreasing (idxs : list Z) :
  ascending idxs = true ↔ nondecreasing idxs.
Proof.
  destruct idxs as [|a r]; [|apply ascending_from_nondecreasing].
  split; [|done]. by intros _ i j x y _ Hi.
Qed.

Lemma ascending_descent (idxs : list Z) :
  ascending idxs = false ↔ has_descent idxs.
Proof.
  destruct idxs as [|a r]; [|apply ascending_from_descent].
  split; [done|]. by intros (i & j & x & y & _ & Hi & _).
Qed.

(** [get_offset] on a non-empty sequence of well-formed labels. *)
Lemma get_offset_spec (labels : list string) (tis : list (string * Z)) :
  labels ≠ [] → Forall2 has_atom labels tis →
  if ascending (tis.*2) then
    ∃ offs, get_offset labels = Ok offs
            ∧ is_run_partition (tis.*1) 0 offs (length labels)
  else
    ∃ lid cid, get_offset labels = Raise (ValueError (LabelsNotOrdered lid cid)).
Proof.
  intros Hne Hall. destruct Hall as [|lab [tok a] labels rest Hat Hall]; [done|].
  clear Hne. unfold get_offset, enumerate.
  cbn [enumerate_from for_each fmap list_fmap ascending snd].
  rewrite (get_offset_body_atom _ _ tok a (-1)) by done.
  destruct Hat as (_ & Hint & Ha). simpl in Hint, Ha.
  assert ((a <? -1) = false) as -> by lia.
  assert (tok ≠ "-1") as Hne.
  { intros ->. vm_compute in Hint. simplify_eq. lia. }
  simpl last_id. rewrite bool_decide_true by done. cbn [mbind result_bind].
  pose proof (get_offset_loop [(tok, a)] rest labels
                {| offset := []; last_id := tok; last_i := 0 |} a Hall Hint) as Hloop.
  cbn [length app] in Hloop.
  cbn [last_i offset last_id fst]. change (Z.of_nat 0) with 0.
  change (0 <=? -1) with false. cbv iota.
  assert (offset_inv (((tok, a) :: rest).*1) 1
            {| offset := []; last_id := tok; last_i := 0 |}) as Hinv0.
  { exists 0%nat. simpl. split; [done|]. split; [lia|]. split; [|done].
    intros j Hj. by replace j with 0%nat by lia. }
  specialize (Hloop Hinv0).
  destruct (ascending_from a (rest.*2)).
  - destruct Hloop as (st' & -> & s & Hs & Hsk & Hrun & Hpart).
    cbn [last_index mbind result_bind]. eexists. split; [done|].
    rewrite Hs. cbn [length].
    replace (Z.of_nat (S (length labels) - 1) + 1) with (Z.of_nat (S (length labels)))
      by lia.
    rewrite (Forall2_length _ _ _ Hall) in *.
    apply is_run_partition_snoc; [done| lia | |].
    + intros j Hj. rewrite !Hrun by lia. done.
    + change (tok :: rest.*1) with (((tok, a) :: rest).*1).
      rewrite (Hrun s) by lia.
      rewrite lookup_ge_None_2; [done|]. rewrite length_fmap. simpl. lia.
  - destruct Hloop as (lid & cid & ->). by eauto.
Qed.

Lemma is_run_partition_chain {A : Type} (toks : list A) (b e : nat) (offs : list pyslice) :
  is_run_partition toks b offs e →
  ∀ (k : nat) (s1 s2 : pyslice),
    offs !! k = Some s1 → offs !! S k = Some s2 → sl_stop s1 = sl_start s2.
Proof.
  revert b. induction offs as [|sl offs IH]; intros b Hp k s1 s2 H1 H2; [done|].
  destruct Hp as (c & -> & _ & _ & _ & Hp). destruct k as [|k].
  - simpl in H1, H2. simplify_eq. destruct offs as [|sl' offs']; [done|].
    simpl in H2. simplify_eq. by destruct Hp as (c' & -> & _).
  - by eapply (IH c Hp k).
Qed.

Lemma is_run_partition_last {A : Type} (toks : list A) (b e : nat) (offs : list pyslice) :
  is_run_partition toks b offs e → offs ≠ [] →
  sl_stop <$> last offs = Some (PyInt (Z.of_nat e)).
Proof.
  revert b. induction offs as [|sl offs IH]; intros b Hp Hne; [done|].
  destruct Hp as (c & -> & _ & _ & _ & Hp). destruct offs as [|sl' offs'].
  - simpl in Hp. by subst.
  - by apply (IH c).
Qed.

Lemma is_run_partition_start {A : Type} (toks : list A) (b e : nat) (offs : list pyslice) :
  is_run_partition toks b offs e →
  (b <= e)%nat ∧ (b ≠ e → sl_start <$> head offs = Some (PyInt (Z.of_nat b))).
Proof.
  revert b. induction offs as [|sl offs IH]; intros b Hp; simpl in *.
  - by subst.
  - destruct Hp as (c & -> & Hbc & _ & _ & Hp). apply IH in Hp as [Hce _].
    split; [lia|done].
Qed.

(** *** Results on [get_offset] *)

(** Checks [Forall2 has_atom] on explicit labels by evaluation. *)
Ltac check_labels :=
  repeat match goal with
    | |- Forall2 _ [] [] => constructor
    | |- Forall2 _ (_ :: _) (_ :: _) =>
        constructor;
        [ split; [vm_compute; reflexivity|];
          split; [vm_compute; reflexivity | simpl; lia] | ]
    end.

(** C6 (as amended).  On a non-empty sequence of labels that each start with
    an atom index [>= 0], [get_offset] raises the ordering [ValueError]
    exactly when some label's index is strictly smaller than an earlier
    label's; otherwise it returns the slices that cut the sequence into the
    maximal runs of labels whose leading tokens are equal as strings, the last
    slice ending at the end of the sequence.  The labels
    ["0 H 1s"; "1 H 1s"; "0 O 2s"] are refused. *)
Theorem get_offset_ordered_runs (labels : list string) (tis : list (string * Z)) :
  labels ≠ [] → Forall2 has_atom labels tis →
  ((∃ lid cid, get_offset labels = Raise (ValueError (LabelsNotOrdered lid cid)))
     ↔ has_descent (tis.*2))
  ∧ (¬ has_descent (tis.*2) →
     ∃ offs, get_offset labels = Ok offs
             ∧ is_run_partition (tis.*1) 0 offs (length labels)
             ∧ sl_stop <$> last offs = Some (PyInt (Z.of_nat (length labels))))
  ∧ get_offset ["0 H 1s"; "1 H 1s"; "0 O 2s"]
    = Raise (ValueError (LabelsNotOrdered "1" "0")).
Proof.
  intros Hne Hall. pose proof (get_offset_spec labels tis Hne Hall) as Hspec.
  pose proof (ascending_descent (tis.*2)) as Hdesc.
  destruct (ascending (tis.*2)).
  - destruct Hspec as (offs & Hrun & Hpart).
    assert (¬ has_descent (tis.*2)) as Hnd by (intros ?%Hdesc; done).
    split; [|split; [|done]].
    + split; [|done]. intros (lid & cid & Heq). congruence.
    + intros _. exists offs. split; [done|]. split; [done|].
      eapply is_run_partition_last; [done|]. intros ->. simpl in Hpart.
      destruct labels; [done|]. simpl in Hpart. lia.
  - destruct Hspec as (lid & cid & Hrun).
    assert (has_descent (tis.*2)) as Hd by (by apply Hdesc).
    split; [|split; [|done]].
    + split; eauto.
    + done.
Qed.

Lemma get_offset_ordered_runs_witness :
  ∃ offs, get_offset ["0 H 1s"; "0 H 2s"; "1 O 2s"] = Ok offs
          ∧ is_run_partition ["0"; "0"; "1"] 0 offs 3
          ∧ sl_stop <$> last offs = Some (PyInt 3).
Proof.
  refine (proj1 (proj2 (get_offset_ordered_runs
           ["0 H 1s"; "0 H 2s"; "1 O 2s"] [("0", 0); ("0", 0); ("1", 1)] _ _)) _).
  - done.
  - check_labels.
  - intros (i & j & a & b & Hij & Hi & Hj & Hlt).
    destruct i as [|[|[|i]]], j as [|[|[|j]]]; simpl in *; simplify_eq; lia.
Defined.

(** The same property read on atom indices (one slice per maximal run of
    equal indices) fails: "1" and "01" name the same atom, and the code,
    which compares the tokens as strings, starts a new slice between them. *)
Lemma get_offset_index_runs_counterexample :
  Forall2 has_atom ["1 H 1s"; "01 H 2s"] [("1", 1); ("01", 1)]
  ∧ ¬ has_descent [1; 1]
  ∧ get_offset ["1 H 1s"; "01 H 2s"] = Ok [int_slice 0 1; int_slice 1 2]
  ∧ ¬ is_run_partition [1; 1] 0 [int_slice 0 1; int_slice 1 2] 2
  ∧ is_run_partition [1; 1] 0 [int_slice 0 2] 2.
Proof.
  split; [check_labels|]. split.
  { intros (i & j & a & b & Hij & Hi & Hj & Hlt).
    destruct i as [|[|i]], j as [|[|j]]; simpl in *; simplify_eq; lia. }
  split; [done|]. split.
  - intros (c & Hc & _ & _ & Hmax & _). unfold int_slice in Hc.
    assert (c = 1%nat) as -> by (simplify_eq; lia). by apply Hmax.
  - exists 2%nat. split; [done|]. split; [lia|]. split; [|done].
    intros j Hj. destruct j as [|[|j]]; [done|done|lia].
Qed.

(** *** Non-empty input, whatever the sign of the indices *)

(** [has_index lab (tok, a)]: the label starts with the token [tok], which
    reads as the integer [a], of either sign. *)
Definition has_index (lab : string) (ta : string * Z) : Prop :=
  atom_token lab = Some ta.1 ∧ PyStr.int ta.1 = Ok ta.2.

(** Each slice stops where the next one starts. *)
Definition chained (offs : list pyslice) : Prop :=
  ∀ (k : nat) (s1 s2 : pyslice),
    offs !! k = Some s1 → offs !! S k = Some s2 → sl_stop s1 = sl_start s2.

(** The state of the loop once [k] labels are read, as far as the
    boundaries of the slices go: [last_i] is -1 or the start of the open
    run; nothing is closed before a run is open; the closed slices are
    chained and the last of them stops where the open run starts. *)
Definition chain_inv (k : nat) (st : offset_state) : Prop :=
  -1 <= last_i st < Z.of_nat k
  ∧ (last_i st < 0 → offset st = [])
  ∧ chained (offset st)
  ∧ (∀ s : pyslice, last (offset st) = Some s → sl_stop s = PyInt (last_i st)).

Lemma chained_snoc (offs : list pyslice) (a b : Z) :
  chained offs →
  (∀ s : pyslice, last offs = Some s → sl_stop s = PyInt a) →
  chained (offs ++ [int_slice a b]).
Proof.
  intros Hch Hlast k s1 s2 H1 H2.
  destruct (decide (S k < length offs)%nat) as [Hlt|Hge].
  - rewrite lookup_app_l in H1 by lia. rewrite lookup_app_l in H2 by lia.
    by apply (Hch k).
  - assert (S k = length offs) as Hk.
    { apply lookup_lt_Some in H2. rewrite length_app in H2. simpl in H2. lia. }
    rewrite lookup_app_l in H1 by lia.
    rewrite lookup_app_r, Hk, Nat.sub_diag in H2 by lia. simpl in H2. simplify_eq.
    apply Hlast. rewrite last_lookup, <- Hk. exact H1.
Qed.

Lemma get_offset_body_index (i : nat) (lab tok : string) (a l : Z) (st : offset_state) :
  has_index lab (tok, a) → PyStr.int (last_id st) = Ok l →
  get_offset_body (i, lab) st =
    if a <? l then Raise (ValueError (LabelsNotOrdered (last_id st) tok))
    else if bool_decide (tok ≠ last_id st) then
      Ok {| offset := if 0 <=? last_i st
                      then offset st ++ [int_slice (last_i st) (Z.of_nat i)]
                      else offset st;
            last_id := tok; last_i := Z.of_nat i |}
    else Ok st.
Proof.
  intros (Htok & Hint) Hl. unfold get_offset_body, atom_token in *.
  simpl in *. destruct (PyStr.split lab) as [|t ts]; simplify_eq/=.
  by rewrite Hint, Hl.
Qed.

Lemma get_offset_loop_chain (labels : list string) (rest : list (string * Z))
    (k : nat) (st : offset_state) (l : Z) :
  Forall2 has_index labels rest →
  PyStr.int (last_id st) = Ok l →
  ascending_from l (rest.*2) = true →
  chain_inv k st →
  ∃ st', for_each get_offset_body (enumerate_from k labels) st = Ok st'
         ∧ chain_inv (k + length labels) st'.
Proof.
  intros Hall. revert k st l.
  induction Hall as [|lab [tok a] labels rest Hat Hall IH]; intros k st l Hl Hasc Hinv.
  - exists st. split; [done|]. by rewrite Nat.add_0_r.
  - cbn [fmap list_fmap ascending_from snd] in Hasc.
    apply andb_true_iff in Hasc as [Hla Hasc]. apply Z.leb_le in Hla.
    cbn [enumerate_from for_each length].
    rewrite (get_offset_body_index _ _ tok a l) by done.
    assert ((a <? l) = false) as -> by lia.
    destruct Hat as [_ Hint]. cbn [fst snd] in Hint.
    destruct Hinv as (Hi & Hempty & Hch & Hlast).
    replace (k + S (length labels))%nat with (S k + length labels)%nat by lia.
    case_bool_decide as Hne; cbn [mbind result_bind].
    + apply (IH (S k) _ a); [done|done|].
      unfold chain_inv. cbn [last_i offset]. split; [lia|]. split; [lia|].
      destruct (Z.leb_spec 0 (last_i st)) as [Hpos|Hneg].
      * split; [by apply chained_snoc|]. intros s. rewrite last_snoc. by intros [= <-].
      * rewrite (Hempty Hneg). split; [by intros j s1 s2 Hj|done].
    + subst tok. assert (a = l) as -> by congruence.
      apply (IH (S k) st l); [done|done|].
      split; [lia|done].
Qed.

(** C10 (as amended).  [get_offset] is total only on non-empty input whose
    first atom index is not below -1, the value from which the loop starts
    its comparison.  For a non-empty sequence of labels with non-decreasing
    integer indices, none below -1, it returns at least one slice, each slice
    stops where the next one starts, and the last slice stops at the number
    of labels.  When the first index is below -1 the first comparison fails
    and the ordering [ValueError] is raised.  For the empty sequence the loop
    variable [i] is never bound and the final [slice(last_i, i + 1)] raises
    [UnboundLocalError]: neither the ordering [ValueError] nor a result. *)
Theorem get_offset_total_on_nonempty (labels : list string) (tis : list (string * Z)) :
  labels ≠ [] → Forall2 has_index labels tis → nondecreasing (tis.*2) →
  (Forall (fun a => -1 <= a) (tis.*2) →
   ∃ offs, get_offset labels = Ok offs
           ∧ offs ≠ []
           ∧ (∀ (k : nat) (s1 s2 : pyslice),
                offs !! k = Some s1 → offs !! S k = Some s2 → sl_stop s1 = sl_start s2)
           ∧ sl_stop <$> last offs = Some (PyInt (Z.of_nat (length labels))))
  ∧ (∀ (tok : string) (a : Z), head tis = Some (tok, a) → a < -1 →
     get_offset labels = Raise (ValueError (LabelsNotOrdered "-1" tok)))
  ∧ get_offset [] = Raise (UnboundLocalError "i").
Proof.
  intros Hne Hall Hnd. split; [|split; [|done]].
  - intros Hlow.
    assert (ascending_from (-1) (tis.*2) = true) as Hasc.
    { destruct tis as [|[tok a] tis]; [done|].
      cbn [fmap list_fmap snd ascending_from] in *.
      apply andb_true_iff. split.
      - apply Z.leb_le. by apply Forall_cons in Hlow as [Hlow _].
      - by apply ascending_nondecreasing in Hnd. }
    destruct (get_offset_loop_chain labels tis 0
                {| offset := []; last_id := "-1"; last_i := -1 |} (-1) Hall)
      as (st & Hloop & Hi & Hempty & Hch & Hlast); [done|done| |].
    { split; [simpl; lia|]. split; [done|]. split; [by intros k s1 s2 Hk|done]. }
    unfold get_offset, enumerate. rewrite Hloop. cbn [mbind result_bind].
    destruct labels as [|lab labels]; [done|]. cbn [last_index].
    eexists. split; [done|]. split; [by destruct (offset st)|].
    split; [by apply chained_snoc|].
    rewrite last_snoc. cbn [fmap option_fmap option_map int_slice sl_stop].
    do 2 f_equal. cbn [length]. lia.
  - intros tok a Hhead Ha.
    destruct Hall as [|lab [tok' a'] labels tis Hat Hall]; [done|].
    cbn [head] in Hhead. simplify_eq.
    unfold get_offset, enumerate. cbn [enumerate_from for_each].
    rewrite (get_offset_body_index _ _ tok a (-1)) by done.
    by assert ((a <? -1) = true) as -> by lia.
Qed.

Lemma get_offset_total_on_nonempty_witness :
  ∃ offs, get_offset ["-1 X 1s"; "0 H 1s"; "1 O 1s"; "1 O 2s"] = Ok offs
          ∧ offs ≠ []
          ∧ (∀ (k : nat) (s1 s2 : pyslice),
               offs !! k = Some s1 → offs !! S k = Some s2 → sl_stop s1 = sl_start s2)
          ∧ sl_stop <$> last offs = Some (PyInt 4).
Proof.
  refine (proj1 (get_offset_total_on_nonempty
            ["-1 X 1s"; "0 H 1s"; "1 O 1s"; "1 O 2s"]
            [("-1", -1); ("0", 0); ("1", 1); ("1", 1)] _ _ _) _).
  - done.
  - repeat (constructor; [split; vm_compute; reflexivity|]). constructor.
  - intros i j a b Hij Hi Hj.
    destruct i as [|[|[|[|i]]]], j as [|[|[|[|j]]]]; simpl in *; simplify_eq; lia.
  - cbn [fmap list_fmap snd]. repeat (constructor; [lia|]). constructor.
Defined.

(** The claim read without a bound on the indices fails: a single label
    whose index is -2 is a non-empty sequence with non-decreasing indices,
    and [get_offset] raises the ordering [ValueError] on it. *)
Lemma get_offset_negative_index_counterexample :
  ["-2 H 1s"] ≠ []
  ∧ Forall2 has_index ["-2 H 1s"] [("-2", -2)]
  ∧ nondecreasing [-2]
  ∧ get_offset ["-2 H 1s"] = Raise (ValueError (LabelsNotOrdered "-1" "-2")).
Proof.
  split; [done|]. split.
  { constructor; [split; vm_compute; reflexivity|constructor]. }
  split; [|done].
  intros i j a b Hij Hi Hj. destruct i as [|i], j as [|j]; simpl in *; simplify_eq; lia.
Qed.

(** ** [MakeAtomInfos]: the static minimal-basis table *)

(** [d[key]] on a dictionary, [KeyError] when the key is absent. *)
Definition getitem {V : Type} (d : gmap string V) (key : string) : result V :=
  match d !! key with
  | Some v => Ok v
  | None => Raise (KeyError key)
  end.

(** The [assert] statement. *)
Definition py_assert (b : bool) : result unit :=
  if b then Ok tt else Raise AssertionError.

(** [a / b], Python 3 true division: always a [float].  The quotients taken
    in this module ([18/2], [36/2], [54/2], [86/2]) are exact. *)
Definition py_truediv (a b : pynum) : pynum := PyFloat (num_val a / num_val b).

(** [range(a, b)]. *)
Definition py_range (a b : Z) : list Z :=
  (fun k : nat => a + Z.of_nat k) <$> seq 0 (Z.to_nat (b - a)).

Module Fmt.

(** [sep.join(parts)]. *)
Fixpoint join (sep : string) (parts : list string) : string :=
  match parts with
  | [] => ""
  | [p] => p
  | p :: ps => p +:+ sep +:+ join sep ps
  end.

(** [s.replace(c, '')] for a single character [c]. *)
Fixpoint remove_char (c : ascii) (s : string) : string :=
  match s with
  | EmptyString => EmptyString
  | String a s' => if Ascii.eqb a c then remove_char c s' else String a (remove_char c s')
  end.

(** [template.format(n=i)] for templates whose only field is [{n}]. *)
Fixpoint format_n (template : string) (i : Z) : string :=
  match template with
  | String "{" (String "n" (String "}" rest)) => pretty i +:+ format_n rest i
  | String a rest => String a (format_n rest i)
  | EmptyString => EmptyString
  end.

(** [s.startswith('[')]. *)
Definition starts_with_bracket (s : string) : bool :=
  match s with String "[" _ => true | _ => false end.

End Fmt.

(** A list comprehension [[f(x) for x in xs]] whose element expression may
    raise: the elements are evaluated in order, the first exception ends
    the evaluation. *)
Fixpoint comprehension {A B : Type} (f : A -> result B) (xs : list A) : result (list B) :=
  match xs with
  | [] => Ok []
  | x :: xs' => y ← f x; ys ← comprehension f xs'; Ok (y :: ys)
  end.

(** [templates[l].format(n=i)]: the subscript is evaluated for each element
    of the comprehension, so that an [l] beyond the four templates raises
    [IndexError] only when there is something to format. *)
Definition format_shell (templates : list string) (l : nat) (i : Z) : result string :=
  match templates !! l with
  | Some template => Ok (Fmt.format_n template i)
  | None => Raise IndexError
  end.

(** Help function to define core and valence shells for a shell of angular
    momentum [l]. *)
Definition shell_str (l : nat) (n_cor n_val : Z) : result string :=
  let cor_shell :=
    [ "[{n}s]"; "[{n}px] [{n}py] [{n}pz]";
      "[{n}d0] [{n}d2-] [{n}d1+] [{n}d2+] [{n}d1-]";
      "[{n}f1+] [{n}f1-] [{n}f0] [{n}f3+] [{n}f2-] [{n}f3-] [{n}f2+]" ] in
  let val_shell :=
    (fun l_str => Fmt.remove_char "]" (Fmt.remove_char "[" l_str)) <$> cor_shell in
  let l0 := Z.of_nat l in
  cors ← comprehension (format_shell cor_shell l) (py_range (l0 + 1) (l0 + 1 + n_cor));
  vals ← comprehension (format_shell val_shell l)
           (py_range (l0 + 1 + n_cor) (l0 + 1 + n_cor + n_val));
  Ok (Fmt.join " " (cors ++ vals)).

(** The three dictionaries that [MakeAtomInfos] builds. *)
Record atom_infos : Type := AtomInfos {
  nCoreX : gmap string pynum;
  nAoX : gmap string pynum;
  AoLabels : gmap string (list string)
}.

(** [for At in names.split(): d[At] = v]. *)
Definition set_all (names : string) (v : pynum) (d : gmap string pynum)
  : gmap string pynum :=
  foldl (fun d At => <[At := v]> d) d (PyStr.split names).

(** The local function [SetAo]: records the labels of [At] and checks them
    against the two count tables. *)
Definition SetAo (At AoDecl : string) (st : atom_infos) : result atom_infos :=
  let Labels := PyStr.split AoDecl in
  let st := {| nCoreX := nCoreX st; nAoX := nAoX st;
               AoLabels := <[At := Labels]> (AoLabels st) |} in
  n ← getitem (nAoX st) At;
  _ ← py_assert (py_eqb (PyInt (Z.of_nat (length Labels))) n);
  let nCore := length (filter (fun o => Fmt.starts_with_bracket o = true) Labels) in
  c ← getitem (nCoreX st) At;
  _ ← py_assert (py_eqb (PyInt (Z.of_nat nCore)) c);
  Ok st.

(** [for At in names.split(): SetAo(At, decl)]. *)
Definition SetAo_all (names decl : string) (st : atom_infos) : result atom_infos :=
  for_each (fun At st => SetAo At decl st) (PyStr.split names) st.

(** The loops over the heavier elements: [nCoreX[At] = core], then
    [nAoX[At] = nCoreX[At] + e1 + e2 ...], then [SetAo] on the labels joined
    from [shell_str]. *)
Definition set_row (names : string) (core : pynum) (extras : list Z)
    (shells : list (nat * Z * Z)) (st : atom_infos) : result atom_infos :=
  for_each
    (fun At st =>
       let st := {| nCoreX := <[At := core]> (nCoreX st); nAoX := nAoX st;
                    AoLabels := AoLabels st |} in
       c ← getitem (nCoreX st) At;
       let st := {| nCoreX := nCoreX st;
                    nAoX := <[At := foldl (fun a e => py_add a (PyInt e)) c extras]>
                              (nAoX st);
                    AoLabels := AoLabels st |} in
       parts ← for_each
                 (fun '(l, n_cor, n_val) acc => s ← shell_str l n_cor n_val; Ok (acc ++ [s]))
                 shells [];
       SetAo At (Fmt.join " " parts) st)
    (PyStr.split names) st.

Definition half (n : Z) : pynum := py_truediv (PyInt n) (PyInt 2).
Definition plus (a : pynum) (n : Z) : pynum := py_add a (PyInt n).

Definition MakeAtomInfos : result atom_infos :=
  let nCoreX0 : gmap string pynum := <["He" := PyInt 0]> (<["H" := PyInt 0]> ∅) in
  let nCoreX1 := set_all "Li Be B C O N F Ne" (PyInt 1) nCoreX0 in
  let nCoreX2 := set_all "Na Mg Al Si P S Cl Ar" (PyInt 5) nCoreX1 in
  let nCoreX3 := set_all "Na Mg Al Si P S Cl Ar" (PyInt 5) nCoreX2 in
  let nCoreX4 := set_all "K Ca" (half 18) nCoreX3 in
  let nCoreX5 := set_all "Sc Ti V Cr Mn Fe Co Ni Cu Zn" (half 18) nCoreX4 in
  let nCoreX6 := set_all "Ga Ge As Se Br Kr" (plus (half 18) 5) nCoreX5 in
  let nAoX0 : gmap string pynum := <["He" := PyInt 1]> (<["H" := PyInt 1]> ∅) in
  let nAoX1 := set_all "Li Be" (PyInt 2) nAoX0 in
  let nAoX2 := set_all "B C O N F Ne" (PyInt 5) nAoX1 in
  let nAoX3 := set_all "Na Mg" (PyInt (3 * 1 + 1 * 3)) nAoX2 in
  let nAoX4 := set_all "Al Si P S Cl Ar" (PyInt (3 * 1 + 2 * 3)) nAoX3 in
  let nAoX5 := set_all "K Ca" (plus (half 18) 1) nAoX4 in
  let nAoX6 := set_all "Sc Ti V Cr Mn Fe Co Ni Cu Zn" (plus (plus (half 18) 1) 5) nAoX5 in
  let nAoX7 := set_all "Ga Ge As Se Br Kr" (plus (plus (plus (half 18) 1) 5) 3) nAoX6 in
  st ← SetAo_all "H He" "1s" {| nCoreX := nCoreX6; nAoX := nAoX7; AoLabels := ∅ |};
  st ← SetAo_all "Li Be" "[1s] 2s" st;
  st ← SetAo_all "B C O N F Ne" "[1s] 2s 2px 2py 2pz" st;
  st ← SetAo_all "Na Mg" "[1s] [2s] 3s [2px] [2py] [2pz]" st;
  st ← SetAo_all "Al Si P S Cl Ar" "[1s] [2s] 3s [2px] [2py] [2pz] 3px 3py 3pz" st;
  st ← SetAo_all "K Ca" "[1s] [2s] [3s] 4s [2px] [2py] [2pz] [3px] [3py] [3pz]" st;
  st ← SetAo_all "Sc Ti V Cr Mn Fe Co Ni Cu Zn"
        "[1s] [2s] [3s] 4s [2px] [2py] [2pz] [3px] [3py] [3pz] 3d0 3d2- 3d1+ 3d2+ 3d1-" st;
  st ← SetAo_all "Ga Ge As Se Br Kr"
        "[1s] [2s] [3s] 4s [2px] [2py] [2pz] [3px] [3py] [3pz] 4px 4py 4pz [3d0] [3d2-] [3d1+] [3d2+] [3d1-]" st;
  st ← set_row "Rb Sr" (half 36) [1]
        [(0%nat, 4, 1); (1%nat, 3, 0); (2%nat, 1, 0)] st;
  st ← set_row "Y Zr Nb Mo Tc Ru Rh Pd Ag Cd" (half 36) [1; 5]
        [(0%nat, 4, 1); (1%nat, 3, 0); (2%nat, 1, 1)] st;
  st ← set_row "In Sn Sb Te I Xe" (plus (half 36) 5) [1; 3]
        [(0%nat, 4, 1); (1%nat, 3, 1); (2%nat, 2, 0)] st;
  st ← set_row "Cs Ba" (half 54) [1]
        [(0%nat, 5, 1); (1%nat, 4, 0); (2%nat, 2, 0)] st;
  st ← set_row "Ce Pr Nd Pm Sm Eu Gd Tb Dy Ho Er Tm Yb Lu" (half 54) [1; 5; 7]
        [(0%nat, 5, 1); (1%nat, 4, 0); (2%nat, 2, 1); (3%nat, 0, 1)] st;
  st ← set_row "La Hf Ta W Re Os Ir Pt Au Hg" (plus (half 54) 7) [1; 5]
        [(0%nat, 5, 1); (1%nat, 4, 0); (2%nat, 2, 1); (3%nat, 1, 0)] st;
  st ← set_row "Tl Pb Bi Po At Rn" (plus (plus (half 54) 7) 5) [1; 3]
        [(0%nat, 5, 1); (1%nat, 4, 1); (2%nat, 3, 0); (3%nat, 1, 0)] st;
  st ← set_row "Fr Ra" (half 86) [1]
        [(0%nat, 6, 1); (1%nat, 5, 0); (2%nat, 3, 0); (3%nat, 1, 0)] st;
  st ← set_row "Th Pa U Np Pu Am Cm Bk Cf Es Fm Md No" (half 86) [1; 5; 7]
        [(0%nat, 6, 1); (1%nat, 5, 0); (2%nat, 3, 1); (3%nat, 1, 1)] st;
  st ← set_row "Ac Lr Rf Db Sg Bh Hs Mt Ds Rg Cn" (plus (half 86) 7) [1; 5]
        [(0%nat, 6, 1); (1%nat, 5, 0); (2%nat, 3, 1); (3%nat, 2, 0)] st;
  st ← set_row "Nh Fl Mc Lv Ts Og" (plus (plus (half 86) 7) 5) [1; 3]
        [(0%nat, 6, 1); (1%nat, 5, 1); (2%nat, 4, 0); (3%nat, 2, 0)] st;
  Ok st.

(** ** [MakeAtomIbOffsets]: offsets of the atoms in the minimal basis *)

(** [iBfAt[-1]] on the list of offsets, which is never empty. *)
Definition last_offset (iBfAt : list pynum) : pynum := default (PyInt 0) (last iBfAt).

(** The body of the loop over [Atoms]: strip the symbol down to its letters
    and append the next offset. *)
Definition append_offset (infos : atom_infos) (Atom : string) (iBfAt : list pynum)
  : result (list pynum) :=
  let Atom := PyStr.filter_alpha Atom in
  n ← getitem (nAoX infos) Atom;
  Ok (iBfAt ++ [py_add (last_offset iBfAt) n]).

Definition MakeAtomIbOffsets (Atoms : list string) : result (list pynum * atom_infos) :=
  infos ← MakeAtomInfos;
  iBfAt ← for_each (append_offset infos) Atoms [PyInt 0];
  Ok (iBfAt, infos).

(** [[slice(AtomOffsets[A], AtomOffsets[A+1]) for A in range(nAtoms)]], as
    [ibo_loc] derives its atom slices. *)
Definition atom_slices (AtomOffsets : list pynum) (nAtoms : nat) : result (list pyslice) :=
  for_each
    (fun A acc =>
       match AtomOffsets !! A, AtomOffsets !! S A with
       | Some a, Some b => Ok (acc ++ [Slice a b])
       | _, _ => Raise IndexError
       end)
    (seq 0 nAtoms) [].

(** *** The table as evaluated *)

(** The table, read off the run of [MakeAtomInfos]. *)
Definition atom_table : atom_infos :=
  match MakeAtomInfos with
  | Ok infos => infos
  | Raise _ => {| nCoreX := ∅; nAoX := ∅; AoLabels := ∅ |}
  end.

(** Every assertion of [SetAo] holds: building the table never raises. *)
Lemma MakeAtomInfos_ok : MakeAtomInfos = Ok atom_table.
Proof.
  assert (is_ok MakeAtomInfos = true) as Hok by (vm_compute; reflexivity).
  unfold atom_table. by destruct MakeAtomInfos.
Qed.

(** Every element has at least one minimal-basis orbital. *)
Lemma nAoX_positive (At : string) (n : pynum) :
  nAoX atom_table !! At = Some n → 1 <= num_val n.
Proof.
  revert At n. change (map_Forall (fun _ n => 1 <= num_val n) (nAoX atom_table)).
  apply (bool_decide_unpack _). vm_compute. exact I.
Qed.

(** The keys of the table are made of letters only. *)
Lemma nAoX_keys_alpha (At : string) (n : pynum) :
  nAoX atom_table !! At = Some n → PyStr.filter_alpha At = At.
Proof.
  revert At n.
  change (map_Forall (fun At _ => PyStr.filter_alpha At = At) (nAoX atom_table)).
  apply (bool_decide_unpack _). vm_compute. exact I.
Qed.

(** From here on the table is only read through the three lemmas above. *)
#[global] Opaque atom_table.

(** *** Offsets as running sums *)

(** The index [x] is selected by the slice [sl].  numpy takes only [int]s
    as slice bounds: a slice with a [float] bound selects nothing, indexing
    with it raises [TypeError]. *)
Definition in_slice (sl : pyslice) (x : Z) : Prop :=
  match sl_start sl, sl_stop sl with
  | PyInt a, PyInt b => a <= x < b
  | _, _ => False
  end.

(** The running sums of [ns] started at [o]: what the loop of
    [MakeAtomIbOffsets] appends to [iBfAt]. *)
Fixpoint running_sums (o : pynum) (ns : list pynum) : list pynum :=
  match ns with
  | [] => []
  | n :: r => py_add o n :: running_sums (py_add o n) r
  end.

Lemma num_val_py_add (a b : pynum) : num_val (py_add a b) = num_val a + num_val b.
Proof. by destruct a, b. Qed.

Lemma last_offset_snoc (l : list pynum) (o : pynum) : last_offset (l ++ [o]) = o.
Proof. unfold last_offset. by rewrite last_snoc. Qed.

Lemma getitem_Some {V : Type} (d : gmap string V) (key : string) (v : V) :
  d !! key = Some v → getitem d key = Ok v.
Proof. intros H. unfold getitem. by rewrite H. Qed.

Lemma append_offset_Some (infos : atom_infos) (a : string) (n : pynum)
    (l : list pynum) :
  nAoX infos !! PyStr.filter_alpha a = Some n →
  append_offset infos a l = Ok (l ++ [py_add (last_offset l) n]).
Proof. intros H. unfold append_offset. by rewrite (getitem_Some _ _ _ H). Qed.

Lemma offsets_loop (infos : atom_infos) (Atoms : list string) (ns acc : list pynum)
    (o : pynum) :
  Forall2 (fun a n => nAoX infos !! PyStr.filter_alpha a = Some n) Atoms ns →
  for_each (append_offset infos) Atoms (acc ++ [o])
  = Ok (acc ++ o :: running_sums o ns).
Proof.
  intros Hall. revert acc o.
  induction Hall as [|a n Atoms ns Ha Hall IH]; intros acc o; [done|].
  cbn [for_each running_sums]. rewrite (append_offset_Some _ _ _ _ Ha).
  cbn [mbind result_bind]. rewrite last_offset_snoc, IH.
  by rewrite <- (assoc_L (++)).
Qed.

Lemma running_sums_length (o : pynum) (ns : list pynum) :
  length (running_sums o ns) = length ns.
Proof. revert o. induction ns as [|n r IH]; intros o; simpl; [done|]. by rewrite IH. Qed.

Lemma running_sums_lookup (o : pynum) (ns : list pynum) (k : nat) (n : pynum) :
  ns !! k = Some n →
  ∃ a b, (o :: running_sums o ns) !! k = Some a
         ∧ (o :: running_sums o ns) !! S k = Some b
         ∧ b = py_add a n.
Proof.
  revert o k. induction ns as [|m r IH]; intros o k Hk; [done|].
  destruct k as [|k]; simpl in Hk.
  - simplify_eq. by exists o, (py_add o n).
  - destruct (IH (py_add o m) k Hk) as (a & b & Ha & Hb & ->). by exists a, (py_add a n).
Qed.

Lemma atom_slices_loop (offs : list pynum) (n : nat) (i : nat) (acc : list pyslice) :
  (i + n < length offs)%nat →
  ∃ sl, for_each
          (fun A acc =>
             match offs !! A, offs !! S A with
             | Some a, Some b => Ok (acc ++ [Slice a b])
             | _, _ => Raise IndexError
             end)
          (seq i n) acc = Ok (acc ++ sl)
        ∧ length sl = n
        ∧ ∀ (k : nat) (a b : pynum),
            (k < n)%nat → offs !! (i + k)%nat = Some a → offs !! S (i + k) = Some b →
            sl !! k = Some (Slice a b).
Proof.
  revert i acc. induction n as [|n IH]; intros i acc Hlen.
  - exists []. simpl. rewrite (right_id_L [] (++)). split; [done|]. split; [done|]. lia.
  - cbn [seq for_each].
    destruct (lookup_lt_is_Some_2 offs i) as [a Ha]; [lia|].
    destruct (lookup_lt_is_Some_2 offs (S i)) as [b Hb]; [lia|].
    rewrite Ha, Hb. cbn [mbind result_bind].
    destruct (IH (S i) (acc ++ [Slice a b])) as (sl & -> & Hl & Hsl); [lia|].
    exists (Slice a b :: sl). rewrite <- (assoc_L (++)). split; [done|].
    split; [simpl; lia|]. intros k a' b' Hk Ha' Hb'. destruct k as [|k].
    + rewrite Nat.add_0_r in Ha', Hb'. by simplify_eq.
    + simpl. apply Hsl; [lia|..].
      * by replace (S i + k)%nat with (i + S k)%nat by lia.
      * by replace (S (S i + k))%nat with (S (i + S k))%nat by lia.
Qed.

Lemma running_sums_lower (o : pynum) (ns : list pynum) (k : nat) (a : pynum) :
  Forall (fun n => 1 <= num_val n) ns →
  (o :: running_sums o ns) !! k = Some a → num_val o <= num_val a.
Proof.
  intros Hpos. revert o k. induction Hpos as [|n r Hn Hpos IH]; intros o k Hk.
  - destruct k as [|k]; simpl in Hk; [by simplify_eq|done].
  - destruct k as [|k]; simpl in Hk; [by simplify_eq|].
    apply (IH (py_add o n) k) in Hk. rewrite num_val_py_add in Hk. lia.
Qed.

(** With positive counts, the consecutive running sums bound ranges that
    cover [num_val o .. num_val t) without gap or overlap. *)
Lemma running_sums_cover (o t : pynum) (ns : list pynum) (x : Z) :
  Forall (fun n => 1 <= num_val n) ns →
  last (o :: running_sums o ns) = Some t →
  num_val o <= x < num_val t →
  exists! k : nat, ∃ a b : pynum,
    (o :: running_sums o ns) !! k = Some a
    ∧ (o :: running_sums o ns) !! S k = Some b
    ∧ num_val a <= x < num_val b.
Proof.
  intros Hpos. revert o. induction Hpos as [|n r Hn Hpos IH]; intros o Hlast Hx.
  - simpl in Hlast. simplify_eq. lia.
  - cbn [running_sums] in *. rewrite last_cons_cons in Hlast.
    destruct (decide (x < num_val (py_add o n))) as [Hlt|Hge].
    + exists 0%nat. split.
      * exists o, (py_add o n). split; [done|]. split; [done|]. lia.
      * intros k (a & b & Ha & Hb & Hab). destruct k as [|k]; [done|].
        simpl in Ha. apply running_sums_lower in Ha; [|done]. lia.
    + destruct (IH (py_add o n) Hlast) as (k & (a & b & Ha & Hb & Hab) & Huniq); [lia|].
      exists (S k). split.
      * by exists a, b.
      * intros k' (a' & b' & Ha' & Hb' & Hab'). destruct k' as [|k'].
        { simpl in Ha', Hb'. simplify_eq. lia. }
        f_equal. apply Huniq. by exists a', b'.
Qed.

(** *** Results on [MakeAtomIbOffsets] *)

(** [MakeAtomIbOffsets] on atoms whose letters-only symbols are in the
    table: the table itself and the running sums of the orbital counts. *)
Lemma MakeAtomIbOffsets_spec (Atoms : list string) (ns : list pynum) :
  Forall2 (fun a n => nAoX atom_table !! PyStr.filter_alpha a = Some n) Atoms ns →
  MakeAtomIbOffsets Atoms = Ok (PyInt 0 :: running_sums (PyInt 0) ns, atom_table).
Proof.
  intros Hall. unfold MakeAtomIbOffsets. rewrite MakeAtomInfos_ok.
  cbn [mbind result_bind].
  pose proof (offsets_loop atom_table Atoms ns [] (PyInt 0) Hall) as Hloop.
  rewrite app_nil_l in Hloop. by rewrite Hloop.
Qed.

(** The running sums of integer counts. *)
Fixpoint running_sums_Z (o : Z) (ns : list Z) : list Z :=
  match ns with
  | [] => []
  | n :: r => (o + n) :: running_sums_Z (o + n) r
  end.

Lemma running_sums_int (o : Z) (ns : list Z) :
  running_sums (PyInt o) (PyInt <$> ns) = PyInt <$> running_sums_Z o ns.
Proof.
  revert o. induction ns as [|n r IH]; intros o; [done|].
  cbn [fmap list_fmap running_sums running_sums_Z py_add]. by rewrite IH.
Qed.

Lemma lookup_fmap_PyInt (l : list Z) (k : nat) (a : pynum) :
  (PyInt <$> l) !! k = Some a → ∃ z : Z, a = PyInt z ∧ l !! k = Some z.
Proof.
  rewrite list_lookup_fmap. destruct (l !! k) as [z|]; [|done].
  intros [= <-]. by exists z.
Qed.

(** For atoms whose number of minimal-basis orbitals is an [int] in the
    table (hydrogen to argon), the offsets are integers that start at 0 and
    grow by each atom's number of orbitals, in atom order; the slices
    [slice(offs[A], offs[A+1])] are one per atom, each stops where the next
    starts, and every index of [0 .. total) is selected by exactly one of
    them. *)
Theorem integer_offsets_partition (Atoms : list string) :
  Forall (fun a => ∃ n : Z, nAoX atom_table !! a = Some (PyInt n)) Atoms →
  ∃ (offs : list Z) (infos : atom_infos) (slices : list pyslice) (total : Z),
    MakeAtomIbOffsets Atoms = Ok (PyInt <$> offs, infos)
    ∧ atom_slices (PyInt <$> offs) (length Atoms) = Ok slices
    ∧ offs !! 0%nat = Some 0
    ∧ last offs = Some total
    ∧ length offs = S (length Atoms)
    ∧ length slices = length Atoms
    ∧ (∀ (k : nat) (a : string), Atoms !! k = Some a →
         ∃ n o : Z,
           nAoX infos !! a = Some (PyInt n)
           ∧ offs !! k = Some o ∧ offs !! S k = Some (o + n)
           ∧ slices !! k = Some (int_slice o (o + n)))
    ∧ (∀ x : Z, 0 <= x < total →
         exists! k : nat, ∃ sl : pyslice, slices !! k = Some sl ∧ in_slice sl x).
Proof.
  intros Hin.
  assert (∃ ns, Forall2 (fun a n => nAoX atom_table !! a = Some (PyInt n)) Atoms ns)
    as [ns Hns].
  { induction Hin as [|a Atoms [n Hn] _ [ns IH]]; [by exists []|].
    exists (n :: ns). by constructor. }
  assert (Forall2 (fun a n => nAoX atom_table !! PyStr.filter_alpha a = Some n)
            Atoms (PyInt <$> ns)) as Hclean.
  { apply Forall2_fmap_r. eapply Forall2_impl; [exact Hns|]. intros a n Ha. simpl.
    by rewrite (nAoX_keys_alpha a _ Ha). }
  assert (Forall (fun n => 1 <= num_val n) (PyInt <$> ns)) as Hpos.
  { apply Forall_fmap. clear Hclean Hin.
    induction Hns as [|a n Atoms ns Ha _ IH]; constructor; [|done].
    by apply (nAoX_positive a (PyInt n)). }
  assert (length ns = length Atoms) as Hlen by (symmetry; by eapply Forall2_length).
  set (offs := 0 :: running_sums_Z 0 ns).
  assert (PyInt 0 :: running_sums (PyInt 0) (PyInt <$> ns) = PyInt <$> offs) as Hoffs_eq.
  { unfold offs. by rewrite running_sums_int. }
  assert (length (PyInt <$> offs) = S (length Atoms)) as Hoffs.
  { rewrite <- Hoffs_eq. simpl. by rewrite running_sums_length, length_fmap, Hlen. }
  destruct (atom_slices_loop (PyInt <$> offs) (length Atoms) 0 [])
    as (slices & Hsl & Hsll & Hslk); [lia|].
  destruct (last offs) as [total|] eqn:Hlast; cycle 1.
  { apply last_None in Hlast. done. }
  exists offs, atom_table, slices, total.
  split; [rewrite <- Hoffs_eq; by apply MakeAtomIbOffsets_spec|]. split; [exact Hsl|].
  split; [done|]. split; [done|].
  split; [by rewrite length_fmap in Hoffs|]. split; [done|]. split.
  - intros k a Hk.
    destruct (Forall2_lookup_l _ _ _ _ _ Hns Hk) as (n & Hn & Han).
    destruct (running_sums_lookup (PyInt 0) (PyInt <$> ns) k (PyInt n))
      as (o & o' & Ho & Ho' & ->).
    { by rewrite list_lookup_fmap, Hn. }
    rewrite Hoffs_eq in Ho, Ho'.
    destruct (lookup_fmap_PyInt _ _ _ Ho) as (z & -> & Hz).
    destruct (lookup_fmap_PyInt _ _ _ Ho') as (z' & Hz'eq & Hz').
    cbn [py_add] in Hz'eq. injection Hz'eq as <-.
    exists n, z. split; [done|]. split; [done|]. split; [done|].
    apply Hslk; [by apply lookup_lt_Some in Hk|done..].
  - intros x Hx.
    assert (last (PyInt 0 :: running_sums (PyInt 0) (PyInt <$> ns)) = Some (PyInt total))
      as Hlast'.
    { by rewrite Hoffs_eq, fmap_last, Hlast. }
    destruct (running_sums_cover (PyInt 0) (PyInt total) (PyInt <$> ns) x Hpos Hlast' Hx)
      as (k & (a & b & Ha & Hb & Hab) & Huniq).
    rewrite Hoffs_eq in Ha, Hb.
    assert (∀ k' sl, slices !! k' = Some sl →
              ∃ a' b' : Z, (PyInt <$> offs) !! k' = Some (PyInt a')
                            ∧ (PyInt <$> offs) !! S k' = Some (PyInt b')
                            ∧ sl = int_slice a' b')
      as Hinv.
    { intros k' sl Hk'. pose proof (lookup_lt_Some _ _ _ Hk') as Hlt.
      destruct (lookup_lt_is_Some_2 (PyInt <$> offs) k') as [a' Ha']; [lia|].
      destruct (lookup_lt_is_Some_2 (PyInt <$> offs) (S k')) as [b' Hb']; [lia|].
      destruct (lookup_fmap_PyInt _ _ _ Ha') as (za & -> & _).
      destruct (lookup_fmap_PyInt _ _ _ Hb') as (zb & -> & _).
      exists za, zb. split; [done|]. split; [done|].
      specialize (Hslk k' (PyInt za) (PyInt zb)).
      rewrite Hslk in Hk'; [by simplify_eq|lia|done..]. }
    destruct (lookup_fmap_PyInt _ _ _ Ha) as (za & -> & _).
    destruct (lookup_fmap_PyInt _ _ _ Hb) as (zb & -> & _).
    exists k. split.
    + exists (int_slice za zb). split; [|exact Hab]. apply Hslk; [|done..].
      assert (S k < length (PyInt <$> offs))%nat by (eapply lookup_lt_Some; exact Hb).
      lia.
    + intros k' (sl & Hk' & Hin'). destruct (Hinv k' sl Hk') as (a' & b' & Ha' & Hb' & ->).
      apply Huniq. exists (PyInt a'), (PyInt b'). by rewrite Hoffs_eq.
Qed.

Lemma integer_offsets_partition_witness :
  ∃ (offs : list Z) (infos : atom_infos) (slices : list pyslice) (total : Z),
    MakeAtomIbOffsets ["H"; "F"; "Na"] = Ok (PyInt <$> offs, infos)
    ∧ atom_slices (PyInt <$> offs) 3 = Ok slices
    ∧ offs !! 0%nat = Some 0
    ∧ last offs = Some total
    ∧ length offs = 4%nat
    ∧ length slices = 3%nat
    ∧ (∀ (k : nat) (a : string), ["H"; "F"; "Na"] !! k = Some a →
         ∃ n o : Z,
           nAoX infos !! a = Some (PyInt n)
           ∧ offs !! k = Some o ∧ offs !! S k = Some (o + n)
           ∧ slices !! k = Some (int_slice o (o + n)))
    ∧ (∀ x : Z, 0 <= x < total →
         exists! k : nat, ∃ sl : pyslice, slices !! k = Some sl ∧ in_slice sl x).
Proof.
  apply (integer_offsets_partition ["H"; "F"; "Na"]).
  constructor; [exists 1; vm_compute; reflexivity|].
  constructor; [exists 5; vm_compute; reflexivity|].
  constructor; [exists 6; vm_compute; reflexivity|]. constructor.
Defined.

(** ** Scalars *)

(** The arithmetic that [ibo_loc] performs on array elements, named after
    the Python expressions.  The statements below about ordering and data
    flow hold for every such structure. *)
Class Arith (F : Type) : Type := {
  fzero : F;                    (* [0.0] *)
  fquarter : F;                 (* [0.25] *)
  swapGradTolerance : F;        (* [1e-12] *)
  of_int : Z -> F;              (* an [int] operand promoted to a float: [4.], [6] *)
  fadd : F -> F -> F;
  fsub : F -> F -> F;
  fmul : F -> F -> F;
  fneg : F -> F;
  pow_int : F -> Z -> F;        (* [x ** n] for an integer [n] *)
  pow_half : F -> F;            (* [x ** 0.5] *)
  flt : F -> F -> bool          (* [x < y] *)
}.

(** [numpy.arctan2], [numpy.cos] and [numpy.sin]. *)
Class Libm (F : Type) : Type := {
  arctan2 : F -> F -> F;
  np_cos : F -> F;
  np_sin : F -> F
}.

Declare Scope scalar_scope.
Delimit Scope scalar_scope with F.
Notation "x + y" := (fadd x y) : scalar_scope.
Notation "x - y" := (fsub x y) : scalar_scope.
Notation "x * y" := (fmul x y) : scalar_scope.
Notation "- x" := (fneg x) : scalar_scope.
Notation "x ** n" := (pow_int x n) (at level 30, right associativity) : scalar_scope.

(** ** Arrays *)

(** A 2-D array is held column by column: [CIb[:, i]] is the [i]-th element
    of the list and [CIb.shape[1]] its length.  A 1-D array is a list. *)
Abbreviation ndarray F := (list (list F)) (only parsing).

Section Arrays.
Context {F : Type} `{Arith F}.

(** The bound of a slice over a sequence of length [n], as Python resolves
    it: a negative bound counts from the end, and both are clamped. *)
Definition slice_bound (n b : Z) : Z :=
  if b <? 0 then Z.max (b + n) 0 else Z.min b n.

Definition slice_list {A : Type} (a b : Z) (v : list A) : list A :=
  let n := Z.of_nat (length v) in
  let a' := slice_bound n a in
  let b' := slice_bound n b in
  take (Z.to_nat (b' - a')) (drop (Z.to_nat a') v).

(** numpy accepts only integers as slice bounds. *)
Definition slice_indices (sl : pyslice) : result (Z * Z) :=
  match sl_start sl, sl_stop sl with
  | PyInt a, PyInt b => Ok (a, b)
  | _, _ => Raise TypeError
  end.

(** [M[sl, :]] *)
Definition slice_rows (sl : pyslice) (M : ndarray F) : result (ndarray F) :=
  '(a, b) ← slice_indices sl; Ok (slice_list a b <$> M).

(** [M[:, i]] *)
Definition column (M : ndarray F) (i : nat) : result (list F) :=
  match M !! i with
  | Some c => Ok c
  | None => Raise IndexError
  end.

(** [l[k]] on a Python list. *)
Definition index {A : Type} (l : list A) (k : nat) : result A :=
  match l !! k with
  | Some x => Ok x
  | None => Raise IndexError
  end.

(** [numpy.dot(u, v)] on two 1-D arrays, summed from the first element.
    (numpy leaves the order of the additions to its BLAS; with rounding the
    last bit of the sum may depend on it.) *)
Definition vdot (u v : list F) : F :=
  foldl (fun acc xy => (acc + xy.1 * xy.2)%F) fzero (zip u v).

(** [c * v] and [u + v] on 1-D arrays. *)
Definition vscale (c : F) (v : list F) : list F := fmul c <$> v.
Definition vadd (u v : list F) : list F := zip_with fadd u v.

(** The contribution of one atom to [Aij] and [Bij]; the [else] branch of
    the code is taken by every exponent other than 2. *)
Definition accumulate (exponent : Z) (Cii Cij Cjj : F) (AB : F * F) : F * F :=
  let '(Aij, Bij) := AB in
  if exponent =? 2 then
    let Aij := (Aij + (of_int 4 * Cij ** 2 - (Cii - Cjj) ** 2))%F in
    let Bij := (Bij + of_int 4 * Cij * (Cii - Cjj))%F in
    (Aij, Bij)
  else
    let Bij := (Bij + of_int 4 * Cij * (Cii ** 3 - Cjj ** 3))%F in
    let Aij := (Aij + (- Cii ** 4 - Cjj ** 4
                       + of_int 6 * (Cii ** 2 + Cjj ** 2) * Cij ** 2
                       + Cii ** 3 * Cjj + Cii * Cjj ** 3))%F in
    (Aij, Bij).

(** The loop over the atoms for the pair [(i, j)]. *)
Definition pair_coefficients (exponent : Z) (iAtSl : list pyslice) (nAtoms : nat)
    (CIb : ndarray F) (i j : nat) : result (F * F) :=
  for_each
    (fun k AB =>
       sl ← index iAtSl k;
       CIbA ← slice_rows sl CIb;
       CIbA_i ← column CIbA i;
       CIbA_j ← column CIbA j;
       let Cii := vdot CIbA_i CIbA_i in
       let Cij := vdot CIbA_i CIbA_j in
       let Cjj := vdot CIbA_j CIbA_j in
       Ok (accumulate exponent Cii Cij Cjj AB))
    (seq 0 nAtoms) (fzero, fzero).

(** The value [L] of the localization functional, computed at the start of
    every iteration for the debug line. *)
Definition localization_functional (exponent : Z) (iAtSl : list pyslice)
    (nAtoms numOccOrbitals : nat) (CIb : ndarray F) : result F :=
  for_each
    (fun A L =>
       for_each
         (fun i L =>
            sl ← index iAtSl A;
            CIbA ← slice_rows sl CIb;
            CAi ← column CIbA i;
            Ok (L + vdot CAi CAi ** exponent)%F)
         (seq 0 numOccOrbitals) L)
    (seq 0 nAtoms) fzero.

End Arrays.

(** ** Mutable state *)

(** Code that updates a state [S] in place and may raise: an exception
    leaves the updates made so far. *)
Definition stM (S A : Type) : Type := S -> S * result A.

#[global] Instance stM_ret {S} : MRet (stM S) := fun A a σ => (σ, Ok a).
#[global] Instance stM_bind {S} : MBind (stM S) :=
  fun A B k m σ =>
    match m σ with
    | (σ', Ok a) => k a σ'
    | (σ', Raise e) => (σ', Raise e)
    end.

Definition st_get {S} : stM S S := fun σ => (σ, Ok σ).
Definition st_lift {S A} (r : result A) : stM S A := fun σ => (σ, r).

Fixpoint st_for_each {S A B : Type} (body : A -> B -> stM S B) (l : list A) (b : B)
  : stM S B :=
  match l with
  | [] => mret b
  | x :: l' => b' ← body x b; st_for_each body l' b'
  end.

(** ** One Jacobi sweep, in place on [CIb] *)

Section Sweep.
Context {F : Type} `{Arith F} `{Libm F}.

(** [M[:, i] = v] *)
Definition set_column (i : nat) (v : list F) : stM (ndarray F) unit :=
  fun M => if bool_decide (i < length M)%nat then (<[i := v]> M, Ok tt)
           else (M, Raise IndexError).

(** [numpy.array(M[:, i], copy=True)] *)
Definition copy_column (i : nat) : stM (ndarray F) (list F) :=
  fun M => (M, column M i).

(** The body of the pair loop at [(i, j)]: the coefficients, the test
    against [swapGradTolerance], and the rotation of the two columns. *)
Definition rotate_pair (exponent : Z) (iAtSl : list pyslice) (nAtoms : nat)
    (i j : nat) (fGrad : F) : stM (ndarray F) F :=
  CIb ← st_get;
  AB ← st_lift (pair_coefficients exponent iAtSl nAtoms CIb i j);
  let '(Aij, Bij) := AB in
  if flt (Aij ** 2 + Bij ** 2)%F swapGradTolerance then mret fGrad
  else
    let phi := (fquarter * arctan2 Bij (- Aij))%F in
    let fGrad := (fGrad + Bij ** 2)%F in
    let cs := np_cos phi in
    let ss := np_sin phi in
    Ci ← copy_column i;
    Cj ← copy_column j;
    _ ← set_column i (vadd (vscale cs Ci) (vscale ss Cj));
    _ ← set_column j (vadd (vscale (- ss)%F Ci) (vscale cs Cj));
    mret fGrad.

(** The two nested loops over the pairs; [fGrad] starts the sweep at 0. *)
Definition sweep (exponent : Z) (iAtSl : list pyslice) (nAtoms numOccOrbitals : nat)
  : stM (ndarray F) F :=
  st_for_each
    (fun i fGrad =>
       st_for_each (fun j fGrad => rotate_pair exponent iAtSl nAtoms i j fGrad)
         (seq 0 i) fGrad)
    (seq 0 numOccOrbitals) fzero.

(** One iteration of the outer loop: [L], the sweep, and the gradient norm
    [fGrad ** 0.5]. *)
Definition iteration (exponent : Z) (iAtSl : list pyslice) (nAtoms numOccOrbitals : nat)
  : stM (ndarray F) (F * F) :=
  CIb ← st_get;
  L ← st_lift (localization_functional exponent iAtSl nAtoms numOccOrbitals CIb);
  fGrad ← sweep exponent iAtSl nAtoms numOccOrbitals;
  mret (L, pow_half fGrad).

End Sweep.

(** ** The sweep, as the specification words it *)

Section SweepSpec.
Context {F : Type} `{Arith F} `{Libm F}.

(** The pairs [(i, j)] with [j < i < n]: [i] ascending from 0 and, for each
    [i], [j] ascending from 0 to [i - 1]. *)
Definition lower_triangular (n : nat) : list (nat * nat) :=
  i ← seq 0 n; pair i <$> seq 0 i.

(** The term that one atom adds to [Aij], from the three products of the
    two columns restricted to the atom. *)
Definition A_term (p : Z) (Cii Cij Cjj : F) : F :=
  if p =? 2 then (of_int 4 * Cij ** 2 - (Cii - Cjj) ** 2)%F
  else if p =? 4 then
    (- Cii ** 4 - Cjj ** 4 + of_int 6 * (Cii ** 2 + Cjj ** 2) * Cij ** 2
     + Cii ** 3 * Cjj + Cii * Cjj ** 3)%F
  else fzero.

Definition B_term (p : Z) (Cii Cij Cjj : F) : F :=
  if p =? 2 then (of_int 4 * Cij * (Cii - Cjj))%F
  else if p =? 4 then (of_int 4 * Cij * (Cii ** 3 - Cjj ** 3))%F
  else fzero.

(** The three products on the atom whose rows are [[a, b)]. *)
Definition atom_products (ci cj : list F) (ab : Z * Z) : F * F * F :=
  let ci_A := slice_list ab.1 ab.2 ci in
  let cj_A := slice_list ab.1 ab.2 cj in
  (vdot ci_A ci_A, vdot ci_A cj_A, vdot cj_A cj_A).

(** A sum over the atoms, taken in their order. *)
Definition sum_over_atoms (term : F * F * F -> F) (ci cj : list F)
    (atoms : list (Z * Z)) : F :=
  foldl fadd fzero ((fun ab => term (atom_products ci cj ab)) <$> atoms).

Definition Aij_of (p : Z) (atoms : list (Z * Z)) (ci cj : list F) : F :=
  sum_over_atoms (fun '(Cii, Cij, Cjj) => A_term p Cii Cij Cjj) ci cj atoms.

Definition Bij_of (p : Z) (atoms : list (Z * Z)) (ci cj : list F) : F :=
  sum_over_atoms (fun '(Cii, Cij, Cjj) => B_term p Cii Cij Cjj) ci cj atoms.

(** The two columns after the rotation by [phi], element by element. *)
Definition rotated_i (phi : F) (ci cj : list F) : list F :=
  zip_with (fun x y => (np_cos phi * x + np_sin phi * y)%F) ci cj.
Definition rotated_j (phi : F) (ci cj : list F) : list F :=
  zip_with (fun x y => (- np_sin phi * x + np_cos phi * y)%F) ci cj.

(** What the pair [(i, j)] does to the matrix and to [fGrad]: nothing when
    [Aij^2 + Bij^2] is below the tolerance; otherwise columns [i] and [j]
    are replaced by their rotation and [Bij^2] is added to [fGrad]. *)
Definition pair_update (p : Z) (atoms : list (Z * Z)) (st : ndarray F * F)
    (ij : nat * nat) : ndarray F * F :=
  let '(CIb, fGrad) := st in
  let '(i, j) := ij in
  let ci := default [] (CIb !! i) in
  let cj := default [] (CIb !! j) in
  let Aij := Aij_of p atoms ci cj in
  let Bij := Bij_of p atoms ci cj in
  if flt (Aij ** 2 + Bij ** 2)%F swapGradTolerance then (CIb, fGrad)
  else
    let phi := (fquarter * arctan2 Bij (- Aij))%F in
    (imap (fun k c => if bool_decide (k = i) then rotated_i phi ci cj
                      else if bool_decide (k = j) then rotated_j phi ci cj
                      else c) CIb,
     (fGrad + Bij ** 2)%F).

End SweepSpec.

(** ** The sweep meets its specification *)

Lemma for_each_index {A B : Type} (f : A -> B -> result B) (l1 l2 : list A) (st : B) :
  for_each (fun k acc => sl ← index (l1 ++ l2) k; f sl acc)
    (seq (length l1) (length l2)) st
  = for_each f l2 st.
Proof.
  revert l1 st. induction l2 as [|x l2 IH]; intros l1 st; [done|].
  cbn [for_each seq length].
  assert (index (l1 ++ x :: l2) (length l1) = Ok x) as ->.
  { unfold index. by rewrite list_lookup_middle. }
  change (sl ← Ok x; f sl st) with (f x st).
  destruct (f x st) as [st'|e]; [|done].
  change (st'0 ← Ok st'; for_each (λ k acc, sl ← index (l1 ++ x :: l2) k; f sl acc)
            (seq (S (length l1)) (length l2)) st'0)
    with (for_each (λ k acc, sl ← index (l1 ++ x :: l2) k; f sl acc)
            (seq (S (length l1)) (length l2)) st').
  specialize (IH (l1 ++ [x]) st').
  rewrite <- app_assoc, length_app in IH. simpl in IH.
  by rewrite Nat.add_1_r in IH.
Qed.

Lemma lower_triangular_spec (n i j : nat) :
  (i, j) ∈ lower_triangular n ↔ (j < i < n)%nat.
Proof.
  unfold lower_triangular. rewrite list_elem_of_bind. split.
  - intros (i' & Hj & Hi). apply list_elem_of_fmap in Hj as (j' & [= -> ->] & Hj).
    apply elem_of_seq in Hi, Hj. lia.
  - intros Hij. exists i. split; [|apply elem_of_seq; lia].
    apply list_elem_of_fmap. exists j. split; [done|]. apply elem_of_seq. lia.
Qed.

Section SweepProofs.
Context {F : Type} `{Arith F} `{Libm F}.

Definition slice_of (ab : Z * Z) : pyslice := int_slice ab.1 ab.2.

Lemma bind_Ok {A B : Type} (a : A) (k : A -> result B) : (Ok a ≫= k) = k a.
Proof. done. Qed.

Lemma slice_rows_int (ab : Z * Z) (M : ndarray F) :
  slice_rows (slice_of ab) M = Ok (slice_list ab.1 ab.2 <$> M).
Proof. done. Qed.

Lemma column_fmap (f : list F -> list F) (M : ndarray F) (i : nat) (c : list F) :
  M !! i = Some c → column (f <$> M) i = Ok (f c).
Proof. intros Hc. unfold column. by rewrite list_lookup_fmap, Hc. Qed.

Lemma accumulate_terms (p : Z) (Cii Cij Cjj A B : F) :
  p = 2 ∨ p = 4 →
  accumulate p Cii Cij Cjj (A, B)
  = ((A + A_term p Cii Cij Cjj)%F, (B + B_term p Cii Cij Cjj)%F).
Proof. by intros [-> | ->]. Qed.

Lemma pair_coefficients_loop (p : Z) (atoms : list (Z * Z)) (CIb : ndarray F)
    (i j : nat) (ci cj : list F) (A B : F) :
  p = 2 ∨ p = 4 →
  CIb !! i = Some ci → CIb !! j = Some cj →
  for_each
    (fun sl AB =>
       CIbA ← slice_rows sl CIb;
       CIbA_i ← column CIbA i;
       CIbA_j ← column CIbA j;
       Ok (accumulate p (vdot CIbA_i CIbA_i) (vdot CIbA_i CIbA_j)
             (vdot CIbA_j CIbA_j) AB))
    (slice_of <$> atoms) (A, B)
  = Ok (foldl fadd A ((fun ab => (fun '(Cii, Cij, Cjj) => A_term p Cii Cij Cjj)
                                   (atom_products ci cj ab)) <$> atoms),
        foldl fadd B ((fun ab => (fun '(Cii, Cij, Cjj) => B_term p Cii Cij Cjj)
                                   (atom_products ci cj ab)) <$> atoms)).
Proof.
  intros Hp Hi Hj. revert A B.
  induction atoms as [|[a b] atoms IH]; intros A B; [done|].
  cbn [fmap list_fmap for_each].
  rewrite slice_rows_int, bind_Ok. cbv beta.
  rewrite (column_fmap _ _ i ci), bind_Ok by done. cbv beta.
  rewrite (column_fmap _ _ j cj), bind_Ok by done. cbv beta.
  rewrite bind_Ok, accumulate_terms by done. apply IH.
Qed.

Lemma pair_coefficients_spec (p : Z) (atoms : list (Z * Z)) (CIb : ndarray F)
    (i j : nat) (ci cj : list F) :
  p = 2 ∨ p = 4 →
  CIb !! i = Some ci → CIb !! j = Some cj →
  pair_coefficients p (slice_of <$> atoms) (length atoms) CIb i j
  = Ok (Aij_of p atoms ci cj, Bij_of p atoms ci cj).
Proof.
  intros Hp Hi Hj. unfold pair_coefficients.
  pose proof (for_each_index
    (fun sl AB =>
       CIbA ← slice_rows sl CIb;
       CIbA_i ← column CIbA i;
       CIbA_j ← column CIbA j;
       Ok (accumulate p (vdot CIbA_i CIbA_i) (vdot CIbA_i CIbA_j)
             (vdot CIbA_j CIbA_j) AB))
    [] (slice_of <$> atoms) (fzero, fzero)) as Hidx.
  rewrite length_fmap in Hidx. simpl in Hidx. rewrite Hidx.
  by apply pair_coefficients_loop.
Qed.

Lemma rotation_columns (phi : F) (ci cj : list F) :
  vadd (vscale (np_cos phi) ci) (vscale (np_sin phi) cj) = rotated_i phi ci cj
  ∧ vadd (vscale (- np_sin phi)%F ci) (vscale (np_cos phi) cj) = rotated_j phi ci cj.
Proof.
  unfold vadd, vscale, rotated_i, rotated_j.
  split; revert cj; induction ci as [|x ci IH]; intros [|y cj]; simpl; f_equal; auto.
Qed.

Lemma insert_two_columns (M : ndarray F) (i j : nat) (vi vj : list F) :
  (j < i < length M)%nat →
  <[j := vj]> (<[i := vi]> M)
  = imap (fun k c => if bool_decide (k = i) then vi
                     else if bool_decide (k = j) then vj else c) M.
Proof.
  intros Hij. apply list_eq. intros k. rewrite list_lookup_imap.
  destruct (decide (k = j)) as [-> | Hkj].
  - rewrite list_lookup_insert_eq by (rewrite length_insert; lia).
    destruct (lookup_lt_is_Some_2 M j) as [c ->]; [lia|]. simpl.
    rewrite bool_decide_false by lia. by rewrite bool_decide_true.
  - rewrite list_lookup_insert_ne by done.
    destruct (decide (k = i)) as [-> | Hki].
    + rewrite list_lookup_insert_eq by lia.
      destruct (lookup_lt_is_Some_2 M i) as [c ->]; [lia|]. simpl.
      by rewrite bool_decide_true.
    + rewrite list_lookup_insert_ne by done.
      destruct (M !! k) as [c|]; [|done]. simpl.
      by rewrite !bool_decide_false.
Qed.

Lemma rotate_pair_spec (p : Z) (atoms : list (Z * Z)) (CIb : ndarray F)
    (i j : nat) (fGrad : F) :
  p = 2 ∨ p = 4 → (j < i < length CIb)%nat →
  rotate_pair p (slice_of <$> atoms) (length atoms) i j fGrad CIb
  = ((pair_update p atoms (CIb, fGrad) (i, j)).1,
     Ok (pair_update p atoms (CIb, fGrad) (i, j)).2).
Proof.
  intros Hp Hij.
  destruct (lookup_lt_is_Some_2 CIb i) as [ci Hci]; [lia|].
  destruct (lookup_lt_is_Some_2 CIb j) as [cj Hcj]; [lia|].
  cbv [rotate_pair pair_update mbind stM_bind st_get st_lift mret stM_ret].
  rewrite (pair_coefficients_spec p atoms CIb i j ci cj) by done.
  rewrite Hci, Hcj. cbn [default].
  destruct (flt _ _); [done|].
  cbv [copy_column set_column column]. rewrite Hci, Hcj.
  rewrite bool_decide_true by lia.
  rewrite bool_decide_true by (rewrite length_insert; lia).
  cbn [fst snd]. f_equal.
  destruct (rotation_columns (fquarter * arctan2 (Bij_of p atoms ci cj)
                                (- Aij_of p atoms ci cj))%F ci cj) as [-> ->].
  by apply insert_two_columns.
Qed.

Lemma pair_update_length (p : Z) (atoms : list (Z * Z)) (st : ndarray F * F)
    (ij : nat * nat) :
  length (pair_update p atoms st ij).1 = length st.1.
Proof.
  destruct st as [M g], ij as [i j]. unfold pair_update.
  destruct (flt _ _); [done|]. simpl. by rewrite length_imap.
Qed.

Lemma inner_loop_spec (p : Z) (atoms : list (Z * Z)) (i : nat) (js : list nat)
    (CIb : ndarray F) (fGrad : F) :
  p = 2 ∨ p = 4 → (i < length CIb)%nat → Forall (fun j => (j < i)%nat) js →
  st_for_each
    (fun j fGrad => rotate_pair p (slice_of <$> atoms) (length atoms) i j fGrad)
    js fGrad CIb
  = ((foldl (pair_update p atoms) (CIb, fGrad) (pair i <$> js)).1,
     Ok (foldl (pair_update p atoms) (CIb, fGrad) (pair i <$> js)).2).
Proof.
  intros Hp Hi Hjs. revert CIb fGrad Hi.
  induction Hjs as [|j js Hj _ IH]; intros CIb fGrad Hi; [done|].
  cbn [st_for_each fmap list_fmap foldl].
  unfold mbind, stM_bind. rewrite rotate_pair_spec by (done || lia).
  pose proof (pair_update_length p atoms (CIb, fGrad) (i, j)) as Hlen.
  destruct (pair_update p atoms (CIb, fGrad) (i, j)) as [CIb' fGrad'].
  simpl in Hlen. cbn [fst snd]. apply IH. lia.
Qed.

Lemma foldl_pair_update_length (p : Z) (atoms : list (Z * Z)) (st : ndarray F * F)
    (ijs : list (nat * nat)) :
  length (foldl (pair_update p atoms) st ijs).1 = length st.1.
Proof.
  revert st. induction ijs as [|ij ijs IH]; intros st; [done|].
  simpl. by rewrite IH, pair_update_length.
Qed.

Lemma outer_loop_spec (p : Z) (atoms : list (Z * Z)) (rows : list nat)
    (CIb : ndarray F) (fGrad : F) :
  p = 2 ∨ p = 4 → Forall (fun i => (i < length CIb)%nat) rows →
  st_for_each
    (fun i fGrad =>
       st_for_each
         (fun j fGrad => rotate_pair p (slice_of <$> atoms) (length atoms) i j fGrad)
         (seq 0 i) fGrad)
    rows fGrad CIb
  = ((foldl (pair_update p atoms) (CIb, fGrad) (i ← rows; pair i <$> seq 0 i)).1,
     Ok (foldl (pair_update p atoms) (CIb, fGrad) (i ← rows; pair i <$> seq 0 i)).2).
Proof.
  intros Hp Hrows. revert CIb fGrad Hrows.
  induction rows as [|i rows IH]; intros CIb fGrad Hrows; [done|].
  apply Forall_cons in Hrows as [Hi Hrows].
  cbn [st_for_each]. rewrite bind_cons, foldl_app.
  unfold mbind at 1, stM_bind.
  rewrite inner_loop_spec; [|done|done|].
  2:{ apply Forall_forall. intros j Hj. apply elem_of_seq in Hj. lia. }
  pose proof (foldl_pair_update_length p atoms (CIb, fGrad) (pair i <$> seq 0 i)) as Hlen.
  destruct (foldl (pair_update p atoms) (CIb, fGrad) (pair i <$> seq 0 i))
    as [CIb' fGrad'].
  simpl in Hlen. cbn [fst snd]. apply IH. by rewrite Hlen.
Qed.

Lemma sweep_fold (p : Z) (atoms : list (Z * Z)) (CIb : ndarray F) :
  p = 2 ∨ p = 4 →
  sweep p (slice_of <$> atoms) (length atoms) (length CIb) CIb
  = ((foldl (pair_update p atoms) (CIb, fzero) (lower_triangular (length CIb))).1,
     Ok (foldl (pair_update p atoms) (CIb, fzero) (lower_triangular (length CIb))).2).
Proof.
  intros Hp. unfold sweep, lower_triangular.
  apply outer_loop_spec; [done|].
  apply Forall_forall. intros i Hi. apply elem_of_seq in Hi. lia.
Qed.

(** C1.  One sweep over a matrix with [length CIb] columns and atoms given
    by integer row ranges is the left-to-right fold of [pair_update] over
    the pairs in lower-triangular order: each pair reads the matrix that the
    earlier pairs left, accumulates [Aij] and [Bij] over the atoms with the
    quadratic (p = 2) or quartic (p = 4) terms, and, unless skipped, rotates
    columns [i] and [j] by [0.25 * arctan2 Bij (- Aij)] and adds [Bij^2] to
    [fGrad]. *)
Theorem sweep_lower_triangular_order (p : Z) (atoms : list (Z * Z)) (CIb : ndarray F) :
  p = 2 ∨ p = 4 →
  sweep p (slice_of <$> atoms) (length atoms) (length CIb) CIb
  = ((foldl (pair_update p atoms) (CIb, fzero) (lower_triangular (length CIb))).1,
     Ok (foldl (pair_update p atoms) (CIb, fzero) (lower_triangular (length CIb))).2).
Proof. apply sweep_fold. Qed.

End SweepProofs.

(** ** Two scalar structures *)

(** IEEE 754 binary64, the element type of the arrays at run time.  Integer
    powers are taken by repeated multiplication, a stand-in for the C
    function [pow] that numpy calls: the two agree wherever the products are
    exact, as on the values evaluated below, and may differ in the last bit
    elsewhere. *)
Module Binary64.

Definition from_Z (z : Z) : float :=
  if (z <? 0)%Z then PrimFloat.opp (PrimFloat.of_uint63 (Uint63.of_Z (- z)))
  else PrimFloat.of_uint63 (Uint63.of_Z z).

Fixpoint pow_nat (x : float) (n : nat) : float :=
  match n with
  | O => 1%float
  | S O => x
  | S n' => PrimFloat.mul (pow_nat x n') x
  end.

Definition power (x : float) (n : Z) : float :=
  if (n <? 0)%Z then PrimFloat.div 1%float (pow_nat x (Z.to_nat (- n)))
  else pow_nat x (Z.to_nat n).

#[global] Instance arith : Arith float := {|
  fzero := 0%float;
  fquarter := 0.25%float;
  swapGradTolerance := 0x1.19799812dea11p-40%float;   (* the double nearest to 1e-12 *)
  of_int := from_Z;
  fadd := PrimFloat.add;
  fsub := PrimFloat.sub;
  fmul := PrimFloat.mul;
  fneg := PrimFloat.opp;
  pow_int := power;
  pow_half := PrimFloat.sqrt;
  flt := PrimFloat.ltb
|}.

End Binary64.

(** Exact rational arithmetic on reduced fractions.  The square root and the
    three libm functions are replaced by rational stand-ins that agree with
    them at 0 (and at angle 0). *)
Module Rational.

Definition sqrt (x : Q) : Q :=
  Qred (Z.sqrt (Qnum x * Zpos (Qden x)) # Qden x).

Definition lt (x y : Q) : bool := negb (Qle_bool y x).

#[global] Instance arith : Arith Q := {|
  fzero := 0%Q;
  fquarter := (1 # 4)%Q;
  swapGradTolerance := (1 # 1000000000000)%Q;
  of_int := inject_Z;
  fadd := fun x y => Qred (x + y)%Q;
  fsub := fun x y => Qred (x - y)%Q;
  fmul := fun x y => Qred (x * y)%Q;
  fneg := fun x => Qred (- x)%Q;
  pow_int := fun x n => Qred (x ^ n)%Q;
  pow_half := sqrt;
  flt := lt
|}.

#[global] Instance libm : Libm Q := {|
  arctan2 := fun y x =>
    if lt 0 x then Qred (y / x)%Q
    else if lt y 0 then (- 3)%Q else if lt 0 y then 3%Q
    else if lt x 0 then 3%Q else 0%Q;
  np_cos := fun phi => Qred (1 - phi * phi / 2)%Q;
  np_sin := fun phi => phi
|}.

End Rational.

(** ** Columns localized on disjoint atoms *)

(** What the argument below needs to know of a scalar: whether it is a zero
    (of either sign), a finite number above or below zero, an infinity, or
    not a number.  Exact arithmetic has the first three kinds only. *)
Inductive kind : Type :=
| Zero | Positive | Negative | PlusInf | MinusInf | NotANumber.

Definition kind_eqb (a b : kind) : bool :=
  match a, b with
  | Zero, Zero | Positive, Positive | Negative, Negative
  | PlusInf, PlusInf | MinusInf, MinusInf | NotANumber, NotANumber => true
  | _, _ => false
  end.

Definition finite (k : kind) : bool :=
  match k with Zero | Positive | Negative => true | _ => false end.
Definition nonneg (k : kind) : bool :=
  match k with Zero | Positive | PlusInf => true | _ => false end.
Definition nonpos (k : kind) : bool :=
  match k with Zero | Negative | MinusInf => true | _ => false end.
Definition below_zero (k : kind) : bool :=
  match k with Negative | MinusInf => true | _ => false end.

(** The kind of [- x]. *)
Definition neg_kind (k : kind) : kind :=
  match k with
  | Zero => Zero | Positive => Negative | Negative => Positive
  | PlusInf => MinusInf | MinusInf => PlusInf | NotANumber => NotANumber
  end.

(** [mul_ok a b c]: a product of operands of kinds [a] and [b] may be of
    kind [c].  A zero times an infinity is not a number; a zero times a
    finite number is a zero; otherwise the sign is the product of the signs,
    and the product of two finite numbers may underflow to a zero or
    overflow to an infinity. *)
Definition mul_ok (a b c : kind) : bool :=
  match a, b with
  | NotANumber, _ | _, NotANumber => kind_eqb c NotANumber
  | Zero, (PlusInf | MinusInf) | (PlusInf | MinusInf), Zero => kind_eqb c NotANumber
  | Zero, _ | _, Zero => kind_eqb c Zero
  | _, _ =>
      (if xorb (below_zero a) (below_zero b) then nonpos c else nonneg c)
      && (finite a && finite b || negb (finite c))
  end.

(** [add_ok a b c]: the same for a sum.  Infinities of opposite signs give
    no number; a zero leaves the kind of the other operand; two numbers of
    the same sign give a number of that sign, a zero (underflow) or the
    infinity of that sign; two finite numbers of opposite signs give a
    number. *)
Definition add_ok (a b c : kind) : bool :=
  match a, b with
  | NotANumber, _ | _, NotANumber => kind_eqb c NotANumber
  | PlusInf, MinusInf | MinusInf, PlusInf => kind_eqb c NotANumber
  | PlusInf, _ | _, PlusInf => kind_eqb c PlusInf
  | MinusInf, _ | _, MinusInf => kind_eqb c MinusInf
  | Zero, k | k, Zero => kind_eqb c k
  | Positive, Positive => nonneg c
  | Negative, Negative => nonpos c
  | _, _ => negb (kind_eqb c NotANumber)
  end.

(** [pow_ok n a c]: the power [x ** n], [n > 0], of a number of kind [a] may
    be of kind [c]. *)
Definition pow_ok (n : Z) (a c : kind) : bool :=
  match a with
  | Zero => kind_eqb c Zero
  | NotANumber => kind_eqb c NotANumber
  | Positive | PlusInf => nonneg c
  | Negative | MinusInf => if Z.even n then nonneg c else nonpos c
  end.

(** A scalar structure whose operations respect the kinds as IEEE 754
    arithmetic does.  [same x y] is [x == y]: on binary64 the two zeros are
    the same number. *)
Class Ieee (F : Type) `{Arith F} : Type := {
  kind_of : F -> kind;
  same : F -> F -> Prop;
  same_refl : ∀ x : F, same x x;
  same_kind : ∀ x y : F, same x y → kind_of x = kind_of y;
  kind_zero : kind_of fzero = Zero;
  kind_quarter : finite (kind_of fquarter) = true;
  kind_tolerance : kind_of swapGradTolerance = Positive;
  kind_of_int : ∀ n : Z, 0 < n <= 6 → kind_of (of_int n) = Positive;
  kind_mul : ∀ x y : F, mul_ok (kind_of x) (kind_of y) (kind_of (x * y)%F) = true;
  kind_add : ∀ x y : F, add_ok (kind_of x) (kind_of y) (kind_of (x + y)%F) = true;
  kind_sub : ∀ x y : F,
    add_ok (kind_of x) (neg_kind (kind_of y)) (kind_of (x - y)%F) = true;
  kind_neg : ∀ x : F, kind_of (- x)%F = neg_kind (kind_of x);
  kind_pow : ∀ (x : F) (n : Z),
    2 <= n <= 4 → pow_ok n (kind_of x) (kind_of (x ** n)%F) = true;
  kind_pow_half : ∀ x : F, kind_of x = Zero → kind_of (pow_half x) = Zero;
  zero_below_positive : ∀ x y : F,
    kind_of x = Zero → kind_of y = Positive → flt x y = true;
  one_mul_add_zero : ∀ x z : F,
    kind_of z = Zero →
    same (of_int 1 * x + z)%F x ∧ same (z + of_int 1 * x)%F x
}.

(** What IEEE 754 and C say of [atan2], [cos] and [sin] at a zero:
    [atan2(±0, x) = ±0] for [x > 0], [cos(±0) = 1], [sin(±0) = ±0]. *)
Class LibmAtZero (F : Type) `{Arith F} `{!Libm F} `{!Ieee F} : Prop := {
  arctan2_zero : ∀ y x : F,
    kind_of y = Zero → kind_of x = Positive ∨ kind_of x = PlusInf →
    kind_of (arctan2 y x) = Zero;
  cos_zero : ∀ phi : F, kind_of phi = Zero → np_cos phi = of_int 1;
  sin_zero : ∀ phi : F, kind_of phi = Zero → kind_of (np_sin phi) = Zero
}.

Lemma for_each_ok {A B : Type} (P : A -> Prop) (body : A -> B -> result B)
    (l : list A) (st : B) :
  (∀ x st, P x → ∃ st', body x st = Ok st') → Forall P l →
  ∃ st', for_each body l st = Ok st'.
Proof.
  intros Hbody Hl. revert st. induction Hl as [|x l Hx _ IH]; intros st.
  - by exists st.
  - destruct (Hbody x st Hx) as [st' Hst']. simpl. rewrite Hst'. apply IH.
Qed.

Section Localized.
Context {F : Type} `{Arith F} `{Libm F}.

Lemma localization_functional_ok (p : Z) (atoms : list (Z * Z)) (CIb : ndarray F) :
  ∃ L, localization_functional p (slice_of <$> atoms) (length atoms) (length CIb) CIb
       = Ok L.
Proof.
  unfold localization_functional.
  apply (for_each_ok (fun A => (A < length atoms)%nat)).
  - intros A L HA.
    apply (for_each_ok (fun i => (i < length CIb)%nat)).
    + intros i L' Hi.
      destruct (lookup_lt_is_Some_2 atoms A HA) as [ab Hab].
      destruct (lookup_lt_is_Some_2 CIb i Hi) as [c Hc].
      unfold index. rewrite list_lookup_fmap, Hab. cbn [fmap option_fmap option_map].
      rewrite bind_Ok, slice_rows_int, bind_Ok. cbv beta.
      rewrite (column_fmap _ _ i c), bind_Ok by done. eauto.
    + apply Forall_forall. intros i Hi. apply elem_of_seq in Hi. lia.
  - apply Forall_forall. intros A HA. apply elem_of_seq in HA. lia.
Qed.

Context `{!Ieee F} `{!LibmAtZero F}.

(** Every element is a zero; every element is finite. *)
Definition all_zero (v : list F) : Prop := Forall (fun x => kind_of x = Zero) v.

(** On every atom, one of the two columns vanishes. *)
Definition localized_apart (atoms : list (Z * Z)) (ci cj : list F) : Prop :=
  Forall (fun ab => all_zero (slice_list ab.1 ab.2 ci)
                    ∨ all_zero (slice_list ab.1 ab.2 cj)) atoms.







(** *** Arithmetic on kinds *)











(** *** The two coefficients of a localized pair *)







(** *** The rotation by a zero angle *)




End Localized.

(** *** The rationals respect the kinds *)

Module RationalKinds.

(** A rational is a zero, or above or below zero, as its numerator. *)
Definition sign_kind (x : Q) : kind :=
  match Qnum x with
  | Z0 => Zero
  | Zpos _ => Positive
  | Zneg _ => Negative
  end.

Lemma kind_Qeq (x y : Q) : (x == y)%Q → sign_kind x = sign_kind y.
Proof.
  unfold Qeq, sign_kind. destruct (Qnum x), (Qnum y); simpl; intros Heq; by try done.
Qed.

Lemma kind_Qred (x : Q) : sign_kind (Qred x) = sign_kind x.
Proof. apply kind_Qeq, Qred_correct. Qed.

Lemma zero_Qeq (x : Q) : sign_kind x = Zero → (x == 0)%Q.
Proof. unfold sign_kind, Qeq. destruct (Qnum x); by try done. Qed.

Ltac by_sign :=
  repeat match goal with
         | |- context [match ?n with Z0 => _ | Zpos _ => _ | Zneg _ => _ end] =>
             destruct n
         end;
  try done.

Lemma Q_kind_mul (x y : Q) :
  mul_ok (sign_kind x) (sign_kind y) (sign_kind (x * y)%F) = true.
Proof.
  cbn [fmul Rational.arith]. rewrite kind_Qred. unfold sign_kind. cbn [Qmult Qnum].
  destruct (Qnum x), (Qnum y); by simpl.
Qed.

Lemma Q_kind_add (x y : Q) :
  add_ok (sign_kind x) (sign_kind y) (sign_kind (x + y)%F) = true.
Proof.
  cbn [fadd Rational.arith]. rewrite kind_Qred. unfold sign_kind. cbn [Qplus Qnum].
  destruct (Qnum x), (Qnum y); simpl; by_sign.
Qed.

Lemma Q_kind_neg (x : Q) : sign_kind (- x)%F = neg_kind (sign_kind x).
Proof.
  cbn [fneg Rational.arith]. rewrite kind_Qred. unfold sign_kind. cbn [Qopp Qnum].
  by destruct (Qnum x).
Qed.

Lemma Q_kind_sub (x y : Q) :
  add_ok (sign_kind x) (neg_kind (sign_kind y)) (sign_kind (x - y)%F) = true.
Proof.
  cbn [fsub Rational.arith]. rewrite kind_Qred. unfold sign_kind, Qminus.
  cbn [Qplus Qopp Qnum Qden].
  destruct (Qnum x), (Qnum y); simpl; by_sign.
Qed.

Lemma Q_kind_pow (x : Q) (n : Z) :
  2 <= n <= 4 → pow_ok n (sign_kind x) (sign_kind (x ** n)%F) = true.
Proof.
  intros Hn. cbn [pow_int Rational.arith]. rewrite kind_Qred.
  assert (n = 2 ∨ n = 3 ∨ n = 4) as [-> | [-> | ->]] by lia;
    unfold sign_kind; cbn [Qpower Qpower_positive pow_pos Qmult Qnum];
    by destruct (Qnum x).
Qed.

Lemma Q_kind_pow_half (x : Q) : sign_kind x = Zero → sign_kind (pow_half x) = Zero.
Proof.
  cbn [pow_half Rational.arith]. unfold Rational.sqrt. rewrite kind_Qred.
  unfold sign_kind. cbn [Qnum]. by destruct (Qnum x).
Qed.

Lemma Q_zero_below_positive (x y : Q) :
  sign_kind x = Zero → sign_kind y = Positive → flt x y = true.
Proof.
  cbn [flt Rational.arith]. unfold Rational.lt, Qle_bool, sign_kind.
  destruct (Qnum x), (Qnum y); by try done.
Qed.

Lemma Q_one_mul_add_zero (x z : Q) :
  sign_kind z = Zero →
  (of_int 1 * x + z)%F == x ∧ (z + of_int 1 * x)%F == x.
Proof.
  intros Hz%zero_Qeq. cbn [fadd fmul of_int Rational.arith].
  rewrite !Qred_correct, Hz. split; ring.
Qed.

Lemma Q_kind_of_int (n : Z) : 0 < n <= 6 → sign_kind (of_int n) = Positive.
Proof. intros Hn. destruct n; [lia|done|lia]. Qed.

#[global] Instance ieee : Ieee Q := {|
  kind_of := sign_kind;
  same := Qeq;
  same_refl := Qeq_refl;
  same_kind := kind_Qeq;
  kind_zero := eq_refl;
  kind_quarter := eq_refl;
  kind_tolerance := eq_refl;
  kind_of_int := Q_kind_of_int;
  kind_mul := Q_kind_mul;
  kind_add := Q_kind_add;
  kind_sub := Q_kind_sub;
  kind_neg := Q_kind_neg;
  kind_pow := Q_kind_pow;
  kind_pow_half := Q_kind_pow_half;
  zero_below_positive := Q_zero_below_positive;
  one_mul_add_zero := Q_one_mul_add_zero
|}.

#[global] Instance libm_at_zero : LibmAtZero Q.
Proof.
  split.
  - intros y x Hy Hx. cbn [kind_of ieee arctan2 Rational.libm] in *.
    assert (Rational.lt 0 x = true) as ->.
    { unfold Rational.lt, Qle_bool, sign_kind in *. cbn [Qnum Qden].
      destruct Hx as [Hx|Hx]; destruct (Qnum x); by try done. }
    rewrite kind_Qred. unfold sign_kind, Qdiv in *. cbn [Qmult Qnum].
    by destruct (Qnum y).
  - intros phi Hphi%zero_Qeq. cbn [np_cos Rational.libm of_int Rational.arith].
    apply (Qred_complete _ (inject_Z 1)). rewrite Hphi. reflexivity.
  - intros phi Hphi. exact Hphi.
Qed.

End RationalKinds.

(** *** Binary64 respects the kinds *)

Module Binary64Kinds.

(** The kind of a binary64 number, read off its IEEE 754 representation. *)
Definition spec_kind (s : spec_float) : kind :=
  match s with
  | S754_zero _ => Zero
  | S754_finite false _ _ => Positive
  | S754_finite true _ _ => Negative
  | S754_infinity false => PlusInf
  | S754_infinity true => MinusInf
  | S754_nan => NotANumber
  end.

Definition float_kind (x : float) : kind := spec_kind (Prim2SF x).

(** [x == y] on numbers: the same float, or two zeros. *)
Definition same_float (x y : float) : Prop :=
  x = y ∨ (float_kind x = Zero ∧ float_kind y = Zero).

(** A zero, a finite number or an infinity with the sign bit [sx]. *)
Definition signed (sx : bool) (s : spec_float) : Prop :=
  s = S754_zero sx ∨ (∃ m e, s = S754_finite sx m e) ∨ s = S754_infinity sx.

Lemma shr_1_nonneg (mrs : shr_record) : 0 <= shr_m mrs → 0 <= shr_m (shr_1 mrs).
Proof. destruct mrs as [[|[m|m|]|m] r s]; simpl; lia. Qed.

Lemma iter_pos_shr_1_nonneg (n : positive) (mrs : shr_record) :
  0 <= shr_m mrs → 0 <= shr_m (SpecFloat.iter_pos shr_1 n mrs).
Proof.
  revert mrs. induction n as [n IH|n IH|]; intros mrs Hm; cbn [SpecFloat.iter_pos].
  - by apply IH, IH, shr_1_nonneg.
  - by apply IH, IH.
  - by apply shr_1_nonneg.
Qed.

Lemma shr_fexp_nonneg (m e : Z) (l : location) :
  0 <= m → 0 <= shr_m (shr_fexp prec emax m e l).1.
Proof.
  intros Hm. unfold shr_fexp, shr.
  assert (0 <= shr_m (shr_record_of_loc m l)) as Hrec.
  { by destruct l as [|[]]. }
  destruct (_ - e); cbn [fst]; [done| |done].
  by apply iter_pos_shr_1_nonneg.
Qed.

Lemma round_nearest_even_nonneg (m : Z) (l : location) :
  0 <= m → 0 <= round_nearest_even m l.
Proof. intros Hm. destruct l as [|[]]; simpl; [done| |done|lia]. destruct (Z.even m); lia. Qed.

Lemma binary_round_aux_signed (sx : bool) (m e : Z) (l : location) :
  0 <= m → signed sx (binary_round_aux prec emax sx m e l).
Proof.
  intros Hm. unfold binary_round_aux.
  pose proof (shr_fexp_nonneg m e l Hm) as H1.
  destruct (shr_fexp prec emax m e l) as [mrs' e']. cbn [fst] in H1.
  pose proof (shr_fexp_nonneg _ e' loc_Exact
                (round_nearest_even_nonneg _ (loc_of_shr_record mrs') H1)) as H2.
  destruct (shr_fexp prec emax _ e' loc_Exact) as [mrs'' e'']. cbn [fst] in H2.
  destruct (shr_m mrs'') as [|p|p]; [by left| |lia].
  destruct (e'' <=? emax - prec); [right; left; eauto|by right; right].
Qed.

Lemma binary_round_signed (sx : bool) (m : positive) (e : Z) :
  signed sx (binary_round prec emax sx m e).
Proof.
  unfold binary_round. destruct (shl_align _ _ _) as [mz ez].
  by apply binary_round_aux_signed.
Qed.

Lemma signed_nonneg (s : spec_float) : signed false s → nonneg (spec_kind s) = true.
Proof. by intros [->|[(m & e & ->)| ->]]. Qed.

Lemma signed_nonpos (s : spec_float) : signed true s → nonpos (spec_kind s) = true.
Proof. by intros [->|[(m & e & ->)| ->]]. Qed.

Lemma signed_number (sx : bool) (s : spec_float) :
  signed sx s → kind_eqb (spec_kind s) NotANumber = false.
Proof. by intros [->|[(m & e & ->)| ->]]; destruct sx. Qed.

Lemma binary_normalize_number (m e : Z) :
  kind_eqb (spec_kind (binary_normalize prec emax m e false)) NotANumber = false.
Proof.
  destruct m as [|p|p]; cbn [binary_normalize]; [done|..];
    eapply signed_number, binary_round_signed.
Qed.

Lemma b64_kind_mul (x y : float) :
  mul_ok (float_kind x) (float_kind y) (float_kind (x * y)%F) = true.
Proof.
  cbn [fmul Binary64.arith]. unfold float_kind. rewrite mul_spec.
  destruct (Prim2SF x) as [sx|sx| |sx mx ex], (Prim2SF y) as [sy|sy| |sy my ey];
    try (by destruct sx, sy); try (by destruct sx); try (by destruct sy); try done.
  unfold SF64mul, SFmul.
  pose proof (binary_round_aux_signed (xorb sx sy) (Z.pos (mx * my)) (ex + ey) loc_Exact
                ltac:(lia)) as Hs.
  destruct sx, sy; cbn [xorb] in Hs; cbn [spec_kind mul_ok below_zero xorb finite andb orb];
    rewrite andb_true_r;
    first [by apply signed_nonneg | by apply signed_nonpos].
Qed.

Lemma b64_kind_add (x y : float) :
  add_ok (float_kind x) (float_kind y) (float_kind (x + y)%F) = true.
Proof.
  cbn [fadd Binary64.arith]. unfold float_kind. rewrite add_spec.
  destruct (Prim2SF x) as [sx|sx| |sx mx ex], (Prim2SF y) as [sy|sy| |sy my ey];
    try (by destruct sx, sy); try (by destruct sx); try (by destruct sy); try done.
  unfold SF64add, SFadd.
  generalize (shl_align mx ex (Z.min ex ey)).1, (shl_align my ey (Z.min ex ey)).1.
  intros a b.
  destruct sx, sy; cbn [cond_Zopp spec_kind add_ok Z.opp Z.add binary_normalize].
  - apply signed_nonpos, binary_round_signed.
  - rewrite binary_normalize_number. done.
  - rewrite binary_normalize_number. done.
  - apply signed_nonneg, binary_round_signed.
Qed.

Lemma b64_kind_neg (x : float) : float_kind (- x)%F = neg_kind (float_kind x).
Proof.
  cbn [fneg Binary64.arith]. unfold float_kind. rewrite opp_spec.
  by destruct (Prim2SF x) as [[]|[]| |[] m e].
Qed.

Lemma b64_kind_sub (x y : float) :
  add_ok (float_kind x) (neg_kind (float_kind y)) (float_kind (x - y)%F) = true.
Proof.
  cbn [fsub Binary64.arith]. unfold float_kind. rewrite sub_spec.
  destruct (Prim2SF x) as [sx|sx| |sx mx ex], (Prim2SF y) as [sy|sy| |sy my ey];
    try (by destruct sx, sy); try (by destruct sx); try (by destruct sy); try done.
  unfold SF64sub, SFsub.
  generalize (shl_align mx ex (Z.min ex ey)).1, (shl_align my ey (Z.min ex ey)).1.
  intros a b.
  destruct sx, sy;
    cbn [cond_Zopp spec_kind neg_kind add_ok Z.opp Z.sub Z.add binary_normalize].
  - rewrite binary_normalize_number. done.
  - apply signed_nonpos, binary_round_signed.
  - apply signed_nonneg, binary_round_signed.
  - rewrite binary_normalize_number. done.
Qed.

Lemma b64_kind_pow (x : float) (n : Z) :
  2 <= n <= 4 → pow_ok n (float_kind x) (float_kind (x ** n)%F) = true.
Proof.
  intros Hn. cbn [pow_int Binary64.arith].
  pose proof (b64_kind_mul x x) as H2.
  pose proof (b64_kind_mul (x * x)%F x) as H3.
  pose proof (b64_kind_mul (x * x * x)%F x) as H4.
  cbn [fmul Binary64.arith] in H2, H3, H4.
  assert (n = 2 ∨ n = 3 ∨ n = 4) as [-> | [-> | ->]] by lia;
    change (Binary64.power x 2) with (x * x)%float;
    change (Binary64.power x 3) with (x * x * x)%float;
    change (Binary64.power x 4) with (x * x * x * x)%float.
  - clear H3 H4. destruct (float_kind x); try done; by destruct (float_kind (x * x)).
  - clear H4. destruct (float_kind x); try done;
      destruct (float_kind (x * x)); try done;
      by destruct (float_kind (x * x * x)).
  - destruct (float_kind x); try done;
      destruct (float_kind (x * x)); try done;
      destruct (float_kind (x * x * x)); try done;
      by destruct (float_kind (x * x * x * x)).
Qed.

Lemma b64_kind_pow_half (x : float) :
  float_kind x = Zero → float_kind (pow_half x) = Zero.
Proof.
  cbn [pow_half Binary64.arith]. unfold float_kind. rewrite sqrt_spec.
  by destruct (Prim2SF x) as [[]|[]| |[] m e].
Qed.

Lemma b64_zero_below_positive (x y : float) :
  float_kind x = Zero → float_kind y = Positive → flt x y = true.
Proof.
  cbn [flt Binary64.arith]. unfold float_kind. rewrite ltb_spec.
  by destruct (Prim2SF x) as [[]|[]| |[] m e], (Prim2SF y) as [[]|[]| |[] m' e'].
Qed.

Lemma b64_kind_of_int (n : Z) : 0 < n <= 6 → float_kind (of_int n) = Positive.
Proof.
  intros Hn.
  assert (n = 1 ∨ n = 2 ∨ n = 3 ∨ n = 4 ∨ n = 5 ∨ n = 6)
    as [-> | [-> | [-> | [-> | [-> | ->]]]]] by lia; by vm_compute.
Qed.

(** A canonical mantissa is left alone by rounding, and so is a canonical
    mantissa shifted left by 52 bits once these bits are shifted out. *)
Lemma shr_fexp_canonical (my : positive) (ey : Z) :
  fexp prec emax (Z.pos (digits2_pos my) + ey) = ey →
  shr_fexp prec emax (Z.pos my) ey loc_Exact
  = ({| shr_m := Z.pos my; shr_r := false; shr_s := false |}, ey).
Proof.
  intros Hcanon. unfold shr_fexp. cbn [Zdigits2 shr_record_of_loc].
  by rewrite Hcanon, Z.sub_diag.
Qed.

Lemma shr_fexp_shifted (my : positive) (ey : Z) :
  fexp prec emax (Z.pos (digits2_pos my) + ey) = ey →
  shr_fexp prec emax
    (Z.pos (my~0~0~0~0~0~0~0~0~0~0~0~0~0~0~0~0~0~0~0~0~0~0~0~0~0~0
              ~0~0~0~0~0~0~0~0~0~0~0~0~0~0~0~0~0~0~0~0~0~0~0~0~0~0))
    (-52 + ey) loc_Exact
  = ({| shr_m := Z.pos my; shr_r := false; shr_s := false |}, ey).
Proof.
  intros Hcanon. unfold shr_fexp. cbn [Zdigits2 digits2_pos shr_record_of_loc].
  replace (fexp prec emax _ - (-52 + ey)) with 52; cycle 1.
  { rewrite !Pos2Z.inj_succ.
    replace (Z.succ _ + (-52 + ey)) with (Z.pos (digits2_pos my) + ey) by lia.
    rewrite Hcanon. lia. }
  cbn [shr SpecFloat.iter_pos shr_1 orb]. f_equal. lia.
Qed.

(** Multiplying by 1 is exact: the mantissa of the product is that of [x]
    shifted by the 52 bits that rounding takes away again. *)
Lemma b64_one_mul (x : float) : (of_int 1 * x)%F = x.
Proof.
  cbn [fmul of_int Binary64.arith]. apply Prim2SF_inj. rewrite mul_spec.
  change (Prim2SF (Binary64.from_Z 1)) with (S754_finite false 4503599627370496 (-52)).
  pose proof (Prim2SF_valid x) as Hvalid.
  destruct (Prim2SF x) as [sy|sy| |sy my ey]; try done.
  cbn [SpecFloat.valid_binary] in Hvalid.
  apply andb_true_iff in Hvalid as [Hcanon Hmax].
  unfold canonical_mantissa in Hcanon. apply Z.eqb_eq in Hcanon.
  apply Z.leb_le in Hmax.
  unfold SF64mul, SFmul. cbn [xorb].
  change (4503599627370496 * my)%positive
    with (my~0~0~0~0~0~0~0~0~0~0~0~0~0~0~0~0~0~0~0~0~0~0~0~0~0~0
            ~0~0~0~0~0~0~0~0~0~0~0~0~0~0~0~0~0~0~0~0~0~0~0~0~0~0)%positive.
  unfold binary_round_aux. rewrite (shr_fexp_shifted my ey Hcanon).
  cbn [shr_m loc_of_shr_record round_nearest_even].
  rewrite (shr_fexp_canonical my ey Hcanon). cbn [shr_m].
  by assert ((ey <=? emax - prec) = true) as -> by lia.
Qed.

Lemma b64_one_mul_add_zero (x z : float) :
  float_kind z = Zero →
  same_float (of_int 1 * x + z)%F x ∧ same_float (z + of_int 1 * x)%F x.
Proof.
  intros Hz. rewrite b64_one_mul. cbn [fadd Binary64.arith].
  unfold same_float, float_kind in *.
  assert (Prim2SF (x + z) = Prim2SF x
          ∨ spec_kind (Prim2SF (x + z)) = Zero ∧ spec_kind (Prim2SF x) = Zero) as H1.
  { rewrite add_spec.
    destruct (Prim2SF x) as [[]|[]| |[] m e], (Prim2SF z) as [[]|[]| |[] m' e'];
      try done; by (left + right). }
  assert (Prim2SF (z + x) = Prim2SF x
          ∨ spec_kind (Prim2SF (z + x)) = Zero ∧ spec_kind (Prim2SF x) = Zero) as H2.
  { rewrite add_spec.
    destruct (Prim2SF x) as [[]|[]| |[] m e], (Prim2SF z) as [[]|[]| |[] m' e'];
      try done; by (left + right). }
  split.
  - destruct H1 as [H1|H1]; [left; by apply Prim2SF_inj|by right].
  - destruct H2 as [H2|H2]; [left; by apply Prim2SF_inj|by right].
Qed.

Lemma b64_same_kind (x y : float) : same_float x y → float_kind x = float_kind y.
Proof. intros [->|[-> ->]]; done. Qed.

#[global] Instance ieee : Ieee float := {|
  kind_of := float_kind;
  same := same_float;
  same_refl := fun x => or_introl eq_refl;
  same_kind := b64_same_kind;
  kind_zero := eq_refl;
  kind_quarter := eq_refl;
  kind_tolerance := eq_refl;
  kind_of_int := b64_kind_of_int;
  kind_mul := b64_kind_mul;
  kind_add := b64_kind_add;
  kind_sub := b64_kind_sub;
  kind_neg := b64_kind_neg;
  kind_pow := b64_kind_pow;
  kind_pow_half := b64_kind_pow_half;
  zero_below_positive := b64_zero_below_positive;
  one_mul_add_zero := b64_one_mul_add_zero
|}.

(** Stand-ins for [atan2], [cos] and [sin] that agree with them at a zero
    angle, to run the sweep on binary64 where the angle is zero. *)
#[global] Instance libm : Libm float := {|
  arctan2 := fun y x =>
    if (0 <? x)%float then (y / x)%float
    else if (y <? 0)%float then (-3)%float else if (0 <? y)%float then 3%float
    else if (x <? 0)%float then 3%float else 0%float;
  np_cos := fun phi => (1 - phi * phi / 2)%float;
  np_sin := fun phi => phi
|}.

#[global] Instance libm_at_zero : LibmAtZero float.
Proof.
  split.
  - intros y x Hy Hx. cbn [kind_of ieee arctan2 libm] in *. unfold float_kind in *.
    rewrite ltb_spec. change (Prim2SF 0) with (S754_zero false).
    destruct (Prim2SF x) as [[]|[]| |[] m e] eqn:Hpx; try (by destruct Hx);
      cbn [SFltb SFcompare]; rewrite div_spec, Hpx;
      by destruct (Prim2SF y) as [[]|[]| |[] m' e'].
  - intros phi Hphi. cbn [kind_of ieee np_cos libm of_int Binary64.arith] in *.
    unfold float_kind in *. apply Prim2SF_inj.
    rewrite sub_spec, div_spec, mul_spec.
    change (Prim2SF 2) with (S754_finite false 4503599627370496 (-51)).
    change (Binary64.from_Z 1) with 1%float.
    change (Prim2SF 1) with (S754_finite false 4503599627370496 (-52)).
    by destruct (Prim2SF phi) as [[]|[]| |[] m e].
  - intros phi Hphi. exact Hphi.
Qed.

End Binary64Kinds.

(** The 2 x 2 identity, its two columns sitting on the atoms [[0, 1)] and
    [[1, 2)]. *)
Definition two_atoms : list (Z * Z) := [(0, 1); (1, 2)].
Definition identity_Q : list (list Q) := [[1%Q; 0%Q]; [0%Q; 1%Q]].

Lemma sweep_lower_triangular_order_witness :
  sweep 2 (slice_of <$> two_atoms) 2 2 identity_Q = (identity_Q, Ok 0%Q).
Proof.
  refine (eq_trans (sweep_lower_triangular_order 2 two_atoms identity_Q _) _).
  - by left.
  - vm_compute. reflexivity.
Defined.




(** Without the bound on the populations the gradient is lost: for two
    localized columns whose entries are [2^600] the population of an atom
    overflows, [0 * inf] is not a number, and neither is [Bij]. *)
Example localized_pair_overflow :
  localized_apart two_atoms [0%float; 0x1p+600%float] [0x1p+600%float; 0%float]
  ∧ ∃ Aij Bij : float,
      pair_coefficients 2 (slice_of <$> two_atoms) 2
        [[0x1p+600%float; 0%float]; [0%float; 0x1p+600%float]] 1 0 = Ok (Aij, Bij)
      ∧ kind_of Bij = NotANumber.
Proof.
  split.
  - constructor; [left; by constructor|].
    constructor; [right; by constructor|]. constructor.
  - eexists _, _. split; [vm_compute; reflexivity|]. vm_compute. reflexivity.
Qed.

(** ** [ibo_loc] on a store of arrays *)

(** What [ibo_loc] hands to its logger, call by call; the elapsed time that
    the debug lines also print is left out. *)
Inductive log_event (F : Type) : Type :=
| DebugHeader
| DebugIteration (it : Z) (L fGrad : F)
| Note (warning : bool) (exponent it : Z) (fGrad : F)
| DebugDeviation.
Arguments DebugHeader {F}.
Arguments DebugIteration {F} it L fGrad.
Arguments Note {F} warning exponent it fGrad.
Arguments DebugDeviation {F}.

(** The arrays alive during a call, by location, and the log.  A Python
    name bound to an array holds a location: two names can share one. *)
Record store (F : Type) : Type := Store {
  heap : list (list (list F));
  log : list (log_event F)
}.
Arguments Store {F} heap log.
Arguments heap {F} s.
Arguments log {F} s.

Section Store.
Context {F : Type}.

(** A new array, at a location that no earlier array has. *)
Definition alloc (M : ndarray F) : stM (store F) nat :=
  fun σ => (Store (heap σ ++ [M]) (log σ), Ok (length (heap σ))).

(** The current content of an array.  Locations come from the caller's
    arrays or from [alloc], so the error branch is not reached by the code. *)
Definition read (l : nat) : stM (store F) (ndarray F) :=
  fun σ => (σ, match heap σ !! l with
               | Some M => Ok M
               | None => Raise (CollaboratorError "array")
               end).

(** Code that works in place on the array at [l]. *)
Definition at_loc {A : Type} (l : nat) (m : stM (ndarray F) A) : stM (store F) A :=
  fun σ =>
    match heap σ !! l with
    | Some M => let '(M', r) := m M in (Store (<[l := M']> (heap σ)) (log σ), r)
    | None => (σ, Raise (CollaboratorError "array"))
    end.

Definition emit (e : log_event F) : stM (store F) unit :=
  fun σ => (Store (heap σ) (log σ ++ [e]), Ok tt).

(** Reading a local name that may not have been assigned. *)
Definition bound {A : Type} (name : string) (v : option A) : result A :=
  match v with
  | Some a => Ok a
  | None => Raise (UnboundLocalError name)
  end.

(** [M[:, idx]] for a list of column indices. *)
Definition take_columns (M : ndarray F) (idx : list nat) : result (ndarray F) :=
  for_each (fun k acc => c ← column M k; Ok (acc ++ [c])) idx [].

End Store.

Section IboLoc.
Context {F : Type} `{Arith F} `{Libm F}.

(** The molecule object and the reference (minimal-basis) molecule. *)
Variables Mol IaoMol : Type.

(** pyscf: [orth.vec_lowdin(c, s)] ([s] defaults to the identity),
    [iao.reference_mol], the attributes of the reference molecule that are
    read, and [mo_mapping.mo_1to1map].  Each returns a new object and leaves
    its arguments as they are. *)
Variable vec_lowdin : ndarray F -> option (ndarray F) -> result (ndarray F).
Variable reference_mol : Mol -> string -> result IaoMol.
Variable natm : IaoMol -> nat.
Variable atom_pure_symbol : IaoMol -> nat -> result string.
Variable offset_nr_by_atom : IaoMol -> result (list (Z * Z * Z * Z)).
Variable mo_1to1map : ndarray F -> result (list nat).

(** numpy: [numpy.dot(a, b)] on 2-D arrays, [a.T] and [a.conj()]. *)
Variable np_dot : ndarray F -> ndarray F -> result (ndarray F).
Variable np_T : ndarray F -> ndarray F.
Variable np_conj : ndarray F -> ndarray F.

(** The atom slices [iAtSl] and [nAtoms], by one of three routes: the static
    table, the offsets of [iao_mol], or the labels. *)
Definition make_slices (mol : Mol) (minao : string) (iao_mol : option IaoMol)
    (labels : option (list string)) : result (list pyslice * nat) :=
  match iao_mol, labels with
  | None, None =>
      iao_mol ← reference_mol mol minao;
      Atoms ← for_each (fun i acc => a ← atom_pure_symbol iao_mol i; Ok (acc ++ [a]))
                (seq 0 (natm iao_mol)) [];
      let nAtoms := length Atoms in
      offsets ← MakeAtomIbOffsets Atoms;
      let AtomOffsets := offsets.1 in
      iAtSl ← atom_slices AtomOffsets nAtoms;
      Ok (iAtSl, nAtoms)
  | Some iao_mol, None =>
      offsets ← offset_nr_by_atom iao_mol;
      let iAtSl := (fun '(b0, b1, p0, p1) => Slice (PyInt p0) (PyInt p1)) <$> offsets in
      Ok (iAtSl, length iAtSl)
  | _, Some labels =>
      iAtSl ← get_offset labels;
      Ok (iAtSl, length iAtSl)
  end.

(** The names that the outer loop assigns. *)
Record loop_vars : Type := LoopVars {
  v_it : option Z;
  v_fGrad : option F;
  Converged : bool
}.

(** [for it in range(max_iter)], on the array at location [CIb]. *)
Fixpoint iterations (CIb : nat) (exponent : Z) (grad_tol : F) (iAtSl : list pyslice)
    (nAtoms numOccOrbitals : nat) (its : list Z) (vars : loop_vars)
  : stM (store F) loop_vars :=
  match its with
  | [] => mret vars
  | it :: its' =>
      LG ← at_loc CIb (iteration exponent iAtSl nAtoms numOccOrbitals);
      _ ← emit (DebugIteration (it + 1) LG.1 LG.2);
      if flt LG.2 grad_tol then mret (LoopVars (Some it) (Some LG.2) true)
      else iterations CIb exponent grad_tol iAtSl nAtoms numOccOrbitals its'
             (LoopVars (Some it) (Some LG.2) (Converged vars))
  end.

(** The [Note] line built after the loop, and the call of [log.note]. *)
Definition report (exponent : Z) (vars : loop_vars) : stM (store F) unit :=
  it ← st_lift (bound "it" (v_it vars));
  fGrad ← st_lift (bound "fGrad" (v_fGrad vars));
  emit (Note (negb (Converged vars)) exponent (it + 1) fGrad).

(** [ibo_loc(mol, orbocc, iaos, s, exponent, grad_tol, max_iter, minao,
    iao_mol=iao_mol, labels=labels)]; the three arrays are passed by
    location and the result is the location of the returned array. *)
Definition ibo_loc (mol : Mol) (orbocc iaos s : nat) (exponent : Z) (grad_tol : F)
    (max_iter : Z) (minao : string) (iao_mol : option IaoMol)
    (labels : option (list string)) : stM (store F) nat :=
  _ ← st_lift (py_assert (bool_decide (exponent = 2) || bool_decide (exponent = 4)));
  iaos_v ← read iaos;
  s_v ← read s;
  lowdin ← st_lift (vec_lowdin iaos_v (Some s_v));
  iaos ← alloc lowdin;
  slices ← st_lift (make_slices mol minao iao_mol labels);
  let iAtSl := slices.1 in
  let nAtoms := slices.2 in
  iaos_v ← read iaos;
  s_v ← read s;
  orbocc_v ← read orbocc;
  iaosT_s ← st_lift (np_dot (np_T iaos_v) s_v);
  projection ← st_lift (np_dot iaosT_s orbocc_v);
  CIb ← alloc projection;
  let numOccOrbitals := length projection in
  _ ← emit DebugHeader;
  vars ← iterations CIb exponent grad_tol iAtSl nAtoms numOccOrbitals
            (py_range 0 max_iter) (LoopVars None None false);
  _ ← report exponent vars;
  CIb_v ← read CIb;
  _ ← st_lift (np_dot (np_T CIb_v) CIb_v);
  _ ← emit DebugDeviation;
  CIb_lowdin ← st_lift (vec_lowdin CIb_v None);
  iaos_v ← read iaos;
  ibos_v ← st_lift (np_dot iaos_v CIb_lowdin);
  orbocc_v ← read orbocc;
  s_v ← read s;
  orboccT_s ← st_lift (np_dot (np_T (np_conj orbocc_v)) s_v);
  u0 ← st_lift (np_dot orboccT_s ibos_v);
  sorted_idx ← st_lift (mo_1to1map u0);
  sorted ← st_lift (take_columns ibos_v sorted_idx);
  alloc sorted.

(** *** The exponent check and the empty loop *)

Lemma bind_not_ok {S A B : Type} (m : stM S A) (k : A -> stM S B) (σ : S) :
  (∀ a σ', is_ok (k a σ').2 = false) → is_ok ((m ≫= k) σ).2 = false.
Proof.
  intros Hk. unfold mbind, stM_bind. destruct (m σ) as [σ' [a|e]]; [apply Hk | done].
Qed.

Lemma empty_loop_unbound (CIb : nat) (exponent : Z) (grad_tol : F)
    (iAtSl : list pyslice) (nAtoms numOccOrbitals : nat) (max_iter : Z) (σ : store F) :
  max_iter <= 0 →
  (vars ← iterations CIb exponent grad_tol iAtSl nAtoms numOccOrbitals
             (py_range 0 max_iter) (LoopVars None None false);
   report exponent vars) σ
  = (σ, Raise (UnboundLocalError "it")).
Proof.
  intros Hmax. unfold py_range.
  replace (Z.to_nat (max_iter - 0)) with 0%nat by lia. done.
Qed.

(** C5.  An exponent other than 2 and 4 ends the call in [AssertionError]
    with the store as it was: no array has been read, built or written and
    nothing has been logged. *)
Theorem ibo_loc_rejects_exponent (mol : Mol) (orbocc iaos s : nat) (exponent : Z)
    (grad_tol : F) (max_iter : Z) (minao : string) (iao_mol : option IaoMol)
    (labels : option (list string)) (σ : store F) :
  exponent ≠ 2 → exponent ≠ 4 →
  ibo_loc mol orbocc iaos s exponent grad_tol max_iter minao iao_mol labels σ
  = (σ, Raise AssertionError).
Proof.
  intros H2 H4. unfold ibo_loc.
  by rewrite (bool_decide_false _ H2), (bool_decide_false _ H4).
Qed.

(** C3, the failing case.  With [max_iter <= 0] the loop body never runs,
    [it] and [fGrad] are never assigned, and building the [Note] line raises
    [UnboundLocalError]: the call cannot return normally. *)
Theorem ibo_loc_no_iteration_raises (mol : Mol) (orbocc iaos s : nat) (exponent : Z)
    (grad_tol : F) (max_iter : Z) (minao : string) (iao_mol : option IaoMol)
    (labels : option (list string)) (σ : store F) :
  max_iter <= 0 →
  is_ok (ibo_loc mol orbocc iaos s exponent grad_tol max_iter minao iao_mol labels σ).2
  = false
  ∧ ∀ (CIb : nat) (iAtSl : list pyslice) (nAtoms numOccOrbitals : nat) (σ' : store F),
      (vars ← iterations CIb exponent grad_tol iAtSl nAtoms numOccOrbitals
                 (py_range 0 max_iter) (LoopVars None None false);
       report exponent vars) σ'
      = (σ', Raise (UnboundLocalError "it")).
Proof.
  intros Hmax. split; [|intros; by apply empty_loop_unbound].
  unfold ibo_loc.
  do 13 (apply bind_not_ok; intros ? ?; cbv zeta).
  unfold py_range. replace (Z.to_nat (max_iter - 0)) with 0%nat by lia.
  done.
Qed.

(** *** The frame of a call *)

(** [frames n m Q]: run from a store with at least [n] arrays, [m] leaves
    the first [n] arrays as they were, never shrinks the store, and a
    returned value satisfies [Q]. *)
Definition frames {A : Type} (n : nat) (m : stM (store F) A) (Q : A -> Prop) : Prop :=
  ∀ σ, (n ≤ length (heap σ))%nat →
    take n (heap (m σ).1) = take n (heap σ)
    ∧ (n ≤ length (heap (m σ).1))%nat
    ∧ ∀ a, (m σ).2 = Ok a → Q a.

Lemma frames_bind {A B : Type} (n : nat) (m : stM (store F) A) (k : A -> stM (store F) B)
    (Q : A -> Prop) (R : B -> Prop) :
  frames n m Q → (∀ a, Q a → frames n (k a) R) → frames n (m ≫= k) R.
Proof.
  intros Hm Hk σ Hσ. destruct (Hm σ Hσ) as (Htake & Hlen & HQ).
  unfold mbind, stM_bind. destruct (m σ) as [σ1 [a|e]]; simpl in *.
  - destruct (Hk a (HQ a eq_refl) σ1 Hlen) as (Htake' & Hlen' & HR).
    split; [congruence|]. by split.
  - split; [done|]. split; [done|]. intros b [=].
Qed.

Lemma frames_lift {A : Type} (n : nat) (r : result A) :
  frames n (st_lift r) (fun _ => True).
Proof. intros σ Hσ. by cbv [st_lift fst snd]. Qed.

Lemma frames_read (n l : nat) : frames n (read l) (fun _ => True).
Proof. intros σ Hσ. by cbv [read fst snd]. Qed.

Lemma frames_emit (n : nat) (e : log_event F) : frames n (emit e) (fun _ => True).
Proof. intros σ Hσ. by cbv [emit fst snd heap]. Qed.

Lemma frames_ret {A : Type} (n : nat) (a : A) : frames n (mret a) (fun _ => True).
Proof. intros σ Hσ. by cbv [mret stM_ret fst snd]. Qed.

Lemma frames_alloc (n : nat) (M : ndarray F) : frames n (alloc M) (fun l => (n ≤ l)%nat).
Proof.
  intros σ Hσ. cbv [alloc fst snd heap]. fold (heap σ).
  split; [by rewrite take_app_le|]. split; [rewrite length_app; lia|].
  intros l [= <-]. done.
Qed.

Lemma frames_at_loc {A : Type} (n l : nat) (m : stM (ndarray F) A) :
  (n ≤ l)%nat → frames n (at_loc l m) (fun _ => True).
Proof.
  intros Hl σ Hσ. unfold at_loc. destruct (heap σ !! l) as [M|]; [|done].
  destruct (m M) as [M' r]. cbn [fst snd heap].
  split; [by rewrite take_insert_ge|]. split; [by rewrite length_insert|done].
Qed.

Lemma frames_true {A : Type} (n : nat) (m : stM (store F) A) (Q : A -> Prop) :
  frames n m Q → frames n m (fun _ => True).
Proof. intros Hm σ Hσ. destruct (Hm σ Hσ) as (? & ? & _). done. Qed.

Lemma frames_iterations (n CIb : nat) (exponent : Z) (grad_tol : F)
    (iAtSl : list pyslice) (nAtoms numOccOrbitals : nat) (its : list Z)
    (vars : loop_vars) :
  (n ≤ CIb)%nat →
  frames n (iterations CIb exponent grad_tol iAtSl nAtoms numOccOrbitals its vars)
    (fun _ => True).
Proof.
  intros HCIb. revert vars. induction its as [|it its IH]; intros vars.
  - apply frames_ret.
  - cbn [iterations].
    eapply frames_bind; [by apply frames_at_loc|]. intros LG _.
    eapply frames_bind; [apply frames_emit|]. intros _ _.
    destruct (flt _ _); [apply frames_ret | apply IH].
Qed.

Lemma frames_report (n : nat) (exponent : Z) (vars : loop_vars) :
  frames n (report exponent vars) (fun _ => True).
Proof.
  unfold report.
  eapply frames_bind; [apply frames_lift|]. intros it _.
  eapply frames_bind; [apply frames_lift|]. intros fGrad _.
  apply frames_emit.
Qed.

Ltac frame_step :=
  eapply frames_bind;
  [ first [ apply frames_lift | apply frames_read | apply frames_emit
          | apply frames_alloc | apply frames_report
          | by apply frames_iterations ]
  | intros ? ?; cbv zeta ].

Lemma frames_ibo_loc (n : nat) (mol : Mol) (orbocc iaos s : nat) (exponent : Z)
    (grad_tol : F) (max_iter : Z) (minao : string) (iao_mol : option IaoMol)
    (labels : option (list string)) :
  frames n (ibo_loc mol orbocc iaos s exponent grad_tol max_iter minao iao_mol labels)
    (fun returned => (n ≤ returned)%nat).
Proof. unfold ibo_loc. repeat frame_step. apply frames_alloc. Qed.

(** C9.  Whatever the outcome of a call, normal or exceptional, every array
    that existed before it (the caller's [orbocc], [s] and [iaos] among
    them) has the content it had: the store after the call is the store
    before it followed by the arrays that the call created.  The result of
    the first [vec_lowdin] and the projection [CIb] are such new arrays, and
    the rotations write into [CIb] only. *)
Theorem ibo_loc_preserves_inputs (mol : Mol) (orbocc iaos s : nat) (exponent : Z)
    (grad_tol : F) (max_iter : Z) (minao : string) (iao_mol : option IaoMol)
    (labels : option (list string)) (σ : store F) :
  heap σ `prefix_of`
    heap (ibo_loc mol orbocc iaos s exponent grad_tol max_iter minao iao_mol labels σ).1.
Proof.
  destruct (frames_ibo_loc (length (heap σ)) mol orbocc iaos s exponent grad_tol
              max_iter minao iao_mol labels σ) as (Htake & _ & _); [done|].
  rewrite firstn_all in Htake. rewrite <- Htake. apply prefix_take.
Qed.

End IboLoc.

(** ** The outer loop when at least one iteration runs *)

Section Loop.
Context {F : Type} `{Arith F} `{Libm F}.

Lemma iteration_total (p : Z) (atoms : list (Z * Z)) (M : ndarray F) :
  p = 2 ∨ p = 4 →
  ∃ M' L g, iteration p (slice_of <$> atoms) (length atoms) (length M) M
            = (M', Ok (L, g))
            ∧ length M' = length M.
Proof.
  intros Hp. destruct (localization_functional_ok p atoms M) as [L HL].
  eexists _, L, _. cbv [iteration mbind stM_bind st_get st_lift mret stM_ret].
  rewrite HL, sweep_fold by done. cbv beta iota.
  split; [reflexivity|]. apply foldl_pair_update_length.
Qed.

Lemma at_loc_run {A : Type} (l : nat) (m : stM (ndarray F) A) (σ : store F)
    (M M' : ndarray F) (r : result A) :
  heap σ !! l = Some M → m M = (M', r) →
  at_loc l m σ = (Store (<[l := M']> (heap σ)) (log σ), r).
Proof. intros HM Hm. unfold at_loc. by rewrite HM, Hm. Qed.

Lemma iterations_step (CIb : nat) (p : Z) (tol : F) (iAtSl : list pyslice)
    (nAtoms nOcc : nat) (it : Z) (its : list Z) (vars : loop_vars) (σ : store F)
    (M M1 : ndarray F) (L1 g1 : F) :
  heap σ !! CIb = Some M →
  iteration p iAtSl nAtoms nOcc M = (M1, Ok (L1, g1)) →
  iterations CIb p tol iAtSl nAtoms nOcc (it :: its) vars σ
  = let σ1 := Store (<[CIb := M1]> (heap σ)) (log σ ++ [DebugIteration (it + 1) L1 g1]) in
    if flt g1 tol then (σ1, Ok (LoopVars (Some it) (Some g1) true))
    else iterations CIb p tol iAtSl nAtoms nOcc its
           (LoopVars (Some it) (Some g1) (Converged vars)) σ1.
Proof.
  intros HM Hit. cbn [iterations]. unfold mbind, stM_bind.
  rewrite (at_loc_run CIb _ σ M M1 (Ok (L1, g1)) HM Hit).
  cbn [emit heap log fst snd]. by destruct (flt g1 tol).
Qed.

(** The debug line of the [k]-th iteration counted from [s]. *)
Definition iteration_event (s k : nat) (Lg : F * F) : log_event F :=
  DebugIteration (Z.of_nat (s + k) + 1) Lg.1 Lg.2.

Lemma iterations_spec (CIb : nat) (p : Z) (tol : F) (atoms : list (Z * Z)) (m : nat) :
  p = 2 ∨ p = 4 →
  ∀ (s : nat) (σ : store F) (M : ndarray F) (vars : loop_vars),
    heap σ !! CIb = Some M → Converged vars = false →
    ∃ (σ' : store F) (sweeps : list (F * F)) (L g : F),
      iterations CIb p tol (slice_of <$> atoms) (length atoms) (length M)
        (Z.of_nat <$> seq s (S m)) vars σ
      = (σ', Ok (LoopVars (Some (Z.of_nat (s + length sweeps))) (Some g) (flt g tol)))
      ∧ (length sweeps ≤ m)%nat
      ∧ log σ' = log σ ++ imap (iteration_event s) (sweeps ++ [(L, g)])
      ∧ Forall (fun Lg => flt Lg.2 tol = false) sweeps
      ∧ (flt g tol = false → length sweeps = m).
Proof.
  intros Hp. induction m as [|m IH]; intros s σ M vars HM Hconv.
  - destruct (iteration_total p atoms M Hp) as (M1 & L1 & g1 & Hit & Hlen).
    exists (Store (<[CIb := M1]> (heap σ)) (log σ ++ [DebugIteration (Z.of_nat s + 1) L1 g1])).
    exists [], L1, g1.
    cbn [seq fmap list_fmap]. rewrite (iterations_step _ _ _ _ _ _ _ _ _ _ M M1 L1 g1 HM Hit).
    cbv zeta. cbn [iterations length app imap]. unfold mret, stM_ret, iteration_event.
    cbn [fst snd log]. rewrite Nat.add_0_r, Hconv.
    split; [by destruct (flt g1 tol)|]. split; [done|]. split; [done|]. split; done.
  - destruct (iteration_total p atoms M Hp) as (M1 & L1 & g1 & Hit & Hlen).
    change (seq s (S (S m))) with (s :: seq (S s) (S m)).
    cbn [fmap list_fmap]. rewrite (iterations_step _ _ _ _ _ _ _ _ _ _ M M1 L1 g1 HM Hit).
    cbv zeta. destruct (flt g1 tol) eqn:Hg1.
    + exists (Store (<[CIb := M1]> (heap σ)) (log σ ++ [DebugIteration (Z.of_nat s + 1) L1 g1])).
      exists [], L1, g1.
      cbn [length app imap]. unfold iteration_event. cbn [fst snd log].
      rewrite Nat.add_0_r, Hg1.
      split; [done|]. split; [lia|]. split; [done|]. split; [done|]. done.
    + set (σ1 := Store (<[CIb := M1]> (heap σ))
                   (log σ ++ [DebugIteration (Z.of_nat s + 1) L1 g1])).
      assert (heap σ1 !! CIb = Some M1) as HM1.
      { apply list_lookup_insert_eq. by eapply lookup_lt_Some. }
      destruct (IH (S s) σ1 M1 (LoopVars (Some (Z.of_nat s)) (Some g1) (Converged vars))
                  HM1 Hconv) as (σ' & sweeps & L & g & Hrun & Hle & Hlog & Hall & Hlast).
      exists σ', ((L1, g1) :: sweeps), L, g.
      rewrite <- Hlen, Hrun. cbn [length].
      replace (S s + length sweeps)%nat with (s + S (length sweeps))%nat by lia.
      split; [done|]. split; [lia|]. split.
      { rewrite Hlog. cbn [σ1 log app imap]. rewrite <- app_assoc. cbn [app].
        f_equal. f_equal.
        - unfold iteration_event. cbn [fst snd]. by rewrite Nat.add_0_r.
        - apply imap_ext. intros k Lg _. unfold iteration_event, compose.
          by replace (S s + k)%nat with (s + S k)%nat by lia. }
      split; [by constructor|]. intros Hg. by rewrite Hlast.
Qed.

Lemma py_range_from_zero (n : Z) : py_range 0 n = Z.of_nat <$> seq 0 (Z.to_nat n).
Proof. unfold py_range. by rewrite Z.sub_0_r. Qed.

(** X1 (the part of C3 that holds).  With [max_iter >= 1], a valid exponent
    and atoms given by integer row ranges, the loop and the [Note] line never
    raise.  The loop runs [n] iterations with [1 <= n <= max_iter], logging
    one debug line per iteration; every iteration before the last has a
    gradient norm that is not below [grad_tol]; the loop stops early exactly
    when the last gradient norm is below [grad_tol], and otherwise
    [n = max_iter] and the note is the warning. *)
Theorem loop_returns_after_max_iter (CIb : nat) (p : Z) (grad_tol : F)
    (atoms : list (Z * Z)) (max_iter : Z) (σ : store F) (M : ndarray F) :
  p = 2 ∨ p = 4 → 1 <= max_iter → heap σ !! CIb = Some M →
  ∃ (σ' : store F) (sweeps : list (F * F)) (L g : F),
    (vars ← iterations CIb p grad_tol (slice_of <$> atoms) (length atoms) (length M)
               (py_range 0 max_iter) (LoopVars None None false);
     report p vars) σ
    = (σ', Ok tt)
    ∧ Z.of_nat (S (length sweeps)) <= max_iter
    ∧ log σ' = log σ ++ imap (iteration_event 0) (sweeps ++ [(L, g)])
                     ++ [Note (negb (flt g grad_tol)) p (Z.of_nat (S (length sweeps))) g]
    ∧ Forall (fun Lg => flt Lg.2 grad_tol = false) sweeps
    ∧ (flt g grad_tol = false → Z.of_nat (S (length sweeps)) = max_iter).
Proof.
  intros Hp Hmax HM. rewrite py_range_from_zero.
  assert (Z.to_nat max_iter = S (Z.to_nat max_iter - 1)) as -> by lia.
  destruct (iterations_spec CIb p grad_tol atoms (Z.to_nat max_iter - 1) Hp 0 σ M
              (LoopVars None None false) HM eq_refl)
    as (σ' & sweeps & L & g & Hrun & Hle & Hlog & Hall & Hlast).
  exists (Store (heap σ')
            (log σ' ++ [Note (negb (flt g grad_tol)) p (Z.of_nat (S (length sweeps))) g])).
  exists sweeps, L, g.
  split.
  { unfold mbind at 1, stM_bind. rewrite Hrun.
    cbv [report mbind stM_bind st_lift bound v_it v_fGrad Converged emit].
    by replace (Z.of_nat (0 + length sweeps) + 1) with (Z.of_nat (S (length sweeps)))
      by lia. }
  split; [lia|]. split; [cbn [log]; by rewrite Hlog, app_assoc|].
  split; [done|]. intros Hg. specialize (Hlast Hg). lia.
Qed.

End Loop.

(** ** A closed run: H2 in a minimal basis *)

(** Collaborators for a run that can be evaluated.  The matrix product and
    the transpose are the textbook ones; [vec_lowdin] and [mo_1to1map] are
    what the pyscf functions compute when the columns they are given are
    already orthonormal and in order, which is the case in the run below. *)
Module Example.

Section Numpy.
Context {F : Type} `{Arith F}.

Definition mat_vec (A : ndarray F) (v : list F) : list F :=
  foldl (fun acc cx => vadd acc (vscale cx.2 cx.1))
    (replicate (length (default [] (head A))) fzero) (zip A v).

Definition matmul (A B : ndarray F) : result (ndarray F) :=
  if forallb (fun v => (length v =? length A)%nat) B then Ok (mat_vec A <$> B)
  else Raise (ValueError ShapesNotAligned).

Definition transpose (A : ndarray F) : ndarray F :=
  imap (fun r _ => (fun c => default fzero (c !! r)) <$> A) (default [] (head A)).

End Numpy.

Definition Mol : Type := list string.

Definition vec_lowdin (c : ndarray Q) (s : option (ndarray Q)) : result (ndarray Q) :=
  Ok c.
Definition reference_mol (mol : Mol) (minao : string) : result Mol := Ok mol.
Definition atom_pure_symbol (mol : Mol) (i : nat) : result string := index mol i.
Definition offset_nr_by_atom (mol : Mol) : result (list (Z * Z * Z * Z)) :=
  Ok ((fun i : nat => (Z.of_nat i, Z.of_nat i + 1, Z.of_nat i, Z.of_nat i + 1))
        <$> seq 0 (length mol)).
Definition mo_1to1map (u : ndarray Q) : result (list nat) := Ok (seq 0 (length u)).

(** [ibo_loc] with these collaborators. *)
Definition run (mol : Mol) (orbocc iaos s : nat) (exponent : Z) (grad_tol : Q)
    (max_iter : Z) : stM (store Q) nat :=
  ibo_loc Mol Mol vec_lowdin reference_mol length atom_pure_symbol offset_nr_by_atom
    mo_1to1map matmul transpose id
    mol orbocc iaos s exponent grad_tol max_iter "minao" None None.

(** The caller's arrays: [orbocc] at 0, [iaos] at 1, [s] at 2. *)
Definition H2 : Mol := ["H"; "H"].
Definition σ0 : store Q := Store [identity_Q; identity_Q; identity_Q] [].

End Example.

(** With a valid exponent and [max_iter = 5] the run converges in one
    iteration and returns a new array; the three input arrays are where they
    were, followed by the orthogonalized [iaos], [CIb] and the result. *)
Example H2_converges :
  Example.run Example.H2 0 1 2 2 (1 # 100000000) 5 Example.σ0
  = (Store (replicate 6 identity_Q)
       [DebugHeader; DebugIteration 1 2%Q 0%Q; Note false 2 1 0%Q; DebugDeviation],
     Ok 5%nat).
Proof. vm_compute. reflexivity. Qed.

Example H2_no_iteration :
  Example.run Example.H2 0 1 2 2 (1 # 100000000) 0 Example.σ0
  = (Store (replicate 5 identity_Q) [DebugHeader], Raise (UnboundLocalError "it")).
Proof. vm_compute. reflexivity. Qed.

Lemma ibo_loc_rejects_exponent_witness :
  Example.run Example.H2 0 1 2 3 (1 # 100000000) 5 Example.σ0
  = (Example.σ0, Raise AssertionError).
Proof. unfold Example.run. apply ibo_loc_rejects_exponent; lia. Defined.

Lemma ibo_loc_no_iteration_raises_witness :
  is_ok (Example.run Example.H2 0 1 2 2 (1 # 100000000) 0 Example.σ0).2 = false
  ∧ ∀ (CIb : nat) (iAtSl : list pyslice) (nAtoms numOccOrbitals : nat) (σ' : store Q),
      (vars ← iterations CIb 2 (1 # 100000000) iAtSl nAtoms numOccOrbitals
                 (py_range 0 0) (LoopVars None None false);
       report 2 vars) σ'
      = (σ', Raise (UnboundLocalError "it")).
Proof. unfold Example.run. apply ibo_loc_no_iteration_raises. lia. Defined.

Lemma loop_returns_after_max_iter_witness :
  ∃ (σ' : store Q) (sweeps : list (Q * Q)) (L g : Q),
    (vars ← iterations 0 2 (1 # 100000000) (slice_of <$> two_atoms) (length two_atoms)
               (length identity_Q) (py_range 0 5) (LoopVars None None false);
     report 2 vars) (Store [identity_Q] [])
    = (σ', Ok tt)
    ∧ Z.of_nat (S (length sweeps)) <= 5
    ∧ log σ' = [] ++ imap (iteration_event 0) (sweeps ++ [(L, g)])
                  ++ [Note (negb (flt g (1 # 100000000))) 2 (Z.of_nat (S (length sweeps))) g]
    ∧ Forall (fun Lg => flt Lg.2 (1 # 100000000) = false) sweeps
    ∧ (flt g (1 # 100000000) = false → Z.of_nat (S (length sweeps)) = 5).
Proof.
  apply (loop_returns_after_max_iter 0 2 (1 # 100000000) two_atoms 5
           (Store [identity_Q] []) identity_Q).
  - by left.
  - lia.
  - done.
Defined.
(** ** [ibo]: the dispatch entry point *)

Module PyCase.

(** [s.strip()]: blanks removed at both ends. *)
Fixpoint lstrip (s : string) : string :=
  match s with
  | String c s' => if PyStr.isspace c then lstrip s' else s
  | EmptyString => EmptyString
  end.

Definition strip (s : string) : string :=
  String.rev (lstrip (String.rev (lstrip s))).

(** [s.upper()] on ASCII letters. *)
Definition upper_char (c : ascii) : ascii :=
  let n := N_of_ascii c in
  if ((97 <=? n) && (n <=? 122))%N then ascii_of_N (n - 32) else c.

Fixpoint upper (s : string) : string :=
  match s with
  | String c s' => String (upper_char c) (upper s')
  | EmptyString => EmptyString
  end.

End PyCase.

(** The collaborators that [ibo] calls, in the order in which a run can
    reach them. *)
Inductive collaborator : Type :=
| CallPbcIntor
| CallIntorSymmetric
| CallIao
| CallPipekMezey
| CallIboLoc.

Section Dispatch.

(** The molecule or cell object, the occupied orbitals as the caller gave
    them (an array, or a list of arrays, one per k-point), arrays, and what
    a backend returns. *)
Variables Mol Orb Arr Tol Out : Type.

(** [getattr(mol, 'pbc_intor', None)] is truthy: the object is a cell. *)
Variable has_pbc_intor : Mol -> bool.
(** [isinstance(orbocc, numpy.ndarray) and orbocc.ndim == 2]. *)
Variable is_2d_ndarray : Orb -> bool.

Variable pbc_intor : Mol -> result Arr.
Variable intor_symmetric : Mol -> result Arr.
Variable iao_iao : Mol -> Orb -> result Arr.
(** [__config__.lo_ibo_PipekMezey_exponent], when the configuration has it. *)
Variable config_PipekMezey_exponent : option Z.
Variable PipekMezey : Mol -> Orb -> Arr -> Arr -> Z -> string -> result Out.
Variable ibo_loc_backend :
  Mol -> Orb -> Arr -> Arr -> Z -> Tol -> Z -> string -> result Out.

(** The arguments of [ibo]. *)
Record ibo_args : Type := IboArgs {
  arg_mol : Mol;
  arg_orbocc : Orb;
  arg_locmethod : string;
  arg_iaos : option Arr;
  arg_s : option Arr;
  arg_exponent : Z;
  arg_grad_tol : Tol;
  arg_max_iter : Z;
  arg_minao : string
}.

(** A run of [ibo]: the collaborators called, in order, and the outcome. *)
Definition traced (A : Type) : Type := list collaborator * result A.

Definition call {A : Type} (who : collaborator) (r : result A) : traced A := ([who], r).

Definition tbind {A B : Type} (m : traced A) (k : A -> traced B) : traced B :=
  match m with
  | (t, Ok a) => let '(t', r) := k a in (t ++ t', r)
  | (t, Raise e) => (t, Raise e)
  end.

Definition ibo (a : ibo_args) : traced Out :=
  tbind
    (match arg_s a with
     | Some s => ([], Ok s)
     | None =>
         if has_pbc_intor (arg_mol a) then
           if is_2d_ndarray (arg_orbocc a) then call CallPbcIntor (pbc_intor (arg_mol a))
           else ([], Raise (NotImplementedError "k-points crystal orbitals"))
         else call CallIntorSymmetric (intor_symmetric (arg_mol a))
     end)
    (fun s =>
       tbind
         (match arg_iaos a with
          | Some iaos => ([], Ok iaos)
          | None => call CallIao (iao_iao (arg_mol a) (arg_orbocc a))
          end)
         (fun iaos =>
            let locmethod := PyCase.upper (PyCase.strip (arg_locmethod a)) in
            if bool_decide (locmethod = "PM") then
              let EXPONENT := default (arg_exponent a) config_PipekMezey_exponent in
              call CallPipekMezey
                (PipekMezey (arg_mol a) (arg_orbocc a) iaos s EXPONENT (arg_minao a))
            else
              call CallIboLoc
                (ibo_loc_backend (arg_mol a) (arg_orbocc a) iaos s (arg_exponent a)
                   (arg_grad_tol a) (arg_max_iter a) (arg_minao a)))).

(** C7 (as amended).  On a cell whose orbitals are not a single 2-D array,
    and when the caller passes no overlap matrix, [ibo] raises
    [NotImplementedError] before calling any collaborator. *)
Theorem ibo_kpoints_not_implemented (a : ibo_args) :
  has_pbc_intor (arg_mol a) = true →
  is_2d_ndarray (arg_orbocc a) = false →
  arg_s a = None →
  ibo a = ([], Raise (NotImplementedError "k-points crystal orbitals")).
Proof. intros Hcell Hk Hs. unfold ibo. by rewrite Hs, Hcell, Hk. Qed.

(** With an overlap matrix supplied the first branch is not entered: the run
    goes on to the reference basis and to the backend, whatever the orbitals
    are. *)
Lemma ibo_with_overlap (a : ibo_args) (s iaos : Arr) :
  arg_s a = Some s → arg_iaos a = Some iaos →
  PyCase.upper (PyCase.strip (arg_locmethod a)) ≠ "PM" →
  ibo a = ([CallIboLoc],
           ibo_loc_backend (arg_mol a) (arg_orbocc a) iaos s (arg_exponent a)
             (arg_grad_tol a) (arg_max_iter a) (arg_minao a)).
Proof.
  intros Hs Hi Hm. unfold ibo. rewrite Hs, Hi. simpl.
  by rewrite bool_decide_false.
Qed.

End Dispatch.

(** A cell whose orbitals come as two k-point blocks, with stand-in
    backends that only record that they were reached. *)
Module CellExample.

Inductive orbitals : Type :=
| Single (c : list (list Q))
| KPoints (cs : list (list (list Q))).

Definition is_2d_ndarray (o : orbitals) : bool :=
  match o with Single _ => true | KPoints _ => false end.

Definition dispatch : ibo_args unit orbitals (list (list Q)) Q → traced unit :=
  ibo unit orbitals (list (list Q)) Q unit
    (fun _ => true) is_2d_ndarray
    (fun _ => Ok identity_Q) (fun _ => Ok identity_Q) (fun _ _ => Ok identity_Q)
    None (fun _ _ _ _ _ _ => Ok tt) (fun _ _ _ _ _ _ _ _ => Ok tt).

Definition kpoint_args (s : option (list (list Q))) :
    ibo_args unit orbitals (list (list Q)) Q :=
  IboArgs unit orbitals (list (list Q)) Q
    tt (KPoints [identity_Q; identity_Q]) "IBO" (Some identity_Q) s 4
    (1 # 100000000)%Q 200 "minao".

End CellExample.

Lemma ibo_kpoints_not_implemented_witness :
  CellExample.dispatch (CellExample.kpoint_args None)
  = ([], Raise (NotImplementedError "k-points crystal orbitals")).
Proof. by apply ibo_kpoints_not_implemented. Defined.

(** The same call with the overlap matrix supplied passes the dispatch and
    reaches the localizer. *)
Lemma ibo_kpoints_with_overlap_counterexample :
  CellExample.is_2d_ndarray (arg_orbocc _ _ _ _ (CellExample.kpoint_args (Some identity_Q)))
  = false
  ∧ CellExample.dispatch (CellExample.kpoint_args (Some identity_Q))
    = ([CallIboLoc], Ok tt).
Proof. split; reflexivity. Qed.

(** * Further properties of the module *)

(** ** [MakeAtomIbOffsets]: unknown symbols, decorated symbols, concatenation *)

Lemma for_each_app {A B : Type} (body : A -> B -> result B) (l1 l2 : list A) (st : B) :
  for_each body (l1 ++ l2) st = (st' ← for_each body l1 st; for_each body l2 st').
Proof.
  revert st. induction l1 as [|x l1 IH]; intros st; [done|].
  cbn [app for_each]. destruct (body x st) as [st'|e]; [apply IH | done].
Qed.

Lemma filter_alpha_idemp (s : string) :
  PyStr.filter_alpha (PyStr.filter_alpha s) = PyStr.filter_alpha s.
Proof.
  induction s as [|c s IH]; [done|]. simpl.
  destruct (PyStr.isalpha c) eqn:Hc; [|done]. simpl. by rewrite Hc, IH.
Qed.

Lemma append_offset_None (infos : atom_infos) (a : string) (l : list pynum) :
  nAoX infos !! PyStr.filter_alpha a = None →
  append_offset infos a l = Raise (KeyError (PyStr.filter_alpha a)).
Proof. intros Hn. unfold append_offset, getitem. by rewrite Hn. Qed.

Lemma append_offset_filter_alpha (infos : atom_infos) (a : string) (l : list pynum) :
  append_offset infos (PyStr.filter_alpha a) l = append_offset infos a l.
Proof. unfold append_offset. by rewrite filter_alpha_idemp. Qed.

Lemma known_atoms_counts (infos : atom_infos) (Atoms : list string) :
  Forall (fun a => is_Some (nAoX infos !! PyStr.filter_alpha a)) Atoms →
  ∃ ns, Forall2 (fun a n => nAoX infos !! PyStr.filter_alpha a = Some n) Atoms ns.
Proof.
  induction 1 as [|a Atoms [n Hn] _ [ns IH]]; [by exists []|].
  exists (n :: ns). by constructor.
Qed.

Lemma offsets_loop_inv (infos : atom_infos) (Atoms : list string) (acc r : list pynum) :
  for_each (append_offset infos) Atoms acc = Ok r →
  Forall (fun a => is_Some (nAoX infos !! PyStr.filter_alpha a)) Atoms.
Proof.
  revert acc. induction Atoms as [|a Atoms IH]; intros acc Hr; [done|].
  cbn [for_each] in Hr.
  destruct (nAoX infos !! PyStr.filter_alpha a) as [n|] eqn:Hn.
  - rewrite (append_offset_Some _ _ _ _ Hn) in Hr. constructor; [by rewrite Hn|].
    by eapply IH.
  - by rewrite (append_offset_None _ _ _ Hn) in Hr.
Qed.

Lemma offsets_loop_unknown (infos : atom_infos) (known rest : list string) (a : string)
    (ns acc : list pynum) (o : pynum) :
  Forall2 (fun x n => nAoX infos !! PyStr.filter_alpha x = Some n) known ns →
  nAoX infos !! PyStr.filter_alpha a = None →
  for_each (append_offset infos) (known ++ a :: rest) (acc ++ [o])
  = Raise (KeyError (PyStr.filter_alpha a)).
Proof.
  intros Hns Ha. rewrite for_each_app, (offsets_loop infos known ns acc o Hns).
  cbn [mbind result_bind for_each]. by rewrite (append_offset_None _ _ _ Ha).
Qed.

(** The call of [MakeAtomInfos] folded away. *)
Lemma MakeAtomIbOffsets_unfold (Atoms : list string) :
  MakeAtomIbOffsets Atoms
  = (iBfAt ← for_each (append_offset atom_table) Atoms [PyInt 0];
     Ok (iBfAt, atom_table)).
Proof. unfold MakeAtomIbOffsets. rewrite MakeAtomInfos_ok. reflexivity. Qed.

(** The first atom whose symbol, stripped down to its letters, has no entry
    in the table ends [MakeAtomIbOffsets] in [KeyError] on that stripped
    symbol: a ghost atom, a lower-case symbol, an empty string. *)
Theorem MakeAtomIbOffsets_unknown_symbol (known rest : list string) (a : string) :
  Forall (fun x => is_Some (nAoX atom_table !! PyStr.filter_alpha x)) known →
  nAoX atom_table !! PyStr.filter_alpha a = None →
  MakeAtomIbOffsets (known ++ a :: rest) = Raise (KeyError (PyStr.filter_alpha a)).
Proof.
  rewrite MakeAtomIbOffsets_unfold. generalize atom_table. intros infos Hknown Ha.
  destruct (known_atoms_counts infos known Hknown) as [ns Hns].
  pose proof (offsets_loop_unknown infos known rest a ns [] (PyInt 0) Hns Ha) as Hloop.
  rewrite app_nil_l in Hloop. by rewrite Hloop.
Qed.

Lemma MakeAtomIbOffsets_unknown_symbol_witness :
  MakeAtomIbOffsets (["H"; "O1"] ++ "GHOST-H" :: ["H"])
  = Raise (KeyError (PyStr.filter_alpha "GHOST-H")).
Proof.
  apply (MakeAtomIbOffsets_unknown_symbol ["H"; "O1"] ["H"] "GHOST-H").
  - repeat constructor; apply (bool_decide_unpack _); vm_compute; exact I.
  - vm_compute. reflexivity.
Defined.

(** [MakeAtomIbOffsets] returns normally exactly when every atom's
    letters-only symbol has an entry in the table. *)
Theorem MakeAtomIbOffsets_ok_iff (Atoms : list string) :
  is_ok (MakeAtomIbOffsets Atoms) = true
  ↔ Forall (fun a => is_Some (nAoX atom_table !! PyStr.filter_alpha a)) Atoms.
Proof.
  rewrite MakeAtomIbOffsets_unfold. generalize atom_table. intros infos. split.
  - destruct (for_each (append_offset infos) Atoms [PyInt 0]) as [r|e] eqn:Hr; [|done].
    intros _. by eapply offsets_loop_inv.
  - intros Hall. destruct (known_atoms_counts infos Atoms Hall) as [ns Hns].
    pose proof (offsets_loop infos Atoms ns [] (PyInt 0) Hns) as Hloop.
    rewrite app_nil_l in Hloop. by rewrite Hloop.
Qed.

(** Everything in an atom symbol that is not a letter is ignored: ["H1"],
    ["H:2"] and ["H"] are the same atom, also in the [KeyError] raised when
    the symbol is unknown. *)
Theorem MakeAtomIbOffsets_ignores_non_letters (Atoms : list string) :
  MakeAtomIbOffsets (PyStr.filter_alpha <$> Atoms) = MakeAtomIbOffsets Atoms.
Proof.
  unfold MakeAtomIbOffsets. destruct MakeAtomInfos as [infos|e]; [|done].
  cbn [mbind result_bind]. f_equal.
  generalize [PyInt 0]. induction Atoms as [|a Atoms IH]; intros acc; [done|].
  cbn [fmap list_fmap for_each]. rewrite append_offset_filter_alpha.
  destruct (append_offset infos a acc); [apply IH | done].
Qed.

Lemma py_add_assoc (a b c : pynum) : py_add (py_add a b) c = py_add a (py_add b c).
Proof. destruct a, b, c; simpl; f_equal; lia. Qed.

Lemma py_add_zero_r (a : pynum) : py_add a (PyInt 0) = a.
Proof. destruct a; simpl; f_equal; lia. Qed.

Lemma is_int_py_add (a b : pynum) : is_int (py_add a b) = is_int a && is_int b.
Proof. by destruct a, b. Qed.

Lemma running_sums_app (o : pynum) (ns1 ns2 : list pynum) :
  running_sums o (ns1 ++ ns2)
  = running_sums o ns1 ++ running_sums (last_offset (o :: running_sums o ns1)) ns2.
Proof.
  revert o. induction ns1 as [|n ns1 IH]; intros o; [done|].
  cbn [app running_sums]. rewrite IH. by destruct (running_sums (py_add o n) ns1).
Qed.

Lemma running_sums_shift (L o : pynum) (ns : list pynum) :
  py_add L <$> running_sums o ns = running_sums (py_add L o) ns.
Proof.
  revert o. induction ns as [|n ns IH]; intros o; [done|].
  cbn [running_sums fmap list_fmap]. by rewrite IH, py_add_assoc.
Qed.

Lemma offsets_result (infos : atom_infos) (Atoms : list string) (offs : list pynum)
    (infos' : atom_infos) :
  (iBfAt ← for_each (append_offset infos) Atoms [PyInt 0]; Ok (iBfAt, infos))
  = Ok (offs, infos') →
  ∃ ns, Forall2 (fun a n => nAoX infos !! PyStr.filter_alpha a = Some n) Atoms ns
        ∧ offs = PyInt 0 :: running_sums (PyInt 0) ns.
Proof.
  destruct (for_each (append_offset infos) Atoms [PyInt 0]) as [r|e] eqn:Hr; [|done].
  intros [= <- _].
  destruct (known_atoms_counts infos Atoms (offsets_loop_inv _ _ _ _ Hr)) as [ns Hns].
  exists ns. split; [done|].
  pose proof (offsets_loop infos Atoms ns [] (PyInt 0) Hns) as Hloop.
  cbn [app] in Hloop. congruence.
Qed.

(** The offsets of a concatenated atom list are the offsets of the first
    part followed by those of the second part shifted by the total of the
    first. *)
Theorem MakeAtomIbOffsets_app (Atoms1 Atoms2 : list string) (offs1 offs2 : list pynum)
    (infos1 infos2 : atom_infos) :
  MakeAtomIbOffsets Atoms1 = Ok (offs1, infos1) →
  MakeAtomIbOffsets Atoms2 = Ok (offs2, infos2) →
  MakeAtomIbOffsets (Atoms1 ++ Atoms2)
  = Ok (offs1 ++ (py_add (last_offset offs1) <$> tail offs2), atom_table).
Proof.
  rewrite !MakeAtomIbOffsets_unfold. generalize atom_table. intros infos H1 H2.
  apply offsets_result in H1 as (ns1 & Hns1 & ->).
  apply offsets_result in H2 as (ns2 & Hns2 & ->).
  assert (Forall2 (fun a n => nAoX infos !! PyStr.filter_alpha a = Some n)
            (Atoms1 ++ Atoms2) (ns1 ++ ns2)) as Hns by by apply Forall2_app.
  pose proof (offsets_loop infos (Atoms1 ++ Atoms2) (ns1 ++ ns2) [] (PyInt 0) Hns)
    as Hloop.
  cbn [app] in Hloop. rewrite Hloop. cbn [mbind result_bind tail].
  by rewrite running_sums_app, running_sums_shift, py_add_zero_r.
Qed.

Lemma MakeAtomIbOffsets_app_witness :
  MakeAtomIbOffsets (["C"; "H"] ++ ["O"; "H"])
  = Ok ([PyInt 0; PyInt 5; PyInt 6]
          ++ (py_add (last_offset [PyInt 0; PyInt 5; PyInt 6])
                <$> tail [PyInt 0; PyInt 5; PyInt 6]),
        atom_table).
Proof.
  apply (MakeAtomIbOffsets_app ["C"; "H"] ["O"; "H"]
           [PyInt 0; PyInt 5; PyInt 6] [PyInt 0; PyInt 5; PyInt 6] atom_table atom_table).
  - refine (MakeAtomIbOffsets_spec ["C"; "H"] [PyInt 5; PyInt 1] _).
    constructor; [vm_compute; reflexivity|].
    constructor; [vm_compute; reflexivity|]. constructor.
  - refine (MakeAtomIbOffsets_spec ["O"; "H"] [PyInt 5; PyInt 1] _).
    constructor; [vm_compute; reflexivity|].
    constructor; [vm_compute; reflexivity|]. constructor.
Defined.

(** ** Atoms beyond argon: float offsets, and what numpy makes of them *)

(** Both bounds of the slice are [int]s. *)
Definition int_bounds (sl : pyslice) : bool := is_int (sl_start sl) && is_int (sl_stop sl).

(** The elements whose counts in the table are written without a division. *)
Definition light_elements : list string :=
  ["H"; "He"; "Li"; "Be"; "B"; "C"; "N"; "O"; "F"; "Ne";
   "Na"; "Mg"; "Al"; "Si"; "P"; "S"; "Cl"; "Ar"].

(** From potassium on, the number of orbitals is computed from [18/2] and
    the like, and is a [float]. *)
Lemma nAoX_int_light (At : string) (n : pynum) :
  nAoX atom_table !! At = Some n → is_int n = bool_decide (At ∈ light_elements).
Proof.
  revert At n.
  change (map_Forall (fun At n => is_int n = bool_decide (At ∈ light_elements))
            (nAoX atom_table)).
  apply (bool_decide_unpack _). vm_compute. exact I.
Qed.

Lemma for_each_raise_at {A B : Type} (P : A -> Prop) (body : A -> B -> result B)
    (l1 l2 : list A) (x : A) (e : pyerr) (st : B) :
  (∀ y st, P y → ∃ st', body y st = Ok st') → Forall P l1 →
  (∀ st, body x st = Raise e) →
  for_each body (l1 ++ x :: l2) st = Raise e.
Proof.
  intros Hok Hl1 Hx. rewrite for_each_app.
  destruct (for_each_ok P body l1 st Hok Hl1) as [st' ->].
  cbn [mbind result_bind for_each]. by rewrite Hx.
Qed.

Lemma first_false {A : Type} (f : A -> bool) (l : list A) :
  Exists (fun x => f x = false) l →
  ∃ (k : nat) (x : A),
    l !! k = Some x ∧ f x = false
    ∧ ∀ (j : nat) (y : A), (j < k)%nat → l !! j = Some y → f y = true.
Proof.
  induction l as [|a l IH]; intros Hex; [by apply Exists_nil in Hex|].
  destruct (f a) eqn:Ha.
  - apply Exists_cons in Hex as [Hex|Hex]; [congruence|].
    destruct (IH Hex) as (k & x & Hk & Hx & Hbefore).
    exists (S k), x. split; [done|]. split; [done|].
    intros [|j] y Hj Hy; simpl in Hy; [by simplify_eq|].
    apply (Hbefore j); [lia|done].
  - exists 0%nat, a. split; [done|]. split; [done|]. intros j y Hj. lia.
Qed.

Section FloatSlices.
Context {F : Type} `{Arith F} `{Libm F}.

Lemma slice_rows_float (sl : pyslice) (M : ndarray F) :
  int_bounds sl = false → slice_rows sl M = Raise TypeError.
Proof.
  destruct sl as [[a|a] [b|b]]; cbv [int_bounds is_int sl_start sl_stop andb];
    intros Hb; try done.
Qed.

Lemma int_bounds_slice_of (sl : pyslice) :
  int_bounds sl = true → ∃ ab, sl = slice_of ab.
Proof.
  destruct sl as [[a|a] [b|b]]; cbv [int_bounds is_int sl_start sl_stop andb];
    intros Hb; try done.
  by exists (a, b).
Qed.

Lemma localization_functional_float_slice (p : Z) (iAtSl : list pyslice) (nAtoms k : nat)
    (sl : pyslice) (CIb : ndarray F) :
  iAtSl !! k = Some sl → int_bounds sl = false → (k < nAtoms)%nat →
  (∀ (j : nat) (sl' : pyslice), (j < k)%nat → iAtSl !! j = Some sl' → int_bounds sl' = true) →
  CIb ≠ [] →
  localization_functional p iAtSl nAtoms (length CIb) CIb = Raise TypeError.
Proof.
  intros Hk Hsl HkA Hbefore HM. unfold localization_functional.
  assert (seq 0 nAtoms = seq 0 k ++ k :: seq (S k) (nAtoms - S k)) as ->.
  { replace nAtoms with (k + S (nAtoms - S k))%nat at 1 by lia.
    by rewrite seq_app. }
  apply (for_each_raise_at (fun A => (A < k)%nat)).
  - intros A L HA.
    destruct (lookup_lt_is_Some_2 iAtSl A) as [sl' Hsl'].
    { apply lookup_lt_Some in Hk. lia. }
    destruct (int_bounds_slice_of sl' (Hbefore A sl' HA Hsl')) as [ab ->].
    apply (for_each_ok (fun i => (i < length CIb)%nat)).
    + intros i L' Hi. destruct (lookup_lt_is_Some_2 CIb i Hi) as [c Hc].
      unfold index. rewrite Hsl'. rewrite bind_Ok, slice_rows_int, bind_Ok. cbv beta.
      rewrite (column_fmap _ _ i c), bind_Ok by done. eauto.
    + apply Forall_forall. intros i Hi. apply elem_of_seq in Hi. lia.
  - apply Forall_forall. intros A HA. apply elem_of_seq in HA. lia.
  - intros L. destruct CIb as [|c CIb]; [done|].
    cbn [length seq for_each]. unfold index. rewrite Hk. rewrite bind_Ok.
    by rewrite slice_rows_float.
Qed.

Lemma iteration_float_slice (p : Z) (iAtSl : list pyslice) (CIb : ndarray F) :
  Exists (fun sl => int_bounds sl = false) iAtSl → CIb ≠ [] →
  iteration p iAtSl (length iAtSl) (length CIb) CIb = (CIb, Raise TypeError).
Proof.
  intros Hex HM. destruct (first_false int_bounds iAtSl Hex) as (k & sl & Hk & Hsl & Hb).
  cbv [iteration mbind stM_bind st_get st_lift].
  rewrite (localization_functional_float_slice p iAtSl (length iAtSl) k sl CIb); try done.
  by eapply lookup_lt_Some.
Qed.

End FloatSlices.

Lemma Forall2_Exists {A B : Type} (R : A -> B -> Prop) (P : A -> Prop) (Q : B -> Prop)
    (l1 : list A) (l2 : list B) :
  (∀ x y, R x y → P x → Q y) → Forall2 R l1 l2 → Exists P l1 → Exists Q l2.
Proof.
  intros HPQ Hall. induction Hall as [|x y l1 l2 Hxy _ IH]; intros Hex.
  - by apply Exists_nil in Hex.
  - apply Exists_cons in Hex as [Hx|Hex]; [left; eauto | right; auto].
Qed.

Lemma float_count_float_slice (o : pynum) (ns : list pynum) (slices : list pyslice) :
  (∀ (k : nat) (a b : pynum),
     (k < length ns)%nat →
     (o :: running_sums o ns) !! k = Some a → (o :: running_sums o ns) !! S k = Some b →
     slices !! k = Some (Slice a b)) →
  Exists (fun n => is_int n = false) ns →
  Exists (fun sl => int_bounds sl = false) slices.
Proof.
  intros Hsl Hex. apply Exists_exists in Hex as (n & Hin & Hn).
  apply list_elem_of_lookup in Hin as [k Hk].
  destruct (running_sums_lookup o ns k n Hk) as (a & b & Ha & Hb & ->).
  apply Exists_exists. exists (Slice a (py_add a n)). split.
  - eapply list_elem_of_lookup_2. apply Hsl; [by eapply lookup_lt_Some|done..].
  - unfold int_bounds. cbn [sl_start sl_stop]. rewrite is_int_py_add, Hn.
    by destruct (is_int a).
Qed.

(** A molecule with an atom beyond argon.  The offsets are built normally,
    but from that atom on they are floats, so one of the atom slices has a
    float bound; numpy refuses such a slice, and the first iteration of
    [ibo_loc] on a projection with at least one column ends in [TypeError]
    before any rotation, with the projection as it was. *)
Theorem heavy_atom_float_slices (Atoms : list string) :
  Forall (fun a => is_Some (nAoX atom_table !! PyStr.filter_alpha a)) Atoms →
  Exists (fun a => PyStr.filter_alpha a ∉ light_elements) Atoms →
  ∃ (offs : list pynum) (slices : list pyslice),
    MakeAtomIbOffsets Atoms = Ok (offs, atom_table)
    ∧ atom_slices offs (length Atoms) = Ok slices
    ∧ Exists (fun sl => int_bounds sl = false) slices
    ∧ ∀ (F : Type) (HA : Arith F) (HL : Libm F) (p : Z) (CIb : ndarray F),
        CIb ≠ [] →
        iteration p slices (length Atoms) (length CIb) CIb = (CIb, Raise TypeError).
Proof.
  intros Hall Hheavy.
  destruct (known_atoms_counts atom_table Atoms Hall) as [ns Hns].
  assert (Exists (fun n => is_int n = false) ns) as Hfloat.
  { eapply (Forall2_Exists _ _ _ Atoms ns); [|exact Hns|exact Hheavy].
    intros a n Han Ha. cbv beta in Han, Ha.
    rewrite (nAoX_int_light _ _ Han). by apply bool_decide_false. }
  pose proof (Forall2_length _ _ _ Hns) as Hlen.
  destruct (atom_slices_loop (PyInt 0 :: running_sums (PyInt 0) ns) (length ns) 0 [])
    as (slices & Hslices & Hlsl & Hlookup).
  { simpl. rewrite running_sums_length. lia. }
  exists (PyInt 0 :: running_sums (PyInt 0) ns), slices.
  assert (Exists (fun sl => int_bounds sl = false) slices) as Hex.
  { apply (float_count_float_slice (PyInt 0) ns); [|done].
    intros k a b Hk Ha Hb. by apply Hlookup. }
  split; [by apply MakeAtomIbOffsets_spec|].
  split; [unfold atom_slices; by rewrite Hlen|].
  split; [done|].
  intros F HA HL p CIb HM. rewrite Hlen, <- Hlsl.
  by apply iteration_float_slice.
Qed.

Lemma heavy_atom_float_slices_witness :
  ∃ (offs : list pynum) (slices : list pyslice),
    MakeAtomIbOffsets ["H"; "K"; "H"] = Ok (offs, atom_table)
    ∧ atom_slices offs 3 = Ok slices
    ∧ Exists (fun sl => int_bounds sl = false) slices
    ∧ ∀ (F : Type) (HA : Arith F) (HL : Libm F) (p : Z) (CIb : ndarray F),
        CIb ≠ [] →
        iteration p slices 3 (length CIb) CIb = (CIb, Raise TypeError).
Proof.
  apply (heavy_atom_float_slices ["H"; "K"; "H"]).
  - constructor; [apply (bool_decide_unpack _); vm_compute; exact I|].
    constructor; [apply (bool_decide_unpack _); vm_compute; exact I|].
    constructor; [apply (bool_decide_unpack _); vm_compute; exact I|]. constructor.
  - right. left. apply (bool_decide_unpack _). vm_compute. exact I.
Defined.

(** C2 (the defect).  With an atom beyond argon the offsets do not cut the
    index range into usable slices.  For hydrogen, fluorine and potassium
    they are [0, 1, 6, 16.0]: the count of potassium is computed as
    [18/2+1], a [float], and so is every offset after it.  The third slice
    is [slice(6, 16.0)]; numpy raises [TypeError] on it whatever the array,
    so that the indices 6 to 15 are selected by no slice. *)
Theorem atom_offsets_float_bound :
  MakeAtomIbOffsets ["H"; "F"; "K"]
  = Ok ([PyInt 0; PyInt 1; PyInt 6; PyFloat 16], atom_table)
  ∧ atom_slices [PyInt 0; PyInt 1; PyInt 6; PyFloat 16] 3
    = Ok [int_slice 0 1; int_slice 1 6; Slice (PyInt 6) (PyFloat 16)]
  ∧ (∀ x : Z, 6 <= x < 16 →
     ¬ ∃ (k : nat) (sl : pyslice),
         [int_slice 0 1; int_slice 1 6; Slice (PyInt 6) (PyFloat 16)] !! k = Some sl
         ∧ in_slice sl x)
  ∧ (∀ (F : Type) (M : ndarray F),
       slice_rows (Slice (PyInt 6) (PyFloat 16)) M = Raise TypeError).
Proof.
  split; [|split; [done|split; [|done]]].
  - apply (MakeAtomIbOffsets_spec ["H"; "F"; "K"] [PyInt 1; PyInt 5; PyFloat 10]).
    constructor; [vm_compute; reflexivity|].
    constructor; [vm_compute; reflexivity|].
    constructor; [vm_compute; reflexivity|]. constructor.
  - intros x Hx (k & sl & Hk & Hin).
    destruct k as [|[|[|k]]]; simpl in Hk; simplify_eq; cbv [in_slice int_slice
      sl_start sl_stop] in Hin; lia.
Qed.

(** ** [get_offset]: what it reads of a label, and malformed labels *)

Lemma get_offset_body_token (i : nat) (lab lab' : string) (st : offset_state) :
  atom_token lab = atom_token lab' →
  get_offset_body (i, lab) st = get_offset_body (i, lab') st.
Proof.
  unfold atom_token, get_offset_body.
  destruct (PyStr.split lab) as [|t ts], (PyStr.split lab') as [|t' ts'];
    simpl; intros Heq; by simplify_eq.
Qed.

Lemma enumerate_from_app {A : Type} (i : nat) (l1 l2 : list A) :
  enumerate_from i (l1 ++ l2)
  = enumerate_from i l1 ++ enumerate_from (i + length l1) l2.
Proof.
  revert i. induction l1 as [|x l1 IH]; intros i; simpl.
  - by rewrite Nat.add_0_r.
  - rewrite IH. do 3 f_equal. lia.
Qed.

Lemma get_offset_loop_tokens (labels labels' : list string) (i : nat) (st : offset_state) :
  Forall2 (fun l l' => atom_token l = atom_token l') labels labels' →
  for_each get_offset_body (enumerate_from i labels) st
  = for_each get_offset_body (enumerate_from i labels') st.
Proof.
  intros Hall. revert i st.
  induction Hall as [|l l' labels labels' Hl _ IH]; intros i st; [done|].
  cbn [enumerate_from for_each]. rewrite (get_offset_body_token i l l' st Hl).
  destruct (get_offset_body (i, l') st); [apply IH | done].
Qed.

(** [get_offset] reads nothing of a label but its first blank-separated
    token: two label sequences with the same leading tokens, position by
    position, give the same slices or the same exception. *)
Theorem get_offset_first_token_only (labels labels' : list string) :
  Forall2 (fun l l' => atom_token l = atom_token l') labels labels' →
  get_offset labels = get_offset labels'.
Proof.
  intros Hall. unfold get_offset, enumerate.
  rewrite (get_offset_loop_tokens labels labels' 0 _ Hall).
  assert (last_index labels = last_index labels') as ->; [|done].
  pose proof (Forall2_length _ _ _ Hall) as Hlen.
  clear Hall. destruct labels, labels'; try done.
  unfold last_index. f_equal. simpl in *. lia.
Qed.

Lemma get_offset_first_token_only_witness :
  get_offset ["0 H 1s"; "0 H 2s"; "1 O 2px"] = get_offset ["0"; "0 x"; "1  O  anything"].
Proof.
  apply get_offset_first_token_only.
  constructor; [reflexivity|]. constructor; [reflexivity|].
  constructor; [reflexivity|]. constructor.
Defined.

Lemma get_offset_accepted_prefix (pre : list string) :
  pre = [] ∨ is_ok (get_offset pre) = true →
  ∃ st, for_each get_offset_body (enumerate pre)
          {| offset := []; last_id := "-1"; last_i := -1 |} = Ok st.
Proof.
  intros [-> | Hok]; [by eexists|].
  unfold get_offset in Hok.
  destruct (for_each get_offset_body (enumerate pre) _) as [st|e]; [by exists st|done].
Qed.

(** The first label that does not start with an integer.  After labels that
    [get_offset] accepts, a blank label ends the call in [IndexError] (there
    is no token to read), and a label whose first token is not an [int]
    literal ends it in the [ValueError] of [int]; the labels that follow are
    not looked at. *)
Theorem get_offset_malformed_label (pre rest : list string) (lab : string) :
  pre = [] ∨ is_ok (get_offset pre) = true →
  (atom_token lab = None → get_offset (pre ++ lab :: rest) = Raise IndexError)
  ∧ (∀ tok, atom_token lab = Some tok → is_ok (PyStr.int tok) = false →
       get_offset (pre ++ lab :: rest) = Raise (ValueError (InvalidIntLiteral tok))).
Proof.
  intros Hpre. destruct (get_offset_accepted_prefix pre Hpre) as [st Hst].
  unfold get_offset, enumerate in *.
  rewrite enumerate_from_app, for_each_app, Hst. cbn [mbind result_bind].
  cbn [enumerate_from for_each]. unfold atom_token, get_offset_body.
  split.
  - intros Htok. by destruct (PyStr.split lab).
  - intros tok Htok Hint. destruct (PyStr.split lab) as [|t ts]; simplify_eq/=.
    unfold PyStr.int in *. by destruct (match tok with String _ _ => _ | _ => _ end).
Qed.

Lemma get_offset_malformed_label_witness :
  (atom_token "   " = None
   → get_offset (["0 H 1s"; "1 O 1s"] ++ "   " :: ["2 H 1s"]) = Raise IndexError)
  ∧ (∀ tok, atom_token "   " = Some tok → is_ok (PyStr.int tok) = false →
       get_offset (["0 H 1s"; "1 O 1s"] ++ "   " :: ["2 H 1s"])
       = Raise (ValueError (InvalidIntLiteral tok))).
Proof.
  apply (get_offset_malformed_label ["0 H 1s"; "1 O 1s"] ["2 H 1s"] "   ").
  right. vm_compute. reflexivity.
Defined.

(** ** The shape of the projection during an iteration *)

Lemma st_for_each_inv {S A B : Type} (I : S -> Prop) (body : A -> B -> stM S B)
    (l : list A) (b : B) (σ : S) :
  (∀ x b σ, I σ → I (body x b σ).1) → I σ → I (st_for_each body l b σ).1.
Proof.
  intros Hbody. revert b σ. induction l as [|x l IH]; intros b σ Hσ; [done|].
  cbn [st_for_each]. unfold mbind, stM_bind. specialize (Hbody x b σ Hσ).
  destruct (body x b σ) as [σ' [b'|e]]; simpl in *; [by apply IH | done].
Qed.

Section Shape.
Context {F : Type} `{Arith F} `{Libm F}.

(** [M.shape == (rows, n)]. *)
Definition has_shape (rows n : nat) (M : ndarray F) : Prop :=
  length M = n ∧ Forall (fun c => length c = rows) M.

(** Columns other than [i] and [j] are as in [M]. *)
Definition same_columns_but (i j : nat) (M M' : ndarray F) : Prop :=
  ∀ k : nat, k ≠ i → k ≠ j → M' !! k = M !! k.

Lemma rotated_length (a b : F) (ci cj : list F) (rows : nat) :
  length ci = rows → length cj = rows →
  length (vadd (vscale a ci) (vscale b cj)) = rows.
Proof.
  intros Hi Hj. unfold vadd, vscale.
  rewrite length_zip_with, !length_fmap. lia.
Qed.

Lemma set_column_shape (rows n i : nat) (v : list F) (M : ndarray F) :
  has_shape rows n M → length v = rows → has_shape rows n (set_column i v M).1.
Proof.
  intros [Hn Hrows] Hv. unfold set_column. case_bool_decide; [|done].
  cbn [fst]. split; [by rewrite length_insert | by apply Forall_insert].
Qed.

Lemma set_column_others (i : nat) (v : list F) (M : ndarray F) (k : nat) :
  k ≠ i → (set_column i v M).1 !! k = M !! k.
Proof.
  intros Hk. unfold set_column. case_bool_decide; [|done].
  cbn [fst]. by apply list_lookup_insert_ne.
Qed.

Lemma rotate_pair_shape (p : Z) (iAtSl : list pyslice) (nAtoms i j : nat) (fGrad : F)
    (rows n : nat) (M : ndarray F) :
  has_shape rows n M →
  has_shape rows n (rotate_pair p iAtSl nAtoms i j fGrad M).1.
Proof.
  intros HM. unfold rotate_pair.
  unfold mbind at 1, stM_bind at 1, st_get. cbv iota beta.
  unfold mbind at 1, stM_bind at 1, st_lift. cbv iota beta.
  destruct (pair_coefficients p iAtSl nAtoms M i j) as [[Aij Bij]|e]; [|done].
  destruct (flt _ _); [done|].
  unfold mbind at 1, stM_bind at 1, copy_column at 1, column.
  destruct (M !! i) as [ci|] eqn:Hi; [|done].
  unfold mbind at 1, stM_bind at 1, copy_column at 1, column.
  destruct (M !! j) as [cj|] eqn:Hj; [|done].
  assert (length ci = rows) as Hci
    by (by eapply (proj1 (Forall_lookup _ _) (proj2 HM))).
  assert (length cj = rows) as Hcj
    by (by eapply (proj1 (Forall_lookup _ _) (proj2 HM))).
  set (vi := vadd (vscale (np_cos _) ci) (vscale (np_sin _) cj)).
  set (vj := vadd (vscale (- _)%F ci) (vscale (np_cos _) cj)).
  assert (length vi = rows) as Hvi by by apply rotated_length.
  assert (length vj = rows) as Hvj by by apply rotated_length.
  pose proof (set_column_shape rows n i vi M HM Hvi) as H1.
  unfold mbind at 1, stM_bind at 1.
  destruct (set_column i vi M) as [M1 [[]|e1]]; [|exact H1].
  pose proof (set_column_shape rows n j vj M1 H1 Hvj) as H2.
  unfold mbind at 1, stM_bind at 1.
  destruct (set_column j vj M1) as [M2 [[]|e2]]; exact H2.
Qed.

Lemma rotate_pair_frame (p : Z) (iAtSl : list pyslice) (nAtoms i j : nat) (fGrad : F)
    (M : ndarray F) :
  same_columns_but i j M (rotate_pair p iAtSl nAtoms i j fGrad M).1.
Proof.
  unfold rotate_pair.
  unfold mbind at 1, stM_bind at 1, st_get. cbv iota beta.
  unfold mbind at 1, stM_bind at 1, st_lift. cbv iota beta.
  destruct (pair_coefficients p iAtSl nAtoms M i j) as [[Aij Bij]|e]; [|done].
  destruct (flt _ _); [done|].
  unfold mbind at 1, stM_bind at 1, copy_column at 1, column.
  destruct (M !! i) as [ci|] eqn:Hi; [|done].
  unfold mbind at 1, stM_bind at 1, copy_column at 1, column.
  destruct (M !! j) as [cj|] eqn:Hj; [|done].
  set (vi := vadd (vscale (np_cos _) ci) (vscale (np_sin _) cj)).
  set (vj := vadd (vscale (- _)%F ci) (vscale (np_cos _) cj)).
  pose proof (set_column_others i vi M) as O1.
  unfold mbind at 1, stM_bind at 1.
  destruct (set_column i vi M) as [M1 [[]|e1]]; [|intros k Hki _; by apply O1].
  pose proof (set_column_others j vj M1) as O2.
  unfold mbind at 1, stM_bind at 1.
  assert (∀ k, k ≠ i → k ≠ j → (set_column j vj M1).1 !! k = M !! k) as O12.
  { intros k Hki Hkj. rewrite O2 by done. by apply O1. }
  destruct (set_column j vj M1) as [M2 [[]|e2]]; exact O12.
Qed.

Lemma sweep_shape (p : Z) (iAtSl : list pyslice) (nAtoms nOcc : nat)
    (rows n : nat) (M : ndarray F) :
  has_shape rows n M → has_shape rows n (sweep p iAtSl nAtoms nOcc M).1.
Proof.
  intros HM. unfold sweep.
  apply (st_for_each_inv (has_shape rows n)); [|done].
  intros i g M1 HM1. apply (st_for_each_inv (has_shape rows n)); [|done].
  intros j g' M2 HM2. by apply rotate_pair_shape.
Qed.

(** Whatever its outcome, an iteration leaves the projection with the
    number of rows and columns it had: a rotation replaces two columns by
    columns of the same length, and nothing else is written. *)
Theorem iteration_keeps_shape (p : Z) (iAtSl : list pyslice) (nAtoms nOcc : nat)
    (rows n : nat) (M : ndarray F) :
  has_shape rows n M → has_shape rows n (iteration p iAtSl nAtoms nOcc M).1.
Proof.
  intros HM. unfold iteration.
  unfold mbind at 1, stM_bind at 1, st_get. cbv iota beta.
  unfold mbind at 1, stM_bind at 1, st_lift. cbv iota beta.
  destruct (localization_functional p iAtSl nAtoms nOcc M) as [L|e]; [|done].
  unfold mbind, stM_bind. pose proof (sweep_shape p iAtSl nAtoms nOcc rows n M HM) as Hs.
  destruct (sweep p iAtSl nAtoms nOcc M) as [M' [g|e]]; exact Hs.
Qed.

(** One pair touches two columns at most: every column other than [i] and
    [j] is, after [rotate_pair], what it was before, whether the pair is
    skipped, rotated, or the step raises. *)
Theorem rotate_pair_touches_two_columns (p : Z) (iAtSl : list pyslice)
    (nAtoms i j : nat) (fGrad : F) (M : ndarray F) :
  same_columns_but i j M (rotate_pair p iAtSl nAtoms i j fGrad M).1.
Proof. apply rotate_pair_frame. Qed.

End Shape.

Lemma iteration_keeps_shape_witness :
  has_shape 2 2 (iteration 2 (slice_of <$> two_atoms) 2 2 identity_Q).1.
Proof.
  apply iteration_keeps_shape. split; [done|]. by repeat constructor.
Defined.

(** ** The array that [ibo_loc] returns *)

Section Returned.
Context {F : Type} `{Arith F} `{Libm F}.
Variables Mol IaoMol : Type.
Variable vec_lowdin : ndarray F -> option (ndarray F) -> result (ndarray F).
Variable reference_mol : Mol -> string -> result IaoMol.
Variable natm : IaoMol -> nat.
Variable atom_pure_symbol : IaoMol -> nat -> result string.
Variable offset_nr_by_atom : IaoMol -> result (list (Z * Z * Z * Z)).
Variable mo_1to1map : ndarray F -> result (list nat).
Variable np_dot : ndarray F -> ndarray F -> result (ndarray F).
Variable np_T : ndarray F -> ndarray F.
Variable np_conj : ndarray F -> ndarray F.

(** A returned location holds an array of the final store. *)
Definition returns_array (m : stM (store F) nat) : Prop :=
  ∀ (σ σ' : store F) (l : nat), m σ = (σ', Ok l) → (l < length (heap σ'))%nat.

Lemma returns_array_bind {A : Type} (m : stM (store F) A) (k : A -> stM (store F) nat) :
  (∀ a, returns_array (k a)) → returns_array (m ≫= k).
Proof.
  intros Hk σ σ' l. unfold mbind, stM_bind.
  destruct (m σ) as [σ1 [a|e]]; [apply Hk | done].
Qed.

Lemma returns_array_alloc (M : ndarray F) : returns_array (alloc M).
Proof.
  intros σ σ' l [= <- <-]. cbn [heap]. rewrite length_app. simpl. lia.
Qed.

Lemma returns_array_ibo_loc (mol : Mol) (orbocc iaos s : nat) (exponent : Z)
    (grad_tol : F) (max_iter : Z) (minao : string) (iao_mol : option IaoMol)
    (labels : option (list string)) :
  returns_array
    (ibo_loc Mol IaoMol vec_lowdin reference_mol natm atom_pure_symbol
       offset_nr_by_atom mo_1to1map np_dot np_T np_conj
       mol orbocc iaos s exponent grad_tol max_iter minao iao_mol labels).
Proof.
  unfold ibo_loc.
  repeat (apply returns_array_bind; intros ?; cbv zeta).
  apply returns_array_alloc.
Qed.

(** When [ibo_loc] returns, the array it returns is one that the call has
    created: it is none of the arrays that existed before, the caller's
    [orbocc], [iaos] and [s] included, and it is held by the final store. *)
Theorem ibo_loc_returns_new_array (mol : Mol) (orbocc iaos s : nat) (exponent : Z)
    (grad_tol : F) (max_iter : Z) (minao : string) (iao_mol : option IaoMol)
    (labels : option (list string)) (σ σ' : store F) (returned : nat) :
  ibo_loc Mol IaoMol vec_lowdin reference_mol natm atom_pure_symbol
    offset_nr_by_atom mo_1to1map np_dot np_T np_conj
    mol orbocc iaos s exponent grad_tol max_iter minao iao_mol labels σ
  = (σ', Ok returned) →
  (length (heap σ) ≤ returned < length (heap σ'))%nat.
Proof.
  intros Hrun. split.
  - destruct (frames_ibo_loc Mol IaoMol vec_lowdin reference_mol natm atom_pure_symbol
                offset_nr_by_atom mo_1to1map np_dot np_T np_conj
                (length (heap σ)) mol orbocc iaos s exponent grad_tol max_iter minao
                iao_mol labels σ) as (_ & _ & Hret); [done|].
    apply Hret. by rewrite Hrun.
  - by eapply returns_array_ibo_loc.
Qed.

End Returned.

Lemma ibo_loc_returns_new_array_witness :
  (length (heap Example.σ0) ≤ 5
   < length (heap (Store (replicate 6 identity_Q)
                     [DebugHeader; DebugIteration 1 2%Q 0%Q; Note false 2 1 0%Q;
                      DebugDeviation])))%nat.
Proof.
  eapply ibo_loc_returns_new_array. exact H2_converges.
Defined.

(** ** [ibo]: the order of the calls *)

#[global] Instance collaborator_eq_dec : EqDecision collaborator.
Proof. solve_decision. Defined.

(** The step of [ibo] at which a collaborator is called: the overlap
    matrix, the reference basis, the backend. *)
Definition stage (c : collaborator) : nat :=
  match c with
  | CallPbcIntor | CallIntorSymmetric => 0
  | CallIao => 1
  | CallPipekMezey | CallIboLoc => 2
  end.

(** Each call belongs to a later step than the call before it. *)
Fixpoint strictly_staged (last : option nat) (t : list collaborator) : bool :=
  match t with
  | [] => true
  | c :: t' =>
      match last with
      | Some n => (n <? stage c)%nat
      | None => true
      end && strictly_staged (Some (stage c)) t'
  end.

Section DispatchProtocol.
Variables Mol Orb Arr Tol Out : Type.
Variable has_pbc_intor : Mol -> bool.
Variable is_2d_ndarray : Orb -> bool.
Variable pbc_intor : Mol -> result Arr.
Variable intor_symmetric : Mol -> result Arr.
Variable iao_iao : Mol -> Orb -> result Arr.
Variable config_PipekMezey_exponent : option Z.
Variable PipekMezey : Mol -> Orb -> Arr -> Arr -> Z -> string -> result Out.
Variable ibo_loc_backend :
  Mol -> Orb -> Arr -> Arr -> Z -> Tol -> Z -> string -> result Out.

Local Abbreviation ibo' :=
  (ibo Mol Orb Arr Tol Out has_pbc_intor is_2d_ndarray pbc_intor intor_symmetric
     iao_iao config_PipekMezey_exponent PipekMezey ibo_loc_backend).

(** Whatever the arguments and whatever the collaborators answer, [ibo]
    calls at most one overlap routine, then at most the reference-basis
    builder, then at most one backend, in this order; an overlap matrix or a
    reference basis that the caller supplies is not computed again; and a
    normal return always comes out of a backend. *)
Theorem ibo_call_protocol (a : ibo_args Mol Orb Arr Tol) :
  strictly_staged None (ibo' a).1 = true
  ∧ (is_Some (arg_s _ _ _ _ a) →
       (CallPbcIntor ∉ (ibo' a).1) ∧ (CallIntorSymmetric ∉ (ibo' a).1))
  ∧ (is_Some (arg_iaos _ _ _ _ a) → CallIao ∉ (ibo' a).1)
  ∧ (CallPipekMezey ∈ (ibo' a).1 → CallIboLoc ∉ (ibo' a).1)
  ∧ (is_ok ((ibo' a).2) = true →
       CallPipekMezey ∈ (ibo' a).1 ∨ CallIboLoc ∈ (ibo' a).1).
Proof.
  unfold ibo, tbind, call.
  destruct (arg_s _ _ _ _ a) as [s|], (arg_iaos _ _ _ _ a) as [iaos|];
    repeat first
      [ progress cbn [fst snd app]
      | match goal with
        | |- context [if ?b then _ else _] => destruct b
        | |- context [match ?r with Ok _ => _ | Raise _ => _ end] => destruct r
        | |- context [is_ok ?r] =>
            lazymatch r with Ok _ => fail | Raise _ => fail | _ => destruct r end
        end ];
    apply (bool_decide_unpack _); vm_compute; exact I.
Qed.

End DispatchProtocol.

(** ** The table that [MakeAtomInfos] returns *)

(** The number of core labels, [len([o for o in Labels if o.startswith('[')])]. *)
Definition count_core (labels : list string) : nat :=
  length (filter (fun o => Fmt.starts_with_bracket o = true) labels).

(** The two assertions of [SetAo], checked on a finished table, together
    with two more facts about the labels: they are pairwise different, and
    not all of them are core labels. *)
Definition row_ok (infos : atom_infos) (At : string) (labels : list string) : bool :=
  match nAoX infos !! At, nCoreX infos !! At with
  | Some n, Some c =>
      bool_decide (num_val n = Z.of_nat (length labels))
      && bool_decide (num_val c = Z.of_nat (count_core labels))
      && bool_decide (NoDup labels)
      && bool_decide (count_core labels < length labels)%nat
  | _, _ => false
  end.

Lemma row_ok_spec (infos : atom_infos) (At : string) (labels : list string) :
  row_ok infos At labels = true →
  ∃ n c : pynum,
    nAoX infos !! At = Some n ∧ nCoreX infos !! At = Some c
    ∧ num_val n = Z.of_nat (length labels)
    ∧ num_val c = Z.of_nat (count_core labels)
    ∧ NoDup labels
    ∧ (count_core labels < length labels)%nat.
Proof.
  unfold row_ok. destruct (nAoX infos !! At) as [n|]; [|done].
  destruct (nCoreX infos !! At) as [c|]; [|done].
  rewrite !andb_true_iff, !bool_decide_eq_true. intros [[[Hn Hc] Hd] Hv].
  by exists n, c.
Qed.

Lemma atom_table_rows :
  map_Forall (fun At labels => row_ok atom_table At labels = true) (AoLabels atom_table).
Proof. apply (bool_decide_unpack _). vm_compute. exact I. Qed.

Lemma atom_table_keys_nAoX :
  map_Forall (fun At _ => is_Some (AoLabels atom_table !! At)) (nAoX atom_table).
Proof. apply (bool_decide_unpack _). vm_compute. exact I. Qed.

Lemma atom_table_keys_nCoreX :
  map_Forall (fun At _ => is_Some (AoLabels atom_table !! At)) (nCoreX atom_table).
Proof. apply (bool_decide_unpack _). vm_compute. exact I. Qed.

Lemma atom_table_size : size (AoLabels atom_table) = 118%nat.
Proof. vm_compute. reflexivity. Qed.

(** The three dictionaries describe the same 118 elements, and for each of
    them the labels agree with the two counts, as [SetAo] asserted when the
    element was entered: [nAoX] is the number of labels and [nCoreX] the
    number of bracketed ones.  The labels of an element are pairwise
    different and at least one of them is a valence label. *)
Theorem atom_table_consistent (At : string) :
  size (AoLabels atom_table) = 118%nat
  ∧ (is_Some (nAoX atom_table !! At) ↔ is_Some (AoLabels atom_table !! At))
  ∧ (is_Some (nCoreX atom_table !! At) ↔ is_Some (AoLabels atom_table !! At))
  ∧ ∀ labels : list string,
      AoLabels atom_table !! At = Some labels →
      ∃ n c : pynum,
        nAoX atom_table !! At = Some n ∧ nCoreX atom_table !! At = Some c
        ∧ num_val n = Z.of_nat (length labels)
        ∧ num_val c = Z.of_nat (count_core labels)
        ∧ NoDup labels
        ∧ (count_core labels < length labels)%nat.
Proof.
  pose proof atom_table_rows as Hrows.
  pose proof atom_table_keys_nAoX as HkA.
  pose proof atom_table_keys_nCoreX as HkC.
  pose proof atom_table_size as Hsize.
  revert Hrows HkA HkC Hsize. generalize atom_table. intros infos Hrows HkA HkC Hsize.
  split; [done|].
  assert (∀ labels, AoLabels infos !! At = Some labels →
            ∃ n c : pynum,
              nAoX infos !! At = Some n ∧ nCoreX infos !! At = Some c
              ∧ num_val n = Z.of_nat (length labels)
              ∧ num_val c = Z.of_nat (count_core labels)
              ∧ NoDup labels
              ∧ (count_core labels < length labels)%nat) as Hrow.
  { intros labels Hl. apply row_ok_spec. by apply (Hrows At labels). }
  split; [|split; [|done]].
  - split.
    + intros [n Hn]. by apply (HkA At n).
    + intros [labels Hl]. destruct (Hrow labels Hl) as (n & c & Hn & _). by exists n.
  - split.
    + intros [c Hc]. by apply (HkC At c).
    + intros [labels Hl]. destruct (Hrow labels Hl) as (n & c & _ & Hc & _). by exists c.
Qed.

(** ** Slices from labels can always be iterated with *)

Lemma get_offset_body_int_slices (il : nat * string) (st st' : offset_state) :
  get_offset_body il st = Ok st' →
  Forall (fun sl => int_bounds sl = true) (offset st) →
  Forall (fun sl => int_bounds sl = true) (offset st').
Proof.
  destruct il as [i lab]. unfold get_offset_body.
  destruct (PyStr.split lab) as [|cur_id ?]; [done|].
  destruct (PyStr.int cur_id) as [c|?]; [|done].
  destruct (PyStr.int (last_id st)) as [lid|?]; [|done].
  cbn [mbind result_bind]. destruct (c <? lid); [done|].
  destruct (bool_decide (cur_id ≠ last_id st)); intros [= <-] Hst; [|done].
  cbn [offset]. destruct (0 <=? last_i st); [|done].
  apply Forall_app. split; [done|]. by repeat constructor.
Qed.

Lemma get_offset_loop_int_slices (ils : list (nat * string)) (st st' : offset_state) :
  for_each get_offset_body ils st = Ok st' →
  Forall (fun sl => int_bounds sl = true) (offset st) →
  Forall (fun sl => int_bounds sl = true) (offset st').
Proof.
  revert st. induction ils as [|il ils IH]; intros st Hrun Hst.
  - cbn [for_each] in Hrun. by simplify_eq.
  - cbn [for_each] in Hrun.
    destruct (get_offset_body il st) as [st1|e] eqn:Hbody; [|done].
    apply (IH st1 Hrun). by eapply get_offset_body_int_slices.
Qed.

Lemma int_slices_rows (slices : list pyslice) :
  Forall (fun sl => int_bounds sl = true) slices →
  ∃ atoms : list (Z * Z), slices = slice_of <$> atoms.
Proof.
  induction 1 as [|sl slices Hsl _ [atoms ->]]; [by exists []|].
  destruct (int_bounds_slice_of sl Hsl) as [ab ->]. by exists (ab :: atoms).
Qed.

(** Whatever the labels, the slices that [get_offset] returns have integer
    bounds, so that an iteration of [ibo_loc] that uses them (exponent 2 or
    4) runs to its end on any projection matrix: the [TypeError] of the
    default route for atoms beyond argon cannot occur on the label route. *)
Theorem get_offset_slices_iterate (labels : list string) (slices : list pyslice) :
  get_offset labels = Ok slices →
  Forall (fun sl => int_bounds sl = true) slices
  ∧ ∀ (F : Type) (HA : Arith F) (HL : Libm F) (p : Z) (CIb : ndarray F),
      p = 2 ∨ p = 4 →
      ∃ (CIb' : ndarray F) (L g : F),
        iteration p slices (length slices) (length CIb) CIb = (CIb', Ok (L, g))
        ∧ length CIb' = length CIb.
Proof.
  intros Hget.
  assert (Forall (fun sl => int_bounds sl = true) slices) as Hints.
  { unfold get_offset in Hget.
    destruct (for_each get_offset_body (enumerate labels) _) as [st|e] eqn:Hloop;
      [|done].
    cbn [mbind result_bind] in Hget.
    destruct (last_index labels) as [i|]; [|done]. injection Hget as <-.
    apply Forall_app. split; [|by repeat constructor].
    by apply (get_offset_loop_int_slices _ _ _ Hloop). }
  split; [done|]. intros F HA HL p CIb Hp.
  destruct (int_slices_rows slices Hints) as [atoms ->].
  rewrite length_fmap. by apply iteration_total.
Qed.

Lemma get_offset_slices_iterate_witness :
  Forall (fun sl => int_bounds sl = true) [int_slice 0 1; int_slice 1 2]
  ∧ ∀ (F : Type) (HA : Arith F) (HL : Libm F) (p : Z) (CIb : ndarray F),
      p = 2 ∨ p = 4 →
      ∃ (CIb' : ndarray F) (L g : F),
        iteration p [int_slice 0 1; int_slice 1 2]
          (length [int_slice 0 1; int_slice 1 2]) (length CIb) CIb
        = (CIb', Ok (L, g))
        ∧ length CIb' = length CIb.
Proof.
  apply (get_offset_slices_iterate ["0 K 4s"; "1 H 1s"]). reflexivity.
Defined.

(** ** [shell_str]: the labels it builds *)

(** A string without blanks. *)
Fixpoint no_space (s : string) : Prop :=
  match s with
  | EmptyString => True
  | String c s' => PyStr.isspace c = false ∧ no_space s'
  end.

(** A non-empty string without blanks: what [split] returns as one token. *)
Definition word (s : string) : Prop := no_space s ∧ s ≠ "".

Lemma append_cons (c : ascii) (a b : string) : String c a +:+ b = String c (a +:+ b).
Proof. reflexivity. Qed.

Lemma append_nil_l (b : string) : "" +:+ b = b.
Proof. reflexivity. Qed.

Lemma append_nil_r (a : string) : a +:+ "" = a.
Proof. induction a as [|x a IH]; [done|]. by rewrite append_cons, IH. Qed.

Lemma append_assoc (a b c : string) : (a +:+ b) +:+ c = a +:+ (b +:+ c).
Proof. induction a as [|x a IH]; [done|]. by rewrite !append_cons, IH. Qed.

Lemma no_space_app (a b : string) : no_space a → no_space b → no_space (a +:+ b).
Proof.
  induction a as [|x a IH]; [done|]. rewrite append_cons. simpl.
  intros [Hx Ha] Hb. auto.
Qed.

Lemma split_go_no_space (cur : list ascii) (w rest : string) :
  no_space w →
  PyStr.split_go cur (w +:+ rest)
  = PyStr.split_go (rev (list_ascii_of_string w) ++ cur) rest.
Proof.
  revert cur. induction w as [|c w IH]; intros cur Hw; [done|].
  destruct Hw as [Hc Hw]. rewrite append_cons. cbn [PyStr.split_go]. rewrite Hc.
  rewrite IH by done. cbn [list_ascii_of_string rev]. by rewrite <- app_assoc.
Qed.

Lemma split_go_space (cur : list ascii) (s1 s2 : string) :
  PyStr.split_go cur (s1 +:+ String " " s2) = PyStr.split_go cur s1 ++ PyStr.split s2.
Proof.
  revert cur. induction s1 as [|c s1 IH]; intros cur.
  - rewrite append_nil_l. cbn [PyStr.split_go]. change (PyStr.isspace " ") with true.
    cbv iota. by destruct cur.
  - rewrite append_cons. cbn [PyStr.split_go].
    destruct (PyStr.isspace c); [|apply IH]. destruct cur; by rewrite IH.
Qed.

Lemma split_word (w : string) : word w → PyStr.split w = [w].
Proof.
  intros [Hw Hne]. unfold PyStr.split.
  rewrite <- (append_nil_r w) at 1. rewrite split_go_no_space by done.
  cbn [PyStr.split_go]. rewrite app_nil_r.
  destruct (rev (list_ascii_of_string w)) as [|c l] eqn:Hrev.
  - destruct w; [done|]. apply (f_equal (@length ascii)) in Hrev.
    rewrite length_rev in Hrev. done.
  - rewrite <- Hrev. f_equal. rewrite rev_involutive.
    apply string_of_list_ascii_of_string.
Qed.

Lemma split_join (parts : list string) :
  PyStr.split (Fmt.join " " parts) = concat (PyStr.split <$> parts).
Proof.
  induction parts as [|p parts IH]; [done|].
  destruct parts as [|q parts].
  - cbn [Fmt.join fmap list_fmap concat]. by rewrite app_nil_r.
  - change (Fmt.join " " (p :: q :: parts))
      with (p +:+ String " " (Fmt.join " " (q :: parts))).
    unfold PyStr.split at 1. rewrite split_go_space.
    change (PyStr.split_go [] p) with (PyStr.split p). by rewrite IH.
Qed.

Lemma split_join_words (toks : list string) :
  Forall word toks → PyStr.split (Fmt.join " " toks) = toks.
Proof.
  intros Hall. rewrite split_join.
  induction Hall as [|t toks Ht _ IH]; [done|].
  cbn [fmap list_fmap concat]. by rewrite (split_word t Ht), IH.
Qed.

(** A character that is neither a blank nor an opening bracket. *)
Definition plain_char (c : ascii) : bool :=
  negb (PyStr.isspace c) && negb (Ascii.eqb c "[").

Fixpoint plain (s : string) : Prop :=
  match s with
  | EmptyString => True
  | String c s' => plain_char c = true ∧ plain s'
  end.

Lemma plain_app (a b : string) : plain a → plain b → plain (a +:+ b).
Proof.
  induction a as [|x a IH]; [done|]. rewrite append_cons. simpl.
  intros [Hx Ha] Hb. auto.
Qed.

Lemma plain_no_space (s : string) : plain s → no_space s.
Proof.
  induction s as [|c s IH]; [done|]. simpl. intros [Hc Hs]. split; [|auto].
  unfold plain_char in Hc. apply andb_true_iff in Hc as [Hc _].
  by apply negb_true_iff in Hc.
Qed.

Lemma pretty_N_char_plain (x : N) : plain_char (pretty_N_char x) = true.
Proof. unfold pretty_N_char. by repeat case_match. Qed.

Lemma pretty_N_go_plain (x : N) (s : string) : plain s → plain (pretty_N_go x s).
Proof.
  revert s. induction (N.lt_wf_0 x) as [x _ IH]; intros s Hs.
  assert (x = 0 ∨ 0 < x)%N as [->|Hx] by lia; [by rewrite pretty_N_go_0|].
  rewrite pretty_N_go_step by done. apply IH; [by apply N.div_lt|].
  split; [apply pretty_N_char_plain|done].
Qed.

Lemma pretty_N_plain (x : N) : plain (pretty x).
Proof.
  unfold pretty, pretty_N. case_decide; [by vm_compute|].
  by apply pretty_N_go_plain.
Qed.

(** The decimal numeral of an integer has no blank and no bracket. *)
Lemma pretty_Z_plain (i : Z) : plain (pretty i).
Proof.
  destruct i as [|p|p]; unfold pretty, pretty_Z.
  - by vm_compute.
  - apply pretty_N_plain.
  - apply (plain_app "-"); [by vm_compute|apply pretty_N_plain].
Qed.

(** The label of a core orbital and of a valence orbital, from the numeral
    [d] of the principal quantum number and the name of the orbital. *)
Definition core_label (d suffix : string) : string := "[" +:+ d +:+ suffix +:+ "]".
Definition valence_label (d suffix : string) : string := d +:+ suffix.

(** The orbital names of the shell of angular momentum [l], in the order of
    the templates of [shell_str]. *)
Definition orbital_names (l : nat) : list string :=
  match l with
  | 0%nat => ["s"]
  | 1%nat => ["px"; "py"; "pz"]
  | 2%nat => ["d0"; "d2-"; "d1+"; "d2+"; "d1-"]
  | 3%nat => ["f1+"; "f1-"; "f0"; "f3+"; "f2-"; "f3-"; "f2+"]
  | _ => []
  end.

Lemma orbital_names_length (l : nat) :
  (l ≤ 3)%nat → length (orbital_names l) = (2 * l + 1)%nat.
Proof. intros Hl. by destruct l as [|[|[|[|l]]]]; [..|lia]. Qed.

Lemma orbital_names_plain (l : nat) :
  Forall (fun suffix => plain suffix ∧ suffix ≠ "") (orbital_names l).
Proof.
  destruct l as [|[|[|[|l]]]]; cbn [orbital_names];
    repeat (constructor; [by vm_compute|]); constructor.
Qed.

Lemma core_label_word (d suffix : string) :
  plain d → plain suffix → word (core_label d suffix).
Proof.
  intros Hd Hs. split; [|done]. unfold core_label.
  apply (no_space_app "["); [by vm_compute|].
  apply no_space_app; [by apply plain_no_space|].
  apply no_space_app; [by apply plain_no_space|by vm_compute].
Qed.

Lemma valence_label_word (d suffix : string) :
  plain d → plain suffix → suffix ≠ "" → word (valence_label d suffix).
Proof.
  intros Hd Hs Hne. split.
  - apply no_space_app; by apply plain_no_space.
  - unfold valence_label. destruct d; [by rewrite append_nil_l|done].
Qed.

Lemma valence_label_no_bracket (d suffix : string) :
  plain d → plain suffix →
  Fmt.starts_with_bracket (valence_label d suffix) = false.
Proof.
  intros Hd Hs. unfold valence_label.
  assert (plain (d +:+ suffix)) as Hp by by apply plain_app.
  destruct (d +:+ suffix) as [|c s]; [done|]. destruct Hp as [Hc _].
  unfold plain_char in Hc. apply andb_true_iff in Hc as [_ Hc].
  apply negb_true_iff in Hc. cbn [Fmt.starts_with_bracket].
  destruct (ascii_dec c "[") as [->|Hne]; [done|].
  destruct c as [[] [] [] [] [] [] [] []]; done.
Qed.

Ltac reassociate :=
  repeat first [rewrite append_cons | rewrite append_nil_l | rewrite append_assoc].

(** What the templates of [shell_str] expand to. *)
Lemma format_cor_shell (l : nat) (cor : string) (i : Z) :
  [ "[{n}s]"; "[{n}px] [{n}py] [{n}pz]";
    "[{n}d0] [{n}d2-] [{n}d1+] [{n}d2+] [{n}d1-]";
    "[{n}f1+] [{n}f1-] [{n}f0] [{n}f3+] [{n}f2-] [{n}f3-] [{n}f2+]" ] !! l
  = Some cor →
  Fmt.format_n cor i
  = Fmt.join " " (core_label (pretty i) <$> orbital_names l).
Proof.
  destruct l as [|[|[|[|l]]]]; intros [= <-];
    cbn [Fmt.format_n orbital_names fmap list_fmap Fmt.join];
    unfold core_label; generalize (pretty i) as d; intros d;
    reassociate; reflexivity.
Qed.

Lemma format_val_shell (l : nat) (val : string) (i : Z) :
  ((fun l_str => Fmt.remove_char "]" (Fmt.remove_char "[" l_str)) <$>
   [ "[{n}s]"; "[{n}px] [{n}py] [{n}pz]";
     "[{n}d0] [{n}d2-] [{n}d1+] [{n}d2+] [{n}d1-]";
     "[{n}f1+] [{n}f1-] [{n}f0] [{n}f3+] [{n}f2-] [{n}f3-] [{n}f2+]" ]) !! l
  = Some val →
  Fmt.format_n val i
  = Fmt.join " " (valence_label (pretty i) <$> orbital_names l).
Proof.
  destruct l as [|[|[|[|l]]]]; intros [= <-];
    cbn [Fmt.format_n orbital_names fmap list_fmap Fmt.join];
    unfold valence_label; generalize (pretty i) as d; intros d;
    reassociate; reflexivity.
Qed.

Lemma length_bind_const {A B : Type} (f : A → list B) (n : nat) (xs : list A) :
  (∀ x, length (f x) = n) → length (xs ≫= f) = (n * length xs)%nat.
Proof.
  intros Hf. induction xs as [|x xs IH]; cbn [mbind list_bind]; [simpl; lia|].
  rewrite length_app, Hf. change (length (xs ≫= f) = (n * length xs)%nat) in IH.
  rewrite IH. simpl. lia.
Qed.

Lemma py_range_length (a b : Z) : length (py_range a b) = Z.to_nat (b - a).
Proof. unfold py_range. by rewrite length_fmap, length_seq. Qed.

Lemma count_core_app (xs ys : list string) :
  count_core (xs ++ ys) = (count_core xs + count_core ys)%nat.
Proof. unfold count_core. by rewrite filter_app, length_app. Qed.

Lemma count_core_all (xs : list string) :
  Forall (fun o => Fmt.starts_with_bracket o = true) xs → count_core xs = length xs.
Proof.
  unfold count_core. induction 1 as [|x xs Hx _ IH]; [done|].
  rewrite filter_cons_True by done. simpl. by rewrite IH.
Qed.

Lemma count_core_none (xs : list string) :
  Forall (fun o => Fmt.starts_with_bracket o = false) xs → count_core xs = 0%nat.
Proof.
  unfold count_core. induction 1 as [|x xs Hx _ IH]; [done|].
  rewrite filter_cons_False by (by rewrite Hx). done.
Qed.

Lemma comprehension_ok {A B : Type} (f : A -> result B) (g : A -> B) (xs : list A) :
  (∀ x, f x = Ok (g x)) → comprehension f xs = Ok (g <$> xs).
Proof.
  intros Hf. induction xs as [|x xs IH]; [done|].
  cbn [comprehension fmap list_fmap]. by rewrite Hf, IH.
Qed.

(** For [l] from 0 to 3, [shell_str] returns one line of blank-separated
    labels: [2l+1] bracketed labels for each of the [n_cor] core shells,
    followed by [2l+1] labels without bracket for each of the [n_val]
    valence shells.  These are the counts that [SetAo] compares with
    [nCoreX] and [nAoX]. *)
Theorem shell_str_labels (l : nat) (n_cor n_val : Z) :
  (l ≤ 3)%nat →
  ∃ (line : string) (core valence : list string),
    shell_str l n_cor n_val = Ok line
    ∧ PyStr.split line = core ++ valence
    ∧ length core = ((2 * l + 1) * Z.to_nat n_cor)%nat
    ∧ length valence = ((2 * l + 1) * Z.to_nat n_val)%nat
    ∧ Forall (fun o => Fmt.starts_with_bracket o = true) core
    ∧ Forall (fun o => Fmt.starts_with_bracket o = false) valence
    ∧ count_core (PyStr.split line) = ((2 * l + 1) * Z.to_nat n_cor)%nat.
Proof.
  intros Hl. unfold shell_str. cbv zeta.
  set (cor_shell := [_; _; _; _]).
  set (r1 := py_range (Z.of_nat l + 1) _). set (r2 := py_range _ _).
  assert (length r1 = Z.to_nat n_cor) as Hr1.
  { subst r1. rewrite py_range_length. f_equal. lia. }
  assert (length r2 = Z.to_nat n_val) as Hr2.
  { subst r2. rewrite py_range_length. f_equal. lia. }
  destruct (cor_shell !! l) as [cor|] eqn:Hcor; last first.
  { apply lookup_ge_None in Hcor. simpl in Hcor. lia. }
  set (val_shell := _ <$> cor_shell) in *.
  destruct (val_shell !! l) as [val|] eqn:Hval; last first.
  { apply lookup_ge_None in Hval. simpl in Hval. lia. }
  rewrite (comprehension_ok (format_shell cor_shell l) (Fmt.format_n cor))
    by (intros i; unfold format_shell; by rewrite Hcor).
  rewrite (comprehension_ok (format_shell val_shell l) (Fmt.format_n val))
    by (intros i; unfold format_shell; by rewrite Hval).
  cbn [mbind result_bind].
  pose proof (orbital_names_plain l) as Hnames.
  pose proof (orbital_names_length l Hl) as Hlen.
  exists (Fmt.join " " ((Fmt.format_n cor <$> r1) ++ (Fmt.format_n val <$> r2))),
    (r1 ≫= fun i => core_label (pretty i) <$> orbital_names l),
    (r2 ≫= fun i => valence_label (pretty i) <$> orbital_names l).
  assert (Forall (fun o => Fmt.starts_with_bracket o = true)
            (r1 ≫= fun i => core_label (pretty i) <$> orbital_names l)) as Hcore.
  { apply Forall_forall. intros o Ho.
    apply list_elem_of_bind in Ho as (i & Ho & _).
    apply list_elem_of_fmap in Ho as (suffix & -> & _). done. }
  assert (Forall (fun o => Fmt.starts_with_bracket o = false)
            (r2 ≫= fun i => valence_label (pretty i) <$> orbital_names l)) as Hvalence.
  { apply Forall_forall. intros o Ho.
    apply list_elem_of_bind in Ho as (i & Ho & _).
    apply list_elem_of_fmap in Ho as (suffix & -> & Hs).
    apply valence_label_no_bracket; [apply pretty_Z_plain|].
    by apply (proj1 (Forall_forall _ _) Hnames suffix). }
  assert (length (r1 ≫= fun i => core_label (pretty i) <$> orbital_names l)
          = ((2 * l + 1) * Z.to_nat n_cor)%nat) as Hlc.
  { rewrite <- Hr1, <- Hlen. apply length_bind_const. intros i. apply length_fmap. }
  assert (length (r2 ≫= fun i => valence_label (pretty i) <$> orbital_names l)
          = ((2 * l + 1) * Z.to_nat n_val)%nat) as Hlv.
  { rewrite <- Hr2, <- Hlen. apply length_bind_const. intros i. apply length_fmap. }
  assert (PyStr.split
            (Fmt.join " " ((Fmt.format_n cor <$> r1) ++ (Fmt.format_n val <$> r2)))
          = (r1 ≫= fun i => core_label (pretty i) <$> orbital_names l)
            ++ (r2 ≫= fun i => valence_label (pretty i) <$> orbital_names l)) as Hsplit.
  { rewrite split_join, fmap_app, concat_app. f_equal.
    - clear Hr1 Hcore Hlc. induction r1 as [|i r1 IH]; [done|].
      cbn [fmap list_fmap concat mbind list_bind]. f_equal; [|apply IH].
      rewrite (format_cor_shell l cor i Hcor). apply split_join_words.
      apply Forall_fmap. eapply Forall_impl; [exact Hnames|].
      intros suffix [Hs _]. apply core_label_word; [apply pretty_Z_plain|done].
    - clear Hr2 Hvalence Hlv. induction r2 as [|i r2 IH]; [done|].
      cbn [fmap list_fmap concat mbind list_bind]. f_equal; [|apply IH].
      rewrite (format_val_shell l val i Hval). apply split_join_words.
      apply Forall_fmap. eapply Forall_impl; [exact Hnames|].
      intros suffix [Hs Hne]. apply valence_label_word; [apply pretty_Z_plain|done..]. }
  repeat split; try done.
  rewrite Hsplit, count_core_app, (count_core_all _ Hcore), (count_core_none _ Hvalence).
  lia.
Qed.

Lemma shell_str_labels_witness :
  ∃ (line : string) (core valence : list string),
    shell_str 1 1 2 = Ok line
    ∧ PyStr.split line = core ++ valence
    ∧ length core = ((2 * 1 + 1) * Z.to_nat 1)%nat
    ∧ length valence = ((2 * 1 + 1) * Z.to_nat 2)%nat
    ∧ Forall (fun o => Fmt.starts_with_bracket o = true) core
    ∧ Forall (fun o => Fmt.starts_with_bracket o = false) valence
    ∧ count_core (PyStr.split line) = ((2 * 1 + 1) * Z.to_nat 1)%nat.
Proof. apply (shell_str_labels 1 1 2). lia. Defined.

(** ** Exact arithmetic: the orbitals that [ibo_loc] returns are orthonormal *)

Section Orthonormal.
Context {F : Type} `{Arith F}.

(** A 2-D array: every column has the length of the first. *)
Definition rectangular (M : ndarray F) : Prop :=
  Forall (fun c => length c = length (default [] (head M))) M.

(** The metric applied to a vector: [s . v], or [v] itself when no overlap
    matrix is given. *)
Definition apply_metric (s : option (ndarray F)) (v : list F) : list F :=
  match s with
  | Some s => Example.mat_vec s v
  | None => v
  end.

(** [M^T . s . M], column by column: the element at row [i] of column [j]
    is the product of column [i] of [M] with [s] applied to column [j]. *)
Definition gram (s : option (ndarray F)) (M : ndarray F) : ndarray F :=
  (fun cj => (fun ci => vdot ci (apply_metric s cj)) <$> M) <$> M.

(** [numpy.eye(n)] *)
Definition eye (n : nat) : ndarray F :=
  (fun j : nat => (fun i : nat => if decide (i = j) then of_int 1 else fzero) <$> seq 0 n)
    <$> seq 0 n.

(** The scalars with their operations are a commutative ring: the arithmetic
    is exact. *)
Hypothesis exact_arithmetic : ring_theory fzero (of_int 1) fadd fmul fsub fneg (@eq F).

Add Ring scalars : exact_arithmetic.

Lemma vdot_acc (acc : F) (l : list (F * F)) :
  foldl (fun acc xy => (acc + xy.1 * xy.2)%F) acc l
  = (acc + foldl (fun acc xy => (acc + xy.1 * xy.2)%F) fzero l)%F.
Proof.
  revert acc. induction l as [|[x y] l IH]; intros acc; cbn [foldl fst snd].
  - ring.
  - rewrite (IH (acc + x * y)%F), (IH (fzero + x * y)%F). ring.
Qed.

Lemma vdot_cons (x y : F) (u v : list F) :
  vdot (x :: u) (y :: v) = (x * y + vdot u v)%F.
Proof.
  unfold vdot. cbn [zip zip_with foldl fst snd]. rewrite vdot_acc. ring.
Qed.

Lemma vdot_nil_r (u : list F) : vdot u [] = fzero.
Proof. unfold vdot. by destruct u. Qed.

Lemma vdot_comm (u v : list F) : vdot u v = vdot v u.
Proof.
  revert v. induction u as [|x u IH]; intros [|y v]; try done.
  rewrite !vdot_cons, IH. ring.
Qed.

Lemma vdot_vadd (a b z : list F) :
  length a = length b → vdot (vadd a b) z = (vdot a z + vdot b z)%F.
Proof.
  revert b z. induction a as [|x a IH]; intros [|y b] z Hlen; try done.
  - unfold vdot. cbn. ring.
  - unfold vadd. cbn [zip_with]. fold (vadd a b). destruct z as [|w z].
    + rewrite !vdot_nil_r. ring.
    + rewrite !vdot_cons, IH by (by simplify_eq/=). ring.
Qed.

Lemma vdot_vscale (c : F) (a z : list F) :
  vdot (vscale c a) z = (c * vdot a z)%F.
Proof.
  revert z. induction a as [|x a IH]; intros z.
  - unfold vdot. cbn. ring.
  - unfold vscale. cbn [fmap list_fmap]. fold (vscale c a). destruct z as [|w z].
    + rewrite !vdot_nil_r. ring.
    + rewrite !vdot_cons, IH. ring.
Qed.

Lemma vdot_zeros (m : nat) (z : list F) : vdot (replicate m fzero) z = fzero.
Proof.
  revert z. induction m as [|m IH]; intros z; [done|].
  destruct z as [|w z]; [apply vdot_nil_r|].
  cbn [replicate]. rewrite vdot_cons, IH. ring.
Qed.

(** A functional on the vectors of length [m] that respects sums and
    multiples. *)
Definition linear (m : nat) (h : list F -> F) : Prop :=
  (∀ a b, length a = m → length b = m → h (vadd a b) = (h a + h b)%F)
  ∧ (∀ x a, length a = m → h (vscale x a) = (x * h a)%F).

Lemma vadd_length (a b : list F) (m : nat) :
  length a = m → length b = m → length (vadd a b) = m.
Proof. intros Ha Hb. unfold vadd. rewrite length_zip_with. lia. Qed.

Lemma vscale_length (x : F) (a : list F) : length (vscale x a) = length a.
Proof. unfold vscale. by rewrite length_fmap. Qed.

(** The linear combination that [mat_vec] accumulates, under a linear
    functional. *)
Lemma linear_combination (m : nat) (h : list F -> F) (A : ndarray F) (v acc : list F) :
  linear m h → Forall (fun c => length c = m) A → length acc = m →
  h (foldl (fun acc cx => vadd acc (vscale cx.2 cx.1)) acc (zip A v))
  = (h acc + vdot v (h <$> A))%F.
Proof.
  intros [Hadd Hscale] HA. revert v acc.
  induction HA as [|c A Hc _ IH]; intros [|x v] acc Hacc; cbn [zip zip_with foldl fst snd].
  - unfold vdot. cbn. ring.
  - rewrite vdot_nil_r. ring.
  - unfold vdot. cbn. ring.
  - rewrite IH by (apply vadd_length; [done|by rewrite vscale_length]).
    rewrite Hadd, Hscale by (done || by rewrite vscale_length).
    rewrite fmap_cons, vdot_cons. ring.
Qed.

Lemma linear_vdot_l (m : nat) (z : list F) : linear m (fun y => vdot y z).
Proof.
  split.
  - intros a b Ha Hb. apply vdot_vadd. congruence.
  - intros x a _. apply vdot_vscale.
Qed.

Lemma linear_vdot_r (m : nat) (c : list F) : linear m (vdot c).
Proof.
  split.
  - intros a b Ha Hb. rewrite !(vdot_comm c). apply vdot_vadd. congruence.
  - intros x a _. rewrite !(vdot_comm c). apply vdot_vscale.
Qed.

Lemma vadd_cons (x y : F) (a b : list F) :
  vadd (x :: a) (y :: b) = (x + y)%F :: vadd a b.
Proof. done. Qed.

Lemma vscale_cons (x y : F) (a : list F) :
  vscale x (y :: a) = (x * y)%F :: vscale x a.
Proof. done. Qed.

(** [mat_vec s] respects sums and multiples. *)
Lemma mat_vec_acc_vadd (s : ndarray F) (a b acc1 acc2 : list F) :
  length a = length b →
  foldl (fun acc cx => vadd acc (vscale cx.2 cx.1)) (vadd acc1 acc2) (zip s (vadd a b))
  = vadd (foldl (fun acc cx => vadd acc (vscale cx.2 cx.1)) acc1 (zip s a))
         (foldl (fun acc cx => vadd acc (vscale cx.2 cx.1)) acc2 (zip s b)).
Proof.
  revert a b acc1 acc2.
  induction s as [|c s IH]; intros [|x a] [|y b] acc1 acc2 Hlen; try done.
  rewrite (vadd_cons x y a b). cbn [zip zip_with foldl fst snd].
  rewrite <- IH by (by simplify_eq/=). f_equal.
  apply list_eq. intros i. unfold vadd, vscale.
  repeat (rewrite lookup_zip_with || rewrite list_lookup_fmap).
  destruct (acc1 !! i), (acc2 !! i), (c !! i); cbn; try done.
  f_equal. ring.
Qed.

Lemma mat_vec_acc_vscale (s : ndarray F) (x : F) (a acc : list F) :
  foldl (fun acc cx => vadd acc (vscale cx.2 cx.1)) (vscale x acc) (zip s (vscale x a))
  = vscale x (foldl (fun acc cx => vadd acc (vscale cx.2 cx.1)) acc (zip s a)).
Proof.
  revert a acc. induction s as [|c s IH]; intros [|y a] acc; try done.
  rewrite (vscale_cons x y a). cbn [zip zip_with foldl fst snd].
  rewrite <- IH. f_equal.
  apply list_eq. intros i. unfold vadd, vscale.
  repeat (rewrite lookup_zip_with || rewrite list_lookup_fmap).
  destruct (acc !! i), (c !! i); cbn; try done.
  f_equal. ring.
Qed.

Lemma zeros_vadd (m : nat) :
  vadd (replicate m fzero) (replicate m fzero) = replicate m (fzero : F).
Proof.
  induction m as [|m IH]; [done|]. unfold vadd in *. cbn [replicate zip_with].
  rewrite IH. f_equal. ring.
Qed.

Lemma zeros_vscale (x : F) (m : nat) :
  vscale x (replicate m fzero) = replicate m (fzero : F).
Proof.
  induction m as [|m IH]; [done|]. unfold vscale in *. cbn [replicate fmap list_fmap].
  rewrite IH. f_equal. ring.
Qed.

Lemma mat_vec_vadd (s : ndarray F) (a b : list F) :
  length a = length b →
  Example.mat_vec s (vadd a b) = vadd (Example.mat_vec s a) (Example.mat_vec s b).
Proof.
  intros Hlen. unfold Example.mat_vec.
  rewrite <- mat_vec_acc_vadd by done. by rewrite zeros_vadd.
Qed.

Lemma mat_vec_vscale (s : ndarray F) (x : F) (a : list F) :
  Example.mat_vec s (vscale x a) = vscale x (Example.mat_vec s a).
Proof.
  unfold Example.mat_vec. rewrite <- mat_vec_acc_vscale. by rewrite zeros_vscale.
Qed.

Lemma mat_vec_length (s : ndarray F) (a : list F) :
  rectangular s → length (Example.mat_vec s a) = length (default [] (head s)).
Proof.
  unfold rectangular, Example.mat_vec.
  generalize (length (default [] (head s))). intros m Hs.
  assert (length (replicate m (fzero : F)) = m) as Hacc by apply length_replicate.
  revert Hacc. generalize (replicate m (fzero : F)). intros acc Hacc.
  revert a acc Hacc. induction Hs as [|c s Hc _ IH]; intros [|x a] acc Hacc; try done.
  cbn [zip zip_with foldl fst snd]. apply IH.
  apply vadd_length; [done|by rewrite vscale_length].
Qed.

Lemma linear_metric (m : nat) (s : option (ndarray F)) (c : list F) :
  (∀ s', s = Some s' → rectangular s') →
  linear m (fun y => vdot c (apply_metric s y)).
Proof.
  intros Hs. destruct s as [s|]; [|apply linear_vdot_r].
  specialize (Hs s eq_refl). split.
  - intros a b Ha Hb. cbn [apply_metric].
    rewrite mat_vec_vadd by congruence.
    apply (linear_vdot_r (length (default [] (head s)))); by apply mat_vec_length.
  - intros x a Ha. cbn [apply_metric]. rewrite mat_vec_vscale.
    apply (linear_vdot_r (length (default [] (head s)))). by apply mat_vec_length.
Qed.

Lemma linear_zeros (m : nat) (h : list F -> F) :
  linear m h → h (replicate m fzero) = fzero.
Proof.
  intros [_ Hscale]. rewrite <- (zeros_vscale fzero m) at 1.
  rewrite Hscale by apply length_replicate. ring.
Qed.

(** The element of the identity matrix at row [i] of column [j]. *)
Definition delta (i j : nat) : F := if decide (i = j) then of_int 1 else fzero.

Lemma eye_lookup (n i j : nat) :
  (i < n)%nat → (j < n)%nat →
  ∃ col, eye n !! j = Some col ∧ col !! i = Some (delta i j).
Proof.
  intros Hi Hj. unfold eye. eexists. rewrite list_lookup_fmap, lookup_seq_lt by done.
  split; [done|]. by rewrite list_lookup_fmap, lookup_seq_lt.
Qed.

(** [M^T . s . M] is the identity exactly when the columns of [M] are
    orthonormal in the metric. *)
Lemma gram_eye (s : option (ndarray F)) (M : ndarray F) :
  gram s M = eye (length M)
  ↔ ∀ i j ci cj, M !! i = Some ci → M !! j = Some cj →
      vdot ci (apply_metric s cj) = delta i j.
Proof.
  split.
  - intros Heq i j ci cj Hi Hj.
    destruct (eye_lookup (length M) i j) as (col & Hcol & Hx);
      [by eapply lookup_lt_Some..|].
    rewrite <- Heq in Hcol. unfold gram in Hcol.
    rewrite list_lookup_fmap, Hj in Hcol. injection Hcol as <-.
    rewrite list_lookup_fmap, Hi in Hx. by injection Hx.
  - intros Hall. apply list_eq. intros j. unfold gram, eye.
    rewrite !list_lookup_fmap.
    destruct (M !! j) as [cj|] eqn:Hj.
    + rewrite lookup_seq_lt by (by eapply lookup_lt_Some). cbn. f_equal.
      apply list_eq. intros i. rewrite !list_lookup_fmap.
      destruct (M !! i) as [ci|] eqn:Hi.
      * rewrite lookup_seq_lt by (by eapply lookup_lt_Some). cbn. f_equal.
        by apply Hall.
      * rewrite lookup_seq_ge by (by apply lookup_ge_None). done.
    + rewrite lookup_seq_ge by (by apply lookup_ge_None). done.
Qed.

Lemma vdot_all_zero (v w : list F) :
  Forall (fun y => y = fzero) w → vdot v w = fzero.
Proof.
  intros Hw. revert v. induction Hw as [|y w -> _ IH]; intros v.
  - apply vdot_nil_r.
  - destruct v as [|x v]; [done|]. rewrite vdot_cons, IH. ring.
Qed.

(** The product with a column of the identity selects an element. *)
Lemma vdot_delta (v w : list F) (i : nat) (x : F) :
  v !! i = Some x → length w = length v →
  (∀ j y, w !! j = Some y → y = delta i j) →
  vdot v w = x.
Proof.
  revert w i. induction v as [|x0 v IH]; intros [|y0 w] i Hi Hlen Hw; try done.
  rewrite vdot_cons. destruct i as [|i].
  - injection Hi as ->. rewrite (Hw 0%nat y0 eq_refl). unfold delta at 1.
    rewrite decide_True by done.
    rewrite vdot_all_zero; [ring|].
    apply Forall_forall. intros y Hy. apply list_elem_of_lookup in Hy as [j Hj].
    rewrite (Hw (S j) y Hj). unfold delta. by rewrite decide_False.
  - rewrite (Hw 0%nat y0 eq_refl). unfold delta at 1. rewrite decide_False by done.
    rewrite (IH w i); [ring|done|by simplify_eq/=|].
    intros j y Hj. rewrite (Hw (S j) y Hj). unfold delta.
    destruct (decide (i = j)), (decide (S i = S j)); done || lia.
Qed.

(** With columns [L] orthonormal in the metric [s], the product of two
    combinations of them in that metric is the plain product of their
    coefficients. *)
Lemma combinations_product (s : option (ndarray F)) (L : ndarray F) (u v : list F) :
  (∀ s', s = Some s' → rectangular s') →
  rectangular L → gram s L = eye (length L) →
  length v = length L →
  vdot (Example.mat_vec L u) (apply_metric s (Example.mat_vec L v)) = vdot u v.
Proof.
  intros Hs HL HG Hv. rewrite gram_eye in HG.
  set (z := apply_metric s (Example.mat_vec L v)).
  unfold Example.mat_vec at 1.
  rewrite (linear_combination _ (fun y => vdot y z) L u _ (linear_vdot_l _ z) HL)
    by apply length_replicate.
  rewrite vdot_zeros.
  replace ((fun y => vdot y z) <$> L) with v; [ring|].
  apply list_eq. intros i. rewrite list_lookup_fmap.
  destruct (L !! i) as [c|] eqn:Hc; cbn.
  - destruct (lookup_lt_is_Some_2 v i) as [x Hx].
    { rewrite Hv. by eapply lookup_lt_Some. }
    rewrite Hx. f_equal. symmetry. unfold z, Example.mat_vec.
    rewrite (linear_combination _ (fun y => vdot c (apply_metric s y)) L v _
               (linear_metric _ s c Hs) HL) by apply length_replicate.
    rewrite (linear_zeros _ _ (linear_metric _ s c Hs)).
    rewrite (vdot_delta v _ i x Hx); [ring|by rewrite length_fmap|].
    intros j y. rewrite list_lookup_fmap.
    destruct (L !! j) as [c'|] eqn:Hc'; [|done]. intros [= <-].
    by apply HG.
  - apply lookup_ge_None. rewrite Hv. by apply lookup_ge_None.
Qed.

Lemma linear_element (m k : nat) :
  (k < m)%nat → linear m (fun y : list F => default fzero (y !! k)).
Proof.
  intros Hk. split.
  - intros a b Ha Hb. unfold vadd. rewrite lookup_zip_with.
    destruct (lookup_lt_is_Some_2 a k) as [x ->]; [lia|].
    by destruct (lookup_lt_is_Some_2 b k) as [y ->]; [lia|].
  - intros x a Ha. unfold vscale. rewrite list_lookup_fmap.
    by destruct (lookup_lt_is_Some_2 a k) as [y ->]; [lia|].
Qed.

(** An element of [A . v]: the product of [v] with row [k] of [A]. *)
Lemma mat_vec_lookup (A : ndarray F) (v : list F) (k : nat) :
  rectangular A → (k < length (default [] (head A)))%nat →
  Example.mat_vec A v !! k = Some (vdot v ((fun c => default fzero (c !! k)) <$> A)).
Proof.
  intros HA Hk.
  destruct (lookup_lt_is_Some_2 (Example.mat_vec A v) k) as [x Hx].
  { by rewrite mat_vec_length. }
  rewrite Hx. f_equal.
  change x with (default fzero (Some x)). rewrite <- Hx. unfold Example.mat_vec.
  rewrite (linear_combination _ _ A v _ (linear_element _ k Hk) HA)
    by apply length_replicate.
  rewrite lookup_replicate_2 by done. cbn [default from_option id]. ring.
Qed.

Lemma transpose_length (M : ndarray F) :
  length (Example.transpose M) = length (default [] (head M)).
Proof. unfold Example.transpose. by rewrite length_imap. Qed.

Lemma transpose_lookup (M : ndarray F) (r : nat) :
  (r < length (default [] (head M)))%nat →
  Example.transpose M !! r = Some ((fun c => default fzero (c !! r)) <$> M).
Proof.
  intros Hr. unfold Example.transpose. rewrite list_lookup_imap.
  by destruct (lookup_lt_is_Some_2 _ r Hr) as [x ->].
Qed.

Lemma transpose_rectangular (M : ndarray F) : rectangular (Example.transpose M).
Proof.
  unfold rectangular. apply Forall_forall. intros row Hrow.
  apply list_elem_of_lookup in Hrow as [r Hr].
  assert (r < length (default [] (head M)))%nat as Hlt.
  { rewrite <- transpose_length. by eapply lookup_lt_Some. }
  rewrite transpose_lookup in Hr by done. injection Hr as <-.
  rewrite head_lookup, transpose_lookup by lia. cbn. by rewrite !length_fmap.
Qed.

(** Row [k] of the transpose is column [k]. *)
Lemma transpose_row (M : ndarray F) (k : nat) (ck : list F) :
  rectangular M → M !! k = Some ck →
  (fun row => default fzero (row !! k)) <$> Example.transpose M = ck.
Proof.
  intros HM Hk. apply list_eq. intros r. rewrite list_lookup_fmap.
  assert (length ck = length (default [] (head M))) as Hlen.
  { unfold rectangular in HM. rewrite Forall_forall in HM. apply HM.
    by eapply list_elem_of_lookup_2. }
  destruct (decide (r < length (default [] (head M)))%nat) as [Hr|Hr].
  - rewrite transpose_lookup by done. cbn. rewrite list_lookup_fmap, Hk. cbn.
    by destruct (lookup_lt_is_Some_2 ck r) as [x ->]; [lia|].
  - rewrite (proj2 (lookup_ge_None _ _)) by (rewrite transpose_length; lia).
    symmetry. apply lookup_ge_None. lia.
Qed.

(** For an [m x n] array [M], [m > 0], and an [m x m] array [s], the
    products [numpy.dot(numpy.dot(M.T, s), M)] are the array [gram]. *)
Lemma gram_as_products (s M : ndarray F) (m : nat) :
  (0 < m)%nat → M ≠ [] →
  Forall (fun c => length c = m) M →
  length s = m → Forall (fun c => length c = m) s →
  (g ← Example.matmul (Example.transpose M) s; Example.matmul g M)
  = Ok (gram (Some s) M).
Proof.
  intros Hm Hne HM Hs Hcols.
  assert (length (default [] (head M)) = m) as Hhead.
  { destruct M as [|c M]; [done|]. cbn. by apply Forall_cons in HM as [? _]. }
  assert (rectangular M) as HrM by (unfold rectangular; by rewrite Hhead).
  assert (length (default [] (head s)) = m) as Hheads.
  { destruct s as [|c s]; [simpl in Hs; lia|]. cbn. by apply Forall_cons in Hcols as [? _]. }
  assert (rectangular s) as Hrs by (unfold rectangular; by rewrite Hheads).
  assert (Example.matmul (Example.transpose M) s
          = Ok (Example.mat_vec (Example.transpose M) <$> s)) as ->.
  { unfold Example.matmul. destruct (forallb _ s) eqn:Hall; [done|].
    apply not_true_iff_false in Hall. destruct Hall. apply forallb_forall.
    intros c Hc. apply Nat.eqb_eq. rewrite transpose_length, Hhead.
    rewrite Forall_forall in Hcols. apply Hcols. by apply list_elem_of_In. }
  cbn [mbind result_bind].
  assert (Example.matmul (Example.mat_vec (Example.transpose M) <$> s) M
          = Ok (Example.mat_vec (Example.mat_vec (Example.transpose M) <$> s) <$> M))
    as ->.
  { unfold Example.matmul. destruct (forallb _ M) eqn:Hall; [done|].
    apply not_true_iff_false in Hall. destruct Hall. apply forallb_forall.
    intros c Hc. apply Nat.eqb_eq. rewrite length_fmap, Hs.
    rewrite Forall_forall in HM. apply HM. by apply list_elem_of_In. }
  f_equal. unfold gram. apply list_fmap_ext. intros j cj Hj.
  set (G1 := Example.mat_vec (Example.transpose M) <$> s).
  assert (length (default [] (head (Example.transpose M))) = length M) as HheadT.
  { rewrite head_lookup, transpose_lookup by lia. cbn. by rewrite length_fmap. }
  assert (length (default [] (head G1)) = length M) as HheadG.
  { unfold G1. destruct s as [|c s]; [simpl in Hs; lia|]. cbn.
    rewrite mat_vec_length by apply transpose_rectangular. done. }
  assert (rectangular G1) as HrG.
  { unfold rectangular. rewrite HheadG. unfold G1. apply Forall_fmap, Forall_forall.
    intros c _. cbn. rewrite mat_vec_length by apply transpose_rectangular. done. }
  apply list_eq. intros k. rewrite list_lookup_fmap.
  destruct (M !! k) as [ck|] eqn:Hk; cbn.
  - rewrite mat_vec_lookup by (done || rewrite HheadG; by eapply lookup_lt_Some).
    f_equal. cbn [apply_metric]. unfold Example.mat_vec.
    rewrite (linear_combination m (vdot ck) s cj _ (linear_vdot_r m ck) Hcols)
      by (by rewrite length_replicate).
    rewrite (vdot_comm ck (replicate _ _)), vdot_zeros by done.
    replace ((fun c => default fzero (c !! k)) <$> G1) with (vdot ck <$> s); [ring|].
    unfold G1. rewrite <- list_fmap_compose. apply list_fmap_ext. intros b sb Hb. cbn.
    rewrite mat_vec_lookup
      by (apply transpose_rectangular || (rewrite HheadT; by eapply lookup_lt_Some)).
    cbn. rewrite (transpose_row M k ck) by done. apply vdot_comm.
  - apply lookup_ge_None. rewrite mat_vec_length, HheadG by done.
    by apply lookup_ge_None.
Qed.

End Orthonormal.

Lemma matmul_ok {F : Type} `{Arith F} (A B C : ndarray F) :
  Example.matmul A B = Ok C →
  C = Example.mat_vec A <$> B ∧ Forall (fun v => length v = length A) B.
Proof.
  unfold Example.matmul. destruct (forallb _ B) eqn:Hall; [|done].
  intros [= <-]. split; [done|].
  apply Forall_forall. intros v Hv.
  rewrite forallb_forall in Hall. apply Nat.eqb_eq, Hall. by apply list_elem_of_In.
Qed.

Lemma take_columns_acc {F : Type} (M : ndarray F) (idx : list nat) (acc R : ndarray F) :
  for_each (fun k acc => c ← column M k; Ok (acc ++ [c])) idx acc = Ok R →
  ∃ cs, R = acc ++ cs ∧ Forall2 (fun i c => M !! i = Some c) idx cs.
Proof.
  revert acc. induction idx as [|i idx IH]; intros acc; cbn [for_each].
  - intros [= <-]. exists []. by rewrite app_nil_r.
  - unfold column. destruct (M !! i) as [c|] eqn:Hc; [|done]. cbn.
    intros Hrest. destruct (IH _ Hrest) as (cs & -> & Hcs).
    exists (c :: cs). split; [by rewrite <- app_assoc|]. by constructor.
Qed.

Lemma take_columns_ok {F : Type} (M : ndarray F) (idx : list nat) (R : ndarray F) :
  take_columns M idx = Ok R → Forall2 (fun i c => M !! i = Some c) idx R.
Proof.
  intros Hrun. by destruct (take_columns_acc M idx [] R Hrun) as (cs & -> & Hcs).
Qed.

Section OrthonormalProduct.
Context {F : Type} `{Arith F}.
Hypothesis exact_arithmetic : ring_theory fzero (of_int 1) fadd fmul fsub fneg (@eq F).

(** Combinations of columns that are orthonormal in the metric [s], with
    coefficients that are orthonormal themselves, are orthonormal in the
    metric [s]; and so is any selection of them without repetition. *)
Lemma selected_product_orthonormal (s L U ibos : ndarray F) (idx : list nat)
    (Final : ndarray F) :
  rectangular s → rectangular L →
  gram (Some s) L = eye (length L) → gram None U = eye (length U) →
  Example.matmul L U = Ok ibos → NoDup idx → take_columns ibos idx = Ok Final →
  gram (Some s) Final = eye (length Final).
Proof.
  intros Hs HL HGL HGU Hmul Hidx Htake.
  apply matmul_ok in Hmul as [-> HU]. apply take_columns_ok in Htake.
  apply gram_eye. rewrite gram_eye in HGU.
  intros a b fa fb Ha Hb.
  destruct (Forall2_lookup_r _ _ _ _ _ Htake Ha) as (i & Hi & Hfa).
  destruct (Forall2_lookup_r _ _ _ _ _ Htake Hb) as (j & Hj & Hfb).
  rewrite list_lookup_fmap in Hfa, Hfb.
  destruct (U !! i) as [ui|] eqn:Hui; [|done].
  destruct (U !! j) as [uj|] eqn:Huj; [|done].
  cbn in Hfa, Hfb. injection Hfa as <-. injection Hfb as <-.
  rewrite (combinations_product exact_arithmetic (Some s) L ui uj); try done.
  - rewrite (HGU i j ui uj Hui Huj : vdot ui uj = delta i j).
    unfold delta. destruct (decide (i = j)) as [->|Hne].
    + rewrite (NoDup_lookup _ _ _ _ Hidx Hi Hj). by rewrite decide_True.
    + rewrite decide_False; [done|]. intros ->. congruence.
  - by intros s' [= <-].
  - rewrite Forall_forall in HU. apply HU. by eapply list_elem_of_lookup_2.
Qed.

End OrthonormalProduct.

(** *** The steps of a run that returns *)

Lemma bind_ok {S A B : Type} (m : stM S A) (k : A -> stM S B) (σ σ' : S) (b : B) :
  (m ≫= k) σ = (σ', Ok b) → ∃ σ1 a, m σ = (σ1, Ok a) ∧ k a σ1 = (σ', Ok b).
Proof.
  unfold mbind, stM_bind. destruct (m σ) as [σ1 [a|e]]; [|done].
  intros Hk. by exists σ1, a.
Qed.

Lemma st_lift_ok {S A : Type} (r : result A) (σ σ' : S) (a : A) :
  st_lift r σ = (σ', Ok a) → σ' = σ ∧ r = Ok a.
Proof. unfold st_lift. by intros [= -> ->]. Qed.

Lemma read_ok {F : Type} (l : nat) (σ σ' : store F) (M : ndarray F) :
  read l σ = (σ', Ok M) → σ' = σ ∧ heap σ !! l = Some M.
Proof.
  unfold read. destruct (heap σ !! l) as [M'|]; [|done]. by intros [= -> ->].
Qed.

Lemma alloc_ok {F : Type} (M : ndarray F) (σ σ' : store F) (l : nat) :
  alloc M σ = (σ', Ok l) → l = length (heap σ) ∧ heap σ' = heap σ ++ [M].
Proof. unfold alloc. by intros [= <- <-]. Qed.

Lemma emit_ok {F : Type} (e : log_event F) (σ σ' : store F) (u : unit) :
  emit e σ = (σ', Ok u) → heap σ' = heap σ.
Proof. unfold emit. by intros [= <- _]. Qed.

Section OrthonormalResult.
Context {F : Type} `{Arith F} `{Libm F}.
Variables Mol IaoMol : Type.
Variable vec_lowdin : ndarray F -> option (ndarray F) -> result (ndarray F).
Variable reference_mol : Mol -> string -> result IaoMol.
Variable natm : IaoMol -> nat.
Variable atom_pure_symbol : IaoMol -> nat -> result string.
Variable offset_nr_by_atom : IaoMol -> result (list (Z * Z * Z * Z)).
Variable mo_1to1map : ndarray F -> result (list nat).
Variable np_T : ndarray F -> ndarray F.
Variable np_conj : ndarray F -> ndarray F.

(** The arithmetic is exact. *)
Hypothesis exact_arithmetic : ring_theory fzero (of_int 1) fadd fmul fsub fneg (@eq F).

(** The contract of the symmetric orthogonalization: what it returns is a
    2-D array whose columns are orthonormal in the metric it was given (the
    identity when none was given). *)
Hypothesis vec_lowdin_orthonormal :
  ∀ (c : ndarray F) (s : option (ndarray F)) (r : ndarray F),
    vec_lowdin c s = Ok r → rectangular r ∧ gram s r = eye (length r).

(** The contract of the one-to-one assignment: the indices it returns are
    those of the columns, each once. *)
Hypothesis mo_1to1map_one_to_one :
  ∀ (u : ndarray F) (idx : list nat), mo_1to1map u = Ok idx → idx ≡ₚ seq 0 (length u).

(** In exact arithmetic, with [numpy.dot] the matrix product and under the
    contracts of [vec_lowdin] and [mo_1to1map], the array that a call of
    [ibo_loc] returns has columns that are orthonormal in the metric of the
    overlap matrix [s] that the call was given, whether the iterations have
    converged or not: [ibos^T . s . ibos] is the identity, and when [s] is
    [m x m] and [ibos] is [m x n] this is what
    [numpy.dot(numpy.dot(ibos.T, s), ibos)] evaluates to. *)
Theorem ibo_loc_orthonormal_exact (mol : Mol) (orbocc iaos s : nat) (exponent : Z)
    (grad_tol : F) (max_iter : Z) (minao : string) (iao_mol : option IaoMol)
    (labels : option (list string)) (σ σ' : store F) (returned : nat)
    (s_v : ndarray F) :
  heap σ !! s = Some s_v → rectangular s_v →
  ibo_loc Mol IaoMol vec_lowdin reference_mol natm atom_pure_symbol
    offset_nr_by_atom mo_1to1map Example.matmul np_T np_conj
    mol orbocc iaos s exponent grad_tol max_iter minao iao_mol labels σ
  = (σ', Ok returned) →
  ∃ ibos : ndarray F,
    heap σ' !! returned = Some ibos
    ∧ gram (Some s_v) ibos = eye (length ibos)
    ∧ ∀ m n : nat,
        (0 < m)%nat → (0 < n)%nat → has_shape m n ibos → has_shape m m s_v →
        (g ← Example.matmul (Example.transpose ibos) s_v; Example.matmul g ibos)
        = Ok (eye n).
Proof.
  intros Hs Hrect Hrun. unfold ibo_loc in Hrun.
  apply bind_ok in Hrun as (σ1 & _ & [-> _]%st_lift_ok & Hrun).
  apply bind_ok in Hrun as (σ1 & iaos_v & [-> _]%read_ok & Hrun).
  apply bind_ok in Hrun as (σ1 & s_v' & [-> Hs']%read_ok & Hrun).
  assert (s_v' = s_v) as -> by congruence.
  apply bind_ok in Hrun as (σ1 & L & [-> HL]%st_lift_ok & Hrun).
  apply bind_ok in Hrun as (σ1' & l_iaos & [Hl Hσ1]%alloc_ok & Hrun).
  apply bind_ok in Hrun as (σ2 & slices & [-> _]%st_lift_ok & Hrun). cbv zeta in Hrun.
  apply bind_ok in Hrun as (σ2 & iaos_v1 & [-> _]%read_ok & Hrun).
  apply bind_ok in Hrun as (σ2 & s_v1 & [-> _]%read_ok & Hrun).
  apply bind_ok in Hrun as (σ2 & orbocc_v & [-> _]%read_ok & Hrun).
  apply bind_ok in Hrun as (σ2 & iaosT_s & [-> _]%st_lift_ok & Hrun).
  apply bind_ok in Hrun as (σ2 & projection & [-> _]%st_lift_ok & Hrun).
  apply bind_ok in Hrun as (σ2' & CIb & [HCIb Hσ2]%alloc_ok & Hrun). cbv zeta in Hrun.
  apply bind_ok in Hrun as (σ3 & [] & Hσ3%emit_ok & Hrun).
  apply bind_ok in Hrun as (σ4 & vars & Hloop & Hrun).
  apply bind_ok in Hrun as (σ5 & [] & Hreport & Hrun).
  apply bind_ok in Hrun as (σ6 & CIb_v & [-> _]%read_ok & Hrun).
  apply bind_ok in Hrun as (σ6 & ? & [-> _]%st_lift_ok & Hrun).
  apply bind_ok in Hrun as (σ6 & [] & Hσ6%emit_ok & Hrun).
  apply bind_ok in Hrun as (σ7 & U & [-> HU]%st_lift_ok & Hrun).
  apply bind_ok in Hrun as (σ7 & iaos_v2 & [-> Hiaos]%read_ok & Hrun).
  apply bind_ok in Hrun as (σ7 & ibos & [-> Hibos]%st_lift_ok & Hrun).
  apply bind_ok in Hrun as (σ7 & orbocc_v1 & [-> _]%read_ok & Hrun).
  apply bind_ok in Hrun as (σ7 & s_v2 & [-> _]%read_ok & Hrun).
  apply bind_ok in Hrun as (σ7 & orboccT_s & [-> _]%st_lift_ok & Hrun).
  apply bind_ok in Hrun as (σ7 & u0 & [-> Hu0]%st_lift_ok & Hrun).
  apply bind_ok in Hrun as (σ7 & idx & [-> Hidx]%st_lift_ok & Hrun).
  apply bind_ok in Hrun as (σ7 & sorted & [-> Hsorted]%st_lift_ok & Hrun).
  apply alloc_ok in Hrun as [Hret Hσ'].
  exists sorted. split.
  { rewrite Hσ', Hret. by apply list_lookup_middle. }
  assert (gram (Some s_v) sorted = eye (length sorted)) as Hgram; last first.
  { split; [done|]. intros m n Hm Hn [Hlen Hcols] [Hlen_s Hcols_s].
    rewrite (gram_as_products exact_arithmetic s_v sorted m), Hgram, Hlen; try done.
    intros ->. simpl in Hlen. lia. }
  (* the orthogonalized [iaos] is still where it was put *)
  assert (iaos_v2 = L) as ->.
  { assert (take CIb (heap σ6) = take CIb (heap σ3)) as Htake.
    { rewrite Hσ6.
      destruct (frames_report CIb exponent vars σ4) as (Hr & _ & _).
      { destruct (frames_iterations CIb CIb exponent grad_tol slices.1 slices.2
                    (length projection) (py_range 0 max_iter)
                    (LoopVars None None false) (le_n _) σ3) as (_ & Hlen & _).
        - rewrite Hσ3, Hσ2, HCIb, length_app. simpl. lia.
        - by rewrite Hloop in Hlen. }
      rewrite Hreport in Hr. cbn [fst] in Hr. rewrite Hr.
      destruct (frames_iterations CIb CIb exponent grad_tol slices.1 slices.2
                  (length projection) (py_range 0 max_iter)
                  (LoopVars None None false) (le_n _) σ3) as (Hi & _ & _).
      - rewrite Hσ3, Hσ2, HCIb, length_app. simpl. lia.
      - by rewrite Hloop in Hi. }
    assert (l_iaos < CIb)%nat as Hlt.
    { rewrite HCIb, Hσ1, Hl, length_app. simpl. lia. }
    rewrite <- (lookup_take_lt _ CIb) in Hiaos by done.
    rewrite Htake, lookup_take_lt, Hσ3, Hσ2, Hσ1 in Hiaos by done.
    rewrite lookup_app_l in Hiaos by (rewrite Hl, length_app; simpl; lia).
    rewrite Hl, list_lookup_middle in Hiaos by done. congruence. }
  destruct (vec_lowdin_orthonormal _ _ _ HL) as [HrL HGL].
  destruct (vec_lowdin_orthonormal _ _ _ HU) as [_ HGU].
  apply mo_1to1map_one_to_one in Hidx.
  eapply (selected_product_orthonormal exact_arithmetic s_v L U ibos idx); try done.
  rewrite Hidx. apply NoDup_seq.
Qed.

End OrthonormalResult.

(** The rationals in canonical form: a scalar structure whose arithmetic is
    exact, with equality as its [==]. *)
Module ExactRational.

#[global] Instance arith : Arith Qc := {|
  fzero := Q2Qc 0;
  fquarter := Q2Qc (1 # 4);
  swapGradTolerance := Q2Qc (1 # 1000000000000);
  of_int := fun n => Q2Qc (inject_Z n);
  fadd := Qcplus;
  fsub := Qcminus;
  fmul := Qcmult;
  fneg := Qcopp;
  pow_int := fun (x : Qc) n => Q2Qc (this x ^ n);
  pow_half := fun x : Qc => Q2Qc (Rational.sqrt (this x));
  flt := fun x y : Qc => Rational.lt (this x) (this y)
|}.

#[global] Instance libm : Libm Qc := {|
  arctan2 := fun y x : Qc => Q2Qc (arctan2 (this y) (this x));
  np_cos := fun phi : Qc => Q2Qc (np_cos (this phi));
  np_sin := fun phi : Qc => Q2Qc (np_sin (this phi))
|}.

Lemma ring_laws : ring_theory fzero (of_int 1) fadd fmul fsub fneg (@eq Qc).
Proof. exact Qcrt. Qed.

#[global] Instance rectangular_dec (M : ndarray Qc) : Decision (rectangular M).
Proof. unfold rectangular. apply _. Defined.

(** A stand-in for [orth.vec_lowdin] that keeps to its contract: columns
    that are orthonormal already are returned as they are, and it fails on
    any other input. *)
Definition vec_lowdin (c : ndarray Qc) (s : option (ndarray Qc)) : result (ndarray Qc) :=
  if bool_decide (rectangular c ∧ gram s c = eye (length c)) then Ok c
  else Raise (CollaboratorError "vec_lowdin").

Definition mo_1to1map (u : ndarray Qc) : result (list nat) := Ok (seq 0 (length u)).

Lemma stand_in_orthonormal (c : ndarray Qc) (s : option (ndarray Qc)) (r : ndarray Qc) :
  vec_lowdin c s = Ok r → rectangular r ∧ gram s r = eye (length r).
Proof. unfold vec_lowdin. case_bool_decide; [|done]. by intros [= <-]. Qed.

Lemma stand_in_one_to_one (u : ndarray Qc) (idx : list nat) :
  mo_1to1map u = Ok idx → idx ≡ₚ seq 0 (length u).
Proof. by intros [= <-]. Qed.

(** Two hydrogen atoms with the overlap matrix [diag(4, 1/4)] at location 2
    and, at locations 0 and 1, the orbitals and the IAOs [diag(1/2, 2)],
    whose columns are orthonormal in that metric. *)
Definition overlap : ndarray Qc := [[Q2Qc 4; Q2Qc 0]; [Q2Qc 0; Q2Qc (1 # 4)]].
Definition orbitals : ndarray Qc := [[Q2Qc (1 # 2); Q2Qc 0]; [Q2Qc 0; Q2Qc 2]].
Definition σ0 : store Qc := Store [orbitals; orbitals; overlap] [].

Definition run : store Qc * result nat :=
  ibo_loc Example.Mol Example.Mol vec_lowdin Example.reference_mol length
    Example.atom_pure_symbol Example.offset_nr_by_atom mo_1to1map
    Example.matmul Example.transpose id
    Example.H2 0 1 2 2 (Q2Qc (1 # 100000000)) 5 "minao" None None σ0.

Lemma run_returns : run.2 = Ok 5%nat.
Proof. vm_compute. reflexivity. Qed.

End ExactRational.

Lemma ibo_loc_orthonormal_exact_witness :
  ∃ ibos : ndarray Qc,
    heap ExactRational.run.1 !! 5%nat = Some ibos
    ∧ gram (Some ExactRational.overlap) ibos = eye (length ibos)
    ∧ ∀ m n : nat,
        (0 < m)%nat → (0 < n)%nat →
        has_shape m n ibos → has_shape m m ExactRational.overlap →
        (g ← Example.matmul (Example.transpose ibos) ExactRational.overlap;
         Example.matmul g ibos)
        = Ok (eye n).
Proof.
  apply (ibo_loc_orthonormal_exact Example.Mol Example.Mol ExactRational.vec_lowdin
           Example.reference_mol length Example.atom_pure_symbol
           Example.offset_nr_by_atom ExactRational.mo_1to1map Example.transpose id
           ExactRational.ring_laws ExactRational.stand_in_orthonormal
           ExactRational.stand_in_one_to_one
           Example.H2 0 1 2 2 (Q2Qc (1 # 100000000)) 5 "minao" None None
           ExactRational.σ0 ExactRational.run.1 5).
  - reflexivity.
  - by repeat constructor.
  - rewrite <- ExactRational.run_returns. apply surjective_pairing.
Defined.

(** * [plot_stixfont]: the decorator of [libdmet/utils/plot_wrapper.py] *)

Module PlotWrapper.

(** A Python [dict] with string keys: the items in insertion order, no key
    twice.  Assigning to a key that is present replaces the value where it
    stands; a new key goes to the end. *)
Definition dict (V : Type) : Type := list (string * V).

Fixpoint dict_get {V : Type} (d : dict V) (k : string) : option V :=
  match d with
  | [] => None
  | (k', v) :: d' => if decide (k' = k) then Some v else dict_get d' k
  end.

Fixpoint dict_set {V : Type} (d : dict V) (k : string) (v : V) : dict V :=
  match d with
  | [] => [(k, v)]
  | (k', v') :: d' =>
      if decide (k' = k) then (k', v) :: d' else (k', v') :: dict_set d' k v
  end.

(** [d.pop(k, None)]: the value under [k], if any, and the rest. *)
Fixpoint dict_pop {V : Type} (d : dict V) (k : string) : option V * dict V :=
  match d with
  | [] => (None, [])
  | (k', v) :: d' =>
      if decide (k' = k) then (Some v, d')
      else let '(r, d'') := dict_pop d' k in (r, (k', v) :: d'')
  end.

Definition keys {V : Type} (d : dict V) : list string := d.*1.

(** The exceptions of a call of the wrapper: the two that the interpreter
    raises for a name or a key that is not there, and those of the code it
    calls. *)
Inductive exn (E : Type) : Type :=
| NameError (name : string)
| KeyError (key : string)
| Foreign (e : E).
Arguments NameError {E} name.
Arguments KeyError {E} key.
Arguments Foreign {E} e.

Inductive outcome (E A : Type) : Type :=
| Returned (a : A)
| Raised (e : exn E).
Arguments Returned {E A} a.
Arguments Raised {E A} e.

(** An object, by its identity.  Two names or two dictionaries may hold the
    same object: what one of them sees changed in place, the other sees
    too. *)
Definition obj : Type := nat.

(** A keyword argument: [None], a mapping from rc keys to objects, or any
    other object. *)
Inductive kwarg (O : Type) : Type :=
| ArgNone
| ArgMapping (items : dict obj)
| ArgOther (o : O).
Arguments ArgNone {O}.
Arguments ArgMapping {O} items.
Arguments ArgOther {O} o.

(** What a name of the module's global namespace, or of the builtins, is
    bound to: the [matplotlib] package, or something else. *)
Inductive global_value : Type :=
| MatplotlibPackage
| OtherGlobal.

(** The global names that the module binds by itself: [import functools]
    and [def plot_stixfont].  The function imports [rcParams] from the
    package into a local name; the package itself is bound to no name, and
    no builtin is called [matplotlib]. *)
Definition module_namespace : dict global_value :=
  [("functools", OtherGlobal); ("plot_stixfont", OtherGlobal)].

Section Wrapper.

(** The contents of objects, with Python's [!=] decided by equality; the
    exceptions of the collaborators; positional arguments, other keyword
    values, and what the wrapped function returns. *)
Context {V : Type} `{EqDecision V}.
Variables E Args O Value : Type.

(** The state that a call works on: [matplotlib.rcParams], a dictionary
    from rc keys to objects, and the objects themselves: [heap a] is the
    content of the object [a], and the objects below [next] are those that
    exist. *)
Record state : Type := State {
  rc : dict obj;
  heap : obj -> V;
  next : obj
}.

Definition with_rc (σ : state) (d : dict obj) : state :=
  {| rc := d; heap := heap σ; next := next σ |}.

Definition run (A : Type) : Type := state -> state * outcome E A.

(** The names visible from the body of [wrapper_decorator] that are neither
    its locals nor [func]: the global namespace of the module, then the
    builtins. *)
Variable globals : dict global_value.

(** The interpreter and matplotlib: the outcome of [from matplotlib import
    rcParams]; the constant that a string literal denotes; the validator
    that [RcParams.__setitem__] applies to a value, whose result is what
    gets stored; [rcParams.update(o)] for an object that is not a mapping;
    and [m.rcParams[key] = val] for an object [m] that is not the
    package. *)
Variable import_rcParams : outcome E unit.
Variable literal : string -> obj.
Variable validate : string -> obj -> run obj.
Variable update_from_object : O -> run unit.
Variable foreign_setitem : string -> obj -> run unit.

(** Reading a global name. *)
Definition load_global (name : string) : outcome E global_value :=
  match dict_get globals name with
  | Some m => Returned m
  | None => Raised (NameError name)
  end.

(** [rcParams[key] = val] *)
Definition setitem (key : string) (val : obj) : run unit :=
  fun σ =>
    match validate key val σ with
    | (σ', Returned cval) => (with_rc σ' (dict_set (rc σ') key cval), Returned tt)
    | (σ', Raised e) => (σ', Raised e)
    end.

(** [matplotlib.rcParams[key] = val], the name [matplotlib] being read when
    the statement is run. *)
Definition matplotlib_setitem (key : string) (val : obj) : run unit :=
  fun σ =>
    match load_global "matplotlib" with
    | Returned MatplotlibPackage => setitem key val σ
    | Returned OtherGlobal => foreign_setitem key val σ
    | Raised e => (σ, Raised e)
    end.

(** A [for] loop over keys whose body is run for its effect. *)
Fixpoint for_keys (body : string -> run unit) (ks : list string) : run unit :=
  fun σ =>
    match ks with
    | [] => (σ, Returned tt)
    | k :: ks' =>
        match body k σ with
        | (σ', Returned _) => for_keys body ks' σ'
        | (σ', Raised e) => (σ', Raised e)
        end
    end.

(** [rcParams.update(items)] for a mapping: one assignment per item, in the
    order of the mapping. *)
Fixpoint update (items : dict obj) : run unit :=
  fun σ =>
    match items with
    | [] => (σ, Returned tt)
    | (k, v) :: items' =>
        match setitem k v σ with
        | (σ', Returned _) => update items' σ'
        | (σ', Raised e) => (σ', Raised e)
        end
    end.

(** The body of the loop that resets the parameters.  [_old_rcParams] is the
    copy taken on entry, which holds the objects that [rcParams] held then;
    [!=] compares what the two objects contain now. *)
Definition reset_key (_old_rcParams : dict obj) (key : string) : run unit :=
  fun σ =>
    match dict_get (rc σ) key with
    | None => (σ, Raised (KeyError key))
    | Some cur =>
        match dict_get _old_rcParams key with
        | None => (σ, Raised (KeyError key))
        | Some old =>
            if decide (heap σ cur ≠ heap σ old) then setitem key old σ
            else (σ, Returned tt)
        end
    end.

(** The function [wrapper_decorator] that the decorator returns for [func],
    called with positional arguments [args] and keyword arguments
    [kwargs]. *)
Definition wrapper_decorator
    (func : Args -> dict (kwarg O) -> run Value)
    (args : Args) (kwargs : dict (kwarg O)) : run Value :=
  fun σ =>
    match import_rcParams with
    | Raised e => (σ, Raised e)
    | Returned _ =>
        let _old_rcParams := rc σ in
        let '(popped, kwargs) := dict_pop kwargs "rcParams" in
        let rcParamsInput := default ArgNone popped in
        let configured :=
          match rcParamsInput with
          | ArgNone =>
              match matplotlib_setitem "mathtext.fontset" (literal "stix") σ with
              | (σ, Returned _) =>
                  matplotlib_setitem "font.family" (literal "STIXGeneral") σ
              | (σ, Raised e) => (σ, Raised e)
              end
          | ArgMapping items => update items σ
          | ArgOther o => update_from_object o σ
          end in
        match configured with
        | (σ, Raised e) => (σ, Raised e)
        | (σ, Returned _) =>
            match func args kwargs σ with
            | (σ, Raised e) => (σ, Raised e)
            | (σ, Returned value) =>
                match for_keys (reset_key _old_rcParams) (keys (rc σ)) σ with
                | (σ, Raised e) => (σ, Raised e)
                | (σ, Returned _) => (σ, Returned value)
                end
            end
        end
    end.

(** *** Dictionaries *)

Lemma dict_get_app_notin {A : Type} (d1 d2 : dict A) (k : string) :
  k ∉ keys d1 → dict_get (d1 ++ d2) k = dict_get d2 k.
Proof.
  induction d1 as [|[k' v] d1 IH]; intros Hk; [done|].
  cbn [app dict_get]. unfold keys in Hk. cbn [fmap list_fmap fst] in Hk.
  apply not_elem_of_cons in Hk as [Hne Hk].
  rewrite decide_False by done. by apply IH.
Qed.

Lemma dict_set_app_notin {A : Type} (d1 d2 : dict A) (k : string) (v : A) :
  k ∉ keys d1 → dict_set (d1 ++ d2) k v = d1 ++ dict_set d2 k v.
Proof.
  induction d1 as [|[k' v'] d1 IH]; intros Hk; [done|].
  cbn [app dict_set]. unfold keys in Hk. cbn [fmap list_fmap fst] in Hk.
  apply not_elem_of_cons in Hk as [Hne Hk].
  rewrite decide_False by done. by rewrite IH.
Qed.

(** *** The default branch *)

(** Called without the [rcParams] keyword, or with [rcParams=None], in a
    namespace where the name [matplotlib] is bound neither by the module nor
    by the builtins, the wrapper raises [NameError] on that name: whatever
    the wrapped function is, it is not called, and the rc parameters and
    every object are as they were. *)
Theorem default_branch_raises_NameError
    (func : Args -> dict (kwarg O) -> run Value)
    (args : Args) (kwargs : dict (kwarg O)) (σ : state) :
  import_rcParams = Returned tt →
  dict_get globals "matplotlib" = None →
  default ArgNone (dict_pop kwargs "rcParams").1 = ArgNone →
  wrapper_decorator func args kwargs σ = (σ, Raised (NameError "matplotlib")).
Proof.
  intros Himport Hname Hnone. unfold wrapper_decorator. rewrite Himport.
  destruct (dict_pop kwargs "rcParams") as [popped kwargs']. cbn [fst] in Hnone.
  rewrite Hnone. unfold matplotlib_setitem, load_global. by rewrite Hname.
Qed.

(** *** The reset loop *)

(** The validator accepts the object [a] under [key] as it is: whenever [a]
    exists, the object it returns holds what [a] holds, and no existing
    object and no rc parameter is changed by the validation. *)
Definition accepts_unchanged (key : string) (a : obj) : Prop :=
  ∀ σ : state, (a < next σ)%nat →
    ∃ (σ' : state) (a' : obj),
      validate key a σ = (σ', Returned a')
      ∧ rc σ' = rc σ
      ∧ heap σ' a' = heap σ a
      ∧ (a' < next σ')%nat
      ∧ (next σ ≤ next σ')%nat
      ∧ ∀ b : obj, (b < next σ)%nat → heap σ' b = heap σ b.

(** [agree σ now old]: under the same keys, in the same order, every
    parameter of [now] holds an object that contains what the object under
    the same key of [old] contains, both objects existing. *)
Definition agree (σ : state) (now old : dict obj) : Prop :=
  Forall2 (fun n o => n.1 = o.1 ∧ heap σ n.2 = heap σ o.2
                      ∧ (n.2 < next σ)%nat ∧ (o.2 < next σ)%nat) now old.

Lemma agree_keys (σ : state) (now old : dict obj) :
  agree σ now old → keys now = keys old.
Proof.
  induction 1 as [|[k a] [k' o] now old (Hk & _) _ IH]; [done|].
  unfold keys in *. cbn [fmap list_fmap fst] in *. by f_equal.
Qed.

Lemma agree_frame (σ σ' : state) (now old : dict obj) :
  agree σ now old → (next σ ≤ next σ')%nat →
  (∀ b : obj, (b < next σ)%nat → heap σ' b = heap σ b) →
  agree σ' now old.
Proof.
  intros Hag Hnext Hframe. eapply Forall2_impl; [exact Hag|].
  intros [k a] [k' o] (Hk & Hh & Ha & Ho). cbn [fst snd] in *.
  split; [done|]. split; [by rewrite !Hframe|]. lia.
Qed.

Lemma reset_loop (old_done old_rest done rest : dict obj) (σ : state) :
  rc σ = done ++ rest →
  keys rest = keys old_rest →
  NoDup (keys (old_done ++ old_rest)) →
  Forall (fun o => (o.2 < next σ)%nat ∧ accepts_unchanged o.1 o.2) old_rest →
  Forall (fun n => (n.2 < next σ)%nat) rest →
  agree σ done old_done →
  ∃ σ' : state,
    for_keys (reset_key (old_done ++ old_rest)) (keys rest) σ = (σ', Returned tt)
    ∧ agree σ' (rc σ') (old_done ++ old_rest)
    ∧ (next σ ≤ next σ')%nat
    ∧ ∀ b : obj, (b < next σ)%nat → heap σ' b = heap σ b.
Proof.
  revert old_done done rest σ.
  induction old_rest as [|[k o] old_rest IH];
    intros old_done done rest σ Hrc Hkr Hnd Hold Hrest Hag.
  - destruct rest; [|discriminate]. exists σ. cbn [keys fmap list_fmap for_keys].
    rewrite !app_nil_r in *. rewrite Hrc. by repeat split.
  - destruct rest as [|[k' c] rest]; [discriminate|].
    unfold keys in Hkr. cbn [fmap list_fmap fst] in Hkr.
    injection Hkr as -> Hkr.
    assert (k ∉ keys old_done) as Hk.
    { unfold keys in Hnd. rewrite fmap_app in Hnd.
      apply NoDup_app in Hnd as (_ & Hdisj & _). intros Hin.
      apply (Hdisj k Hin). cbn [fmap list_fmap fst]. by left. }
    assert (k ∉ keys done) as Hk' by (by rewrite (agree_keys _ _ _ Hag)).
    assert (dict_get (old_done ++ (k, o) :: old_rest) k = Some o) as Hgo.
    { rewrite dict_get_app_notin by done. cbn [dict_get]. by rewrite decide_True. }
    assert (dict_get (rc σ) k = Some c) as Hgc.
    { rewrite Hrc, dict_get_app_notin by done. cbn [dict_get]. by rewrite decide_True. }
    apply Forall_cons in Hold as [[Ho Hacc] Hold]. cbn [fst snd] in Ho, Hacc.
    apply Forall_cons in Hrest as [Hc Hrest]. cbn [snd] in Hc.
    cbn [keys fmap list_fmap fst for_keys]. unfold reset_key at 1.
    rewrite Hgc, Hgo.
    specialize (IH (old_done ++ [(k, o)])).
    rewrite <- !app_assoc in IH. cbn [app] in IH.
    destruct (decide (heap σ c ≠ heap σ o)) as [Hne|Heq].
    + destruct (Hacc σ Ho) as (σ1 & a' & Hv & Hrc1 & Hh & Ha' & Hnext & Hframe).
      unfold setitem. rewrite Hv.
      destruct (IH (done ++ [(k, a')]) rest
                  (with_rc σ1 (dict_set (rc σ1) k a'))) as (σ' & Hrun & Hs & Hn & Hf).
      * cbn [rc with_rc]. rewrite Hrc1, Hrc, dict_set_app_notin by done.
        cbn [dict_set]. rewrite decide_True by done. by rewrite <- app_assoc.
      * done.
      * done.
      * cbn [next with_rc]. eapply Forall_impl; [exact Hold|].
        intros [k1 o1] [Ho1 Hacc1]. split; [cbn [snd] in *; lia|done].
      * cbn [next with_rc]. eapply Forall_impl; [exact Hrest|].
        intros [k1 a1] Ha1. cbn [snd] in *. lia.
      * apply Forall2_app.
        -- by apply (agree_frame σ).
        -- repeat constructor; cbn [fst snd heap next with_rc]; [|done|lia].
           by rewrite Hh, Hframe.
      * exists σ'. split; [exact Hrun|]. split; [done|]. cbn [next with_rc] in Hn.
        split; [lia|]. intros b Hb. cbn [heap next with_rc] in Hf.
        rewrite Hf by lia. by apply Hframe.
    + apply dec_stable in Heq.
      destruct (IH (done ++ [(k, c)]) rest σ) as (σ' & Hrun & Hs & Hn & Hf).
      * by rewrite <- app_assoc.
      * done.
      * done.
      * done.
      * done.
      * apply Forall2_app; [done|]. by repeat constructor.
      * by exists σ'.
Qed.

Lemma agree_get (σ : state) (now old : dict obj) (k : string) (o : obj) :
  agree σ now old → dict_get old k = Some o →
  ∃ a : obj, dict_get now k = Some a ∧ heap σ a = heap σ o.
Proof.
  induction 1 as [|[k1 a1] [k2 o2] now old (Hk & Hh & _) _ IH]; [done|].
  cbn [fst snd] in Hk, Hh. subst k2. cbn [dict_get].
  destruct (decide (k1 = k)); [|done]. intros [= <-]. by exists a1.
Qed.

(** *** A call with a mapping *)

(** Called with a mapping under [rcParams], the wrapper applies it and calls
    the wrapped function without that keyword.  When the function raises,
    the exception goes through and nothing is put back.  When it returns,
    having left the keys as they were, every parameter is compared with the
    object it held on entry and, where the two differ, is assigned that
    object again: if the objects held on entry pass their validators
    unchanged, every parameter ends with the content that the object it held
    on entry has once the function has run.  This is the content on entry
    only for the objects that the function has not changed in place: the
    copy taken on entry shares its objects with [rcParams]. *)
Theorem rcParams_restored_on_return
    (func : Args -> dict (kwarg O) -> run Value)
    (args : Args) (kwargs : dict (kwarg O)) (items : dict obj)
    (σ σ1 σ2 : state) (r : outcome E Value) :
  import_rcParams = Returned tt →
  (dict_pop kwargs "rcParams").1 = Some (ArgMapping items) →
  update items σ = (σ1, Returned tt) →
  func args (dict_pop kwargs "rcParams").2 σ1 = (σ2, r) →
  keys (rc σ2) = keys (rc σ) →
  NoDup (keys (rc σ)) →
  Forall (fun o => (o.2 < next σ2)%nat ∧ accepts_unchanged o.1 o.2) (rc σ) →
  Forall (fun n => (n.2 < next σ2)%nat) (rc σ2) →
  match r with
  | Raised e => wrapper_decorator func args kwargs σ = (σ2, Raised e)
  | Returned value =>
      ∃ σ3 : state,
        wrapper_decorator func args kwargs σ = (σ3, Returned value)
        ∧ keys (rc σ3) = keys (rc σ)
        ∧ (∀ (k : string) (o : obj), dict_get (rc σ) k = Some o →
             ∃ a : obj, dict_get (rc σ3) k = Some a ∧ heap σ3 a = heap σ2 o)
        ∧ (∀ b : obj, (b < next σ2)%nat → heap σ3 b = heap σ2 b)
  end.
Proof.
  intros Himport Hpop Hupd Hfunc Hkeys Hnd Hold Hcur. unfold wrapper_decorator.
  rewrite Himport.
  destruct (dict_pop kwargs "rcParams") as [popped kwargs'].
  cbn [fst snd] in Hpop, Hfunc. subst popped. cbn [default from_option id].
  rewrite Hupd, Hfunc. destruct r as [value|e]; [|done].
  assert (agree σ2 [] []) as Hnil by constructor.
  destruct (reset_loop [] (rc σ) [] (rc σ2) σ2 eq_refl Hkeys Hnd Hold Hcur Hnil)
    as (σ3 & Hrun & Hag & Hnext & Hframe).
  cbn [app] in Hrun, Hag. rewrite Hrun. exists σ3. split; [done|].
  split; [by apply (agree_keys σ3)|]. split; [|done].
  intros k o Hk. destruct (agree_get σ3 _ _ k o Hag Hk) as (a & Ha & Hh).
  exists a. split; [done|]. rewrite Hh. apply Hframe.
  clear -Hold Hk. induction Hold as [|[k1 o1] d [Ho1 _] _ IH]; [done|].
  cbn [dict_get] in Hk. destruct (decide (k1 = k)); [by simplify_eq|by apply IH].
Qed.

End Wrapper.

(** A call in the namespace of the module, with parameters that hold lists
    of strings, validators that accept every object as it is, and a wrapped
    function that gives [font.family] a new list and puts a name in front
    of the list under [font.sans-serif], in place. *)
Definition fonts (a : obj) : list string :=
  match a with
  | 0%nat => ["sans-serif"]
  | 1%nat => ["DejaVu Sans"; "Arial"]
  | 2%nat => ["STIXGeneral"]
  | _ => []
  end.

Definition on_entry : state (V := list string) :=
  {| rc := [("font.family", 0%nat); ("font.sans-serif", 1%nat)];
     heap := fonts; next := 3%nat |}.

Definition plotter (args : unit) (kwargs : dict (kwarg unit))
  : state (V := list string) -> state (V := list string) * outcome unit nat :=
  fun σ =>
    ({| rc := dict_set (rc σ) "font.family" (next σ);
        heap := fun a => if decide (a = next σ) then ["serif"]
                         else if decide (a = 1%nat) then "Helvetica" :: heap σ a
                         else heap σ a;
        next := S (next σ) |},
     Returned (length kwargs)).

Definition call (kwargs : dict (kwarg unit))
  : state (V := list string) * outcome unit nat :=
  wrapper_decorator unit unit unit nat module_namespace (Returned tt) (fun _ => 0%nat)
    (fun k a σ => (σ, Returned a)) (fun _ σ => (σ, Returned tt))
    (fun _ _ σ => (σ, Returned tt))
    plotter tt kwargs on_entry.

(** The function has changed the list under [font.sans-serif] in place: the
    parameter and the copy hold the same list, the comparison finds no
    difference, and the change outlives the call, while [font.family] is
    given its object back. *)
Example in_place_change_is_kept :
  let after := (call [("rcParams", ArgMapping [("font.family", 2%nat)])]).1 in
  dict_get (rc after) "font.family" = Some 0%nat
  ∧ heap after 0%nat = ["sans-serif"]
  ∧ dict_get (rc after) "font.sans-serif" = Some 1%nat
  ∧ heap on_entry 1%nat = ["DejaVu Sans"; "Arial"]
  ∧ heap after 1%nat = ["Helvetica"; "DejaVu Sans"; "Arial"].
Proof. vm_compute. by repeat split. Qed.

End PlotWrapper.

Lemma default_branch_raises_NameError_witness :
  PlotWrapper.call [("dpi", PlotWrapper.ArgOther tt)]
  = (PlotWrapper.on_entry, PlotWrapper.Raised (PlotWrapper.NameError "matplotlib")).
Proof. by apply PlotWrapper.default_branch_raises_NameError. Defined.

Lemma rcParams_restored_on_return_witness :
  ∃ σ3 : PlotWrapper.state,
    PlotWrapper.call
      [("dpi", PlotWrapper.ArgOther tt);
       ("rcParams", PlotWrapper.ArgMapping [("font.family", 2%nat)])]
    = (σ3, PlotWrapper.Returned 1%nat)
    ∧ PlotWrapper.keys (PlotWrapper.rc σ3) = ["font.family"; "font.sans-serif"]
    ∧ (∀ (k : string) (o : PlotWrapper.obj),
         PlotWrapper.dict_get (PlotWrapper.rc PlotWrapper.on_entry) k = Some o →
         ∃ a : PlotWrapper.obj,
           PlotWrapper.dict_get (PlotWrapper.rc σ3) k = Some a
           ∧ PlotWrapper.heap σ3 a
             = PlotWrapper.heap
                 (PlotWrapper.plotter tt [("dpi", PlotWrapper.ArgOther tt)]
                    (PlotWrapper.with_rc PlotWrapper.on_entry
                       [("font.family", 2%nat); ("font.sans-serif", 1%nat)])).1 o)
    ∧ (∀ b : PlotWrapper.obj, (b < 4)%nat →
         PlotWrapper.heap σ3 b
         = PlotWrapper.heap
             (PlotWrapper.plotter tt [("dpi", PlotWrapper.ArgOther tt)]
                (PlotWrapper.with_rc PlotWrapper.on_entry
                   [("font.family", 2%nat); ("font.sans-serif", 1%nat)])).1 b).
Proof.
  refine (PlotWrapper.rcParams_restored_on_return unit unit unit nat
            PlotWrapper.module_namespace (PlotWrapper.Returned tt) (fun _ => 0%nat)
            (fun k a σ => (σ, PlotWrapper.Returned a))
            (fun _ σ => (σ, PlotWrapper.Returned tt))
            (fun _ _ σ => (σ, PlotWrapper.Returned tt))
            PlotWrapper.plotter tt _ [("font.family", 2%nat)] PlotWrapper.on_entry
            (PlotWrapper.with_rc PlotWrapper.on_entry
               [("font.family", 2%nat); ("font.sans-serif", 1%nat)])
            _ (PlotWrapper.Returned 1%nat) _ _ _ _ _ _ _ _).
  - reflexivity.
  - reflexivity.
  - reflexivity.
  - reflexivity.
  - reflexivity.
  - apply (bool_decide_unpack _). vm_compute. exact I.
  - repeat (constructor;
            [split; [simpl; lia|];
             intros σ Ha; exists σ; eexists; repeat split; done|]).
    constructor.
  - repeat (constructor; [simpl; lia|]). constructor.
Defined.
